(** * hikvision-tooling: a shallow embedding of the SADP discovery and
    command core, and the properties established for it.

    Layout: Part I holds the definitions, translated from the Go sources
    ([internal/network/arp.go], [internal/sadp/scanner.go] and the SADP
    command catalog); Part II holds the lemmas and theorems.

    Conventions.  A Go [string] is a sequence of bytes and is modelled
    as a Rocq [string] (a list of 8-bit characters).  A Go [int] is a
    64-bit two's complement integer, modelled as a [Z] with the
    wrap-around written out where arithmetic is performed.  A function
    returning [(T, error)] returns a [result T]; a run-time panic is
    [None] in an [option].  A loop that the code does not bound takes a
    [fuel] and returns [None] when the fuel is used up.  What the
    operating system, the network and the packages [encoding/xml] and
    [net] answer is given by records of functions ([XMLCodec],
    [NetParser], [NetEnv]) that the definitions take as parameters. *)

From Stdlib Require Import ZArith Lia List Ascii String Bool.
From stdpp Require Import base gmap strings list pretty.

Local Open Scope Z_scope.

(** ** Part I: definitions *)

(** *** Results of fallible calls *)

(** A Go [(T, error)] pair: the value, or the text of the error. *)
Inductive result (A : Type) : Type :=
| Ok (a : A)
| Err (e : string).
Arguments Ok {A} a.
Arguments Err {A} e.

Definition is_Err {A} (r : result A) : bool :=
  match r with Ok _ => false | Err _ => true end.

(** *** Go strings: the subset of package [strings] the sources call *)

Module GoStr.

(** [len(s)], in bytes. *)
Definition len (s : string) : Z := Z.of_nat (String.length s).

Definition byte_val (c : ascii) : N := N_of_ascii c.

(** [strings.ToLower] and [strings.ToUpper] on text of ASCII bytes, where
    Go maps byte by byte.  Go also maps the letters outside ASCII, rune by
    rune; the bytes of such runes are left as they are here, so the two
    agree on ASCII text only ([isASCII] below), and a theorem that needs
    the agreement assumes it. *)
Definition lower_byte (c : ascii) : ascii :=
  let n := byte_val c in
  if ((65 <=? n) && (n <=? 90))%N then ascii_of_N (n + 32) else c.

Definition upper_byte (c : ascii) : ascii :=
  let n := byte_val c in
  if ((97 <=? n) && (n <=? 122))%N then ascii_of_N (n - 32) else c.

Fixpoint map_bytes (f : ascii -> ascii) (s : string) : string :=
  match s with
  | EmptyString => EmptyString
  | String c s' => String (f c) (map_bytes f s')
  end.

Definition ToLower (s : string) : string := map_bytes lower_byte s.
Definition ToUpper (s : string) : string := map_bytes upper_byte s.

(** [strings.ReplaceAll(s, old, new)] where [old] and [new] are one byte
    long, which is the only way the sources call it. *)
Definition ReplaceAll (s : string) (old new : ascii) : string :=
  map_bytes (fun c => if Ascii.eqb c old then new else c) s.

(** [strings.Split(s, sep)] for a one-byte separator: always at least one
    group, the empty string splits into one empty group. *)
Fixpoint Split (s : string) (sep : ascii) : list string :=
  match s with
  | EmptyString => [EmptyString]
  | String c s' =>
      if Ascii.eqb c sep then EmptyString :: Split s' sep
      else match Split s' sep with
           | [] => [String c EmptyString]
           | p :: ps => String c p :: ps
           end
  end.

(** [strings.Join(parts, sep)]. *)
Definition Join (parts : list string) (sep : string) : string :=
  String.concat sep parts.

(** [strings.Contains(s, substr)]. *)
Fixpoint Contains (s substr : string) : bool :=
  if String.prefix substr s then true
  else match s with
       | EmptyString => false
       | String _ s' => Contains s' substr
       end.

(** [s[:hi]], which panics unless [0 <= hi <= len(s)]. *)
Definition slice_to (s : string) (hi : Z) : option string :=
  if (0 <=? hi) && (hi <=? len s) then Some (String.substring 0 (Z.to_nat hi) s)
  else None.

(** The double quote and the line feed, which string literals here do not
    spell. *)
Definition dquote : string := String (ascii_of_N 34) EmptyString.
Definition newline : string := String (ascii_of_N 10) EmptyString.

(** A string of [n] copies of one byte. *)
Fixpoint repeat_byte (c : ascii) (n : nat) : string :=
  match n with
  | O => EmptyString
  | S n' => String c (repeat_byte c n')
  end.

(** Every byte of a string passes a test. *)
Fixpoint allBytes (p : ascii -> bool) (s : string) : bool :=
  match s with
  | EmptyString => true
  | String c s' => p c && allBytes p s'
  end.

Definition isLowerByte (c : ascii) : bool :=
  ((97 <=? byte_val c) && (byte_val c <=? 122))%N.

(** A byte of a MAC in canonical form: no dash and no lower-case letter. *)
Definition canonicalMACByte (c : ascii) : bool :=
  negb (Ascii.eqb c "-") && negb (isLowerByte c).

(** ASCII white space: the bytes [strings.TrimSpace] and [strings.Fields]
    pass over.  Go also counts the Unicode spaces outside ASCII (U+0085,
    U+00A0 and above); text made of ASCII bytes has none, and a theorem
    about text that may hold them assumes [isASCII]. *)
Definition isSpace (c : ascii) : bool :=
  let n := byte_val c in (((9 <=? n) && (n <=? 13)) || (n =? 32))%N.

(** Every byte is below 128: the text on which Go's Unicode-aware string
    functions do what their byte-wise models here do. *)
Definition isASCII (s : string) : bool :=
  allBytes (fun c => (byte_val c <? 128)%N) s.

Fixpoint trimLeftSpace (s : string) : string :=
  match s with
  | EmptyString => EmptyString
  | String c s' => if isSpace c then trimLeftSpace s' else s
  end.

Fixpoint trimRightSpace (s : string) : string :=
  match s with
  | EmptyString => EmptyString
  | String c s' =>
      match trimRightSpace s' with
      | EmptyString => if isSpace c then EmptyString else String c EmptyString
      | t => String c t
      end
  end.

(** [strings.TrimSpace]. *)
Definition TrimSpace (s : string) : string := trimRightSpace (trimLeftSpace s).

(** [strings.Fields]: the scan of the library, [cur] being the bytes of
    the field that is open, empty between fields. *)
Fixpoint fieldsFrom (s cur : string) : list string :=
  match s with
  | EmptyString => if String.eqb cur EmptyString then [] else [cur]
  | String c s' =>
      if isSpace c then
        if String.eqb cur EmptyString then fieldsFrom s' EmptyString
        else cur :: fieldsFrom s' EmptyString
      else fieldsFrom s' (cur +:+ String c EmptyString)
  end.

Definition Fields (s : string) : list string := fieldsFrom s EmptyString.

(** [strings.Index(s, substr)]: where [substr] first starts, or -1. *)
Fixpoint Index (s substr : string) : Z :=
  if String.prefix substr s then 0
  else match s with
       | EmptyString => -1
       | String _ s' => let i := Index s' substr in if i <? 0 then -1 else i + 1
       end.

(** [s[lo:hi]], which panics unless [0 <= lo <= hi <= len(s)], and
    [s[lo:]]. *)
Definition slice (s : string) (lo hi : Z) : option string :=
  if (0 <=? lo) && (lo <=? hi) && (hi <=? len s)
  then Some (String.substring (Z.to_nat lo) (Z.to_nat (hi - lo)) s)
  else None.

Definition slice_from (s : string) (lo : Z) : option string := slice s lo (len s).

(** [strings.HasPrefix]. *)
Definition HasPrefix (s pre : string) : bool := String.prefix pre s.

(** No byte of [s] is [c]; no byte of [s] is white space. *)
Definition lacks (c : ascii) (s : string) : bool :=
  allBytes (fun x => negb (Ascii.eqb x c)) s.

Definition noSpace (s : string) : bool := allBytes (fun c => negb (isSpace c)) s.

(** A decimal digit. *)
Definition isDigit (c : ascii) : bool :=
  existsb (Ascii.eqb c) ["0"; "1"; "2"; "3"; "4"; "5"; "6"; "7"; "8"; "9"]%char.

(** [strings.Split] and [strings.SplitN] for a separator that is not
    empty, as the library cuts: from the left, at each place where the
    separator starts and that no earlier cut covers.  [cuts] is the number
    of cuts still allowed, [None] for no bound; [skip] counts the bytes of
    a separator still to pass over; [cur] is the piece that is open. *)
Fixpoint splitFrom (s sep : string) (cuts : option nat) (skip : nat) (cur : string)
  : list string :=
  match s with
  | EmptyString => [cur]
  | String c s' =>
      match skip with
      | S k => splitFrom s' sep cuts k cur
      | O =>
          let allowed := match cuts with Some O => false | _ => true end in
          if allowed && String.prefix sep s then
            cur :: splitFrom s' sep (option_map Nat.pred cuts)
                     (String.length sep - 1) EmptyString
          else splitFrom s' sep cuts O (cur +:+ String c EmptyString)
      end
  end.

Definition SplitStr (s sep : string) : list string :=
  splitFrom s sep None 0 EmptyString.

(** [strings.SplitN(s, sep, n)] for [n > 0]: at most [n] pieces, the last
    one the rest uncut. *)
Definition SplitN (s sep : string) (n : nat) : list string :=
  splitFrom s sep (Some (n - 1)%nat) 0 EmptyString.

(** The value of a text of decimal digits. *)
Fixpoint digitsValue (s : string) (acc : Z) : option Z :=
  match s with
  | EmptyString => Some acc
  | String c rest =>
      if isDigit c then digitsValue rest (acc * 10 + (Z.of_N (byte_val c) - 48))
      else None
  end.

(** [strconv.Atoi] on a 64-bit platform, [None] when it returns an
    error: an optional sign, then one decimal digit or more, the value
    within the range of [int]. *)
Definition Atoi (s : string) : option Z :=
  let signed :=
    match s with
    | String c rest =>
        if Ascii.eqb c "+" then (false, rest)
        else if Ascii.eqb c "-" then (true, rest)
        else (false, s)
    | EmptyString => (false, s)
    end in
  match signed.2 with
  | EmptyString => None
  | digits =>
      match digitsValue digits 0 with
      | None => None
      | Some v =>
          let v := if signed.1 then - v else v in
          if (- 2 ^ 63 <=? v) && (v <=? 2 ^ 63 - 1) then Some v else None
      end
  end.

End GoStr.

(** *** Go machine integers *)

Module GoInt.

Definition min_int : Z := - 2 ^ 63.
Definition max_int : Z := 2 ^ 63 - 1.

Definition in_range (z : Z) : Prop := min_int <= z <= max_int.

(** Two's complement wrap-around of a 64-bit [int]. *)
Definition wrap (z : Z) : Z := (z + 2 ^ 63) mod 2 ^ 64 - 2 ^ 63.

Definition sub (a b : Z) : Z := wrap (a - b).

End GoInt.

(** *** Package encoding/hex *)

Module Hex.
Import GoStr.

(** The value of a hexadecimal digit, of either case. *)
Definition hexVal (c : ascii) : option Z :=
  let n := Z.of_N (byte_val c) in
  if (48 <=? n) && (n <=? 57) then Some (n - 48)
  else if (97 <=? n) && (n <=? 102) then Some (n - 87)
  else if (65 <=? n) && (n <=? 70) then Some (n - 55)
  else None.

Definition isHexDigit (c : ascii) : bool :=
  match hexVal c with Some _ => true | None => false end.

(** The two errors of the package. *)
Inductive HexError : Type :=
  | ErrLength
  | InvalidByteError (b : ascii).

(** [hex.DecodeString]: two digits make a byte; the first byte that is no
    digit is reported, an odd length after that. *)
Fixpoint DecodeString (s : string) : HexError + list Z :=
  match s with
  | EmptyString => inr []
  | String p EmptyString =>
      match hexVal p with
      | None => inl (InvalidByteError p)
      | Some _ => inl ErrLength
      end
  | String p (String q rest) =>
      match hexVal p with
      | None => inl (InvalidByteError p)
      | Some a =>
          match hexVal q with
          | None => inl (InvalidByteError q)
          | Some b =>
              match DecodeString rest with
              | inl e => inl e
              | inr l => inr (Z.lor (Z.shiftl a 4) b :: l)
              end
          end
      end
  end.

Definition decodes (s : string) : bool :=
  match DecodeString s with inr _ => true | inl _ => false end.

End Hex.

(** *** Package network: MAC utilities *)

Module Network.
Import GoStr.

(** [HikvisionOUIs]: the MAC address prefixes assigned to the vendor. *)
Definition HikvisionOUIs : list string :=
  [ "00:0d:c5"; "28:57:be"; "44:19:b6"; "54:c4:15"; "80:cc:9c"; "a4:14:37";
    "bc:ad:28"; "c0:56:e3"; "c4:2f:90"; "e0:2f:6d"; "f4:52:14"; "48:40:a9";
    "8c:e7:48"; "4c:bd:8f"; "18:68:cb"; "44:47:cc"; "e4:24:6c" ].

(** The normal form [IsHikvisionMAC] compares: lower case, dashes turned
    into colons. *)
Definition normalizeMAC (mac : string) : string :=
  ReplaceAll (ToLower mac) "-" ":".

(** The groups [IsHikvisionMAC] looks at. *)
Definition groups (mac : string) : list string := Split (normalizeMAC mac) ":".

(** [IsHikvisionMAC]. *)
Definition IsHikvisionMAC (mac : string) : bool :=
  let mac := ToLower mac in
  let mac := ReplaceAll mac "-" ":" in
  let parts := Split mac ":" in
  if (Z.of_nat (length parts) <? 3) then false
  else
    let oui := Join (take 3 parts) ":" in
    existsb (fun hikOUI => String.eqb oui hikOUI) HikvisionOUIs.

(** [IsValidMAC]: the loop over the groups. *)
Fixpoint validParts (parts : list string) : bool :=
  match parts with
  | [] => true
  | p :: ps =>
      if negb (len p =? 2) then false
      else if negb (Hex.decodes p) then false
      else validParts ps
  end.

Definition IsValidMAC (s : string) : bool :=
  let s := ReplaceAll s "-" ":" in
  let parts := Split s ":" in
  if negb (Z.of_nat (length parts) =? 6) then false
  else validParts parts.

(** A dash or a colon. *)
Definition isSep (c : ascii) : bool := Ascii.eqb c "-" || Ascii.eqb c ":".

(** The text of [n] bytes in hexadecimal: two digits each, one dash or
    colon between neighbours, nothing before, after or besides. *)
Fixpoint hexPairs (n : nat) (s : string) : bool :=
  match n, s with
  | 1%nat, String a (String b EmptyString) => Hex.isHexDigit a && Hex.isHexDigit b
  | S n', String a (String b (String c rest)) =>
      Hex.isHexDigit a && Hex.isHexDigit b && isSep c && hexPairs n' rest
  | _, _ => false
  end.

(** **** Package net: addresses, masks, networks *)

(** [net.IP] and [net.IPMask]: byte slices, a byte being a number below
    256; the empty list stands for [nil]. *)
Abbreviation IP := (list Z).
Abbreviation IPMask := (list Z).

Definition isByte (b : Z) : Prop := 0 <= b < 256.

(** A four-byte address. *)
Definition wfIPv4 (ip : IP) : Prop := length ip = 4%nat /\ Forall isByte ip.

(** [net.IPv4len] and [net.IPv6len]. *)
Definition IPv4len : nat := 4.
Definition IPv6len : nat := 16.

(** An address of either family: four bytes or sixteen. *)
Definition wfIP (ip : IP) : Prop :=
  (length ip = IPv4len \/ length ip = IPv6len) /\ Forall isByte ip.

(** [len(mask) * 8], the number of bits of an address. *)
Definition bitsOf (ip : IP) : Z := 8 * Z.of_nat (length ip).

(** [v4InV6Prefix]: the first twelve bytes of an IPv4 address in its
    sixteen-byte form. *)
Definition v4InV6Prefix : IP := [0; 0; 0; 0; 0; 0; 0; 0; 0; 0; 255; 255].

(** [bytealg.Equal]. *)
Fixpoint sameBytes (a b : list Z) : bool :=
  match a, b with
  | [], [] => true
  | x :: a', y :: b' => (x =? y) && sameBytes a' b'
  | _, _ => false
  end.

(** [ip.To4()], [None] for [nil]: a four-byte address as it is, the last
    four bytes of a sixteen-byte one that starts with ten zeros and two
    255, no other. *)
Definition To4 (ip : IP) : option IP :=
  if (length ip =? IPv4len)%nat then Some ip
  else if (length ip =? IPv6len)%nat && sameBytes (take 12 ip) v4InV6Prefix
       then Some (drop 12 ip)
       else None.

(** [netip.Addr.As16]: the sixteen bytes of the address that
    [net.ParseCIDR] returns, an IPv4 address behind [v4InV6Prefix]. *)
Definition As16 (addr : IP) : IP :=
  if (length addr =? IPv4len)%nat then v4InV6Prefix ++ addr else addr.

(** The bytes of a [uint8] after an operation on it. *)
Definition byte (z : Z) : Z := z mod 256.

(** [net.CIDRMask(ones, bits)] for [0 <= ones <= bits] and [bits = 8*l]:
    [n] one bits left to place over [l] bytes. *)
Fixpoint cidrMaskBytes (n : Z) (l : nat) : IPMask :=
  match l with
  | O => []
  | S l' =>
      if 8 <=? n then 255 :: cidrMaskBytes (n - 8) l'
      else byte (Z.lnot (Z.shiftr 255 n)) :: cidrMaskBytes 0 l'
  end.

Definition CIDRMask (ones bits : Z) : IPMask :=
  cidrMaskBytes ones (Z.to_nat (bits / 8)).

(** The loop of [ip.Mask(mask)], for slices of one length: the bytes
    and-ed. *)
Fixpoint maskBytes (ip : IP) (mask : IPMask) : IP :=
  match ip, mask with
  | b :: ip', m :: mask' => Z.land b m :: maskBytes ip' mask'
  | _, _ => []
  end.

(** [allFF]. *)
Definition allFF (b : list Z) : bool := forallb (fun x => x =? 255) b.

(** [ip.Mask(mask)]: a sixteen-byte mask of an IPv4 address in four bytes
    gives up its first twelve bytes when they are all 255, an IPv4 address
    in sixteen bytes under a four-byte mask gives up its prefix, and slices
    that differ in length after that give [nil]. *)
Definition IP_Mask (ip : IP) (mask : IPMask) : IP :=
  let mask :=
    if (length mask =? IPv6len)%nat && (length ip =? IPv4len)%nat
       && allFF (take 12 mask)
    then drop 12 mask else mask in
  let ip :=
    if (length mask =? IPv4len)%nat && (length ip =? IPv6len)%nat
       && sameBytes (take 12 ip) v4InV6Prefix
    then drop 12 ip else ip in
  if negb (length ip =? length mask)%nat then [] else maskBytes ip mask.

(** [*net.IPNet]. *)
Record IPNet := mkIPNet {
  netIP : IP;
  netMask : IPMask
}.

(** The loop of [ipnet.Contains(ip)], for an address as long as the
    network number: all bytes agree under the mask. *)
Fixpoint sameUnderMask (nn : IP) (m : IPMask) (ip : IP) : bool :=
  match nn, m, ip with
  | [], _, [] => true
  | a :: nn', b :: m', c :: ip' =>
      (Z.land a b =? Z.land c b) && sameUnderMask nn' m' ip'
  | _, _, _ => false
  end.

(** [networkNumberAndMask(n)]: the network number in four bytes when it
    is an IPv4 address, with the last four bytes of a sixteen-byte mask;
    [(nil, nil)] when the lengths fit no family. *)
Definition networkNumberAndMask (n : IPNet) : IP * IPMask :=
  match (match To4 (netIP n) with
         | Some ip => Some ip
         | None => if (length (netIP n) =? IPv6len)%nat then Some (netIP n) else None
         end) with
  | None => ([], [])
  | Some ip =>
      let m := netMask n in
      if (length m =? IPv4len)%nat then
        if (length ip =? IPv4len)%nat then (ip, m) else ([], [])
      else if (length m =? IPv6len)%nat then
        if (length ip =? IPv4len)%nat then (ip, drop 12 m) else (ip, m)
      else ([], [])
  end.

(** [ipnet.Contains(ip)]: the address is taken in four bytes when it is
    an IPv4 address, and is outside a network whose number has another
    length. *)
Definition IPNet_Contains (n : IPNet) (ip : IP) : bool :=
  let (nn, m) := networkNumberAndMask n in
  let ip := match To4 ip with Some x => x | None => ip end in
  if negb (length ip =? length nn)%nat then false else sameUnderMask nn m ip.

(** The one bits at the top of a byte that is not 255, and what is left of
    the byte once they are shifted out: [for v&0x80 != 0 { n++; v <<= 1 }]. *)
Fixpoint leadingOnes (fuel : nat) (v : Z) (n : Z) : Z * Z :=
  match fuel with
  | O => (n, v)
  | S fuel' =>
      if Z.land v 128 =? 0 then (n, v)
      else leadingOnes fuel' (byte (Z.shiftl v 1)) (n + 1)
  end.

(** [simpleMaskLength(mask)]: the number of leading ones of a mask that is
    ones followed by zeros, [-1] for any other mask. *)
Fixpoint simpleMaskLength (mask : IPMask) (n : Z) : Z :=
  match mask with
  | [] => n
  | v :: rest =>
      if v =? 255 then simpleMaskLength rest (n + 8)
      else
        let (n', v') := leadingOnes 8 v n in
        if negb (v' =? 0) then -1
        else if forallb (fun b => b =? 0) rest then n' else -1
  end.

(** [mask.Size()]. *)
Definition IPMask_Size (mask : IPMask) : Z * Z :=
  let ones := simpleMaskLength mask 0 in
  if ones =? -1 then (0, 0) else (ones, Z.of_nat (length mask) * 8).

(** The digit of a number below 16, in lower case. *)
Definition hexDigit (n : Z) : ascii :=
  match String.get (Z.to_nat n) "0123456789abcdef" with
  | Some c => c
  | None => "0"%char
  end.

(** [hexString(b)]: two digits for each byte. *)
Fixpoint hexString (b : list Z) : string :=
  match b with
  | [] => EmptyString
  | x :: rest =>
      String (hexDigit (Z.shiftr x 4)) (String (hexDigit (Z.land x 15)) (hexString rest))
  end.

(** [appendHex]: a 16-bit number in hexadecimal, without leading zeros. *)
Definition appendHex (x : Z) : string :=
  (if 4096 <=? x then String (hexDigit (Z.shiftr x 12)) EmptyString else EmptyString)
  +:+ (if 256 <=? x then String (hexDigit (Z.land (Z.shiftr x 8) 15)) EmptyString
       else EmptyString)
  +:+ (if 16 <=? x then String (hexDigit (Z.land (Z.shiftr x 4) 15)) EmptyString
       else EmptyString)
  +:+ String (hexDigit (Z.land x 15)) EmptyString.

(** [v6u16(i)]: the [i]-th 16-bit group of a sixteen-byte address. *)
Definition v6u16 (ip : IP) (i : nat) : Z :=
  nth (2 * i) ip 0 * 256 + nth (2 * i + 1) ip 0.

(** [for j < 8 && ip.v6u16(j) == 0 { j++ }], [n] groups being left. *)
Fixpoint zeroRun (ip : IP) (n : nat) (j : nat) : nat :=
  match n with
  | O => j
  | S n' => if v6u16 ip j =? 0 then zeroRun ip n' (S j) else j
  end.

(** The first loop of [appendTo6]: the first longest run of two or more
    zero groups, from [zeroStart] to before [zeroEnd], both 255 when
    there is none. *)
Fixpoint longestZeros (ip : IP) (n : nat) (i : nat) (zeroStart zeroEnd : nat)
  : nat * nat :=
  match n with
  | O => (zeroStart, zeroEnd)
  | S n' =>
      let j := zeroRun ip (8 - i) i in
      let l := (j - i)%nat in
      if ((2 <=? l) && (zeroEnd - zeroStart <? l))%nat
      then longestZeros ip n' (S i) i j
      else longestZeros ip n' (S i) zeroStart zeroEnd
  end.

(** The second loop of [appendTo6]: the groups with colons between them,
    the run of zeros written as two colons. *)
Fixpoint string6 (ip : IP) (n : nat) (i : nat) (zeroStart zeroEnd : nat) : string :=
  match n with
  | O => EmptyString
  | S n' =>
      if (8 <=? i)%nat then EmptyString
      else if (i =? zeroStart)%nat then
        "::" +:+ (if (8 <=? zeroEnd)%nat then EmptyString
                  else appendHex (v6u16 ip zeroEnd)
                       +:+ string6 ip n' (S zeroEnd) zeroStart zeroEnd)
      else
        (if (0 <? i)%nat then ":" else EmptyString)
        +:+ appendHex (v6u16 ip i) +:+ string6 ip n' (S i) zeroStart zeroEnd
  end.

(** [ip.String()]: dotted decimal for an IPv4 address, in four bytes or
    in sixteen; the groups in hexadecimal for any other sixteen bytes. *)
Definition IP_String (ip : IP) : string :=
  if (length ip =? 0)%nat then "<nil>"
  else if negb (length ip =? IPv4len)%nat && negb (length ip =? IPv6len)%nat
  then "?" +:+ hexString ip
  else
    match To4 ip with
    | Some [a; b; c; d] =>
        pretty a +:+ "." +:+ pretty b +:+ "." +:+ pretty c +:+ "." +:+ pretty d
    | _ =>
        let (zeroStart, zeroEnd) := longestZeros ip 8 0 255 255 in
        string6 ip 8 0 zeroStart zeroEnd
    end.

(** The answers of [net.ParseCIDR] and [net.ParseIP] on a text.  For a
    prefix [addr/n], [ParseCIDR] gives the bytes of the address as it is
    written, four for an IPv4 address [a.b.c.d] and sixteen for an IPv6
    address, and the prefix length [n]; the address and the network that
    the call returns are built from them below. *)
Record NetParser := mkNetParser {
  ParseCIDR : string -> result (IP * Z)%type;
  ParseIP : string -> option IP
}.

(** The [*net.IPNet] that [net.ParseCIDR] returns next to the address:
    [m := CIDRMask(n, ipAddr.BitLen())] and
    [&IPNet{IP: IP(addr16[:]).Mask(m), Mask: m}]. *)
Definition parsedNet (ip : IP) (ones : Z) : IPNet :=
  let m := CIDRMask ones (bitsOf ip) in mkIPNet (IP_Mask (As16 ip) m) m.

(** **** incrementIP and ExpandCIDR *)

(** [incrementIP]: the loop over [j] from the last index down, [j] being
    the number of indices still to visit. *)
Fixpoint incrementFrom (j : nat) (ip : IP) : IP :=
  match j with
  | O => ip
  | S j' =>
      match ip !! j' with
      | None => ip
      | Some b =>
          let b' := byte (b + 1) in
          let ip' := <[j' := b']> ip in
          if 0 <? b' then ip' else incrementFrom j' ip'
      end
  end.

Definition incrementIP (ip : IP) : IP := incrementFrom (length ip) ip.

(** [ip[len(ip)-1]]; the slice is never empty where the code reads it. *)
Definition lastOctet (ip : IP) : Z := List.last ip 0.

(** The loop of [ExpandCIDR], [fuel] bounding the number of turns: [None]
    when the bound is reached before the address leaves the network. *)
Fixpoint expandLoop (fuel : nat) (ipnet : IPNet) (ip : IP) (ips : list string)
  : option (list string) :=
  match fuel with
  | O => None
  | S fuel' =>
      if IPNet_Contains ipnet ip then
        let (ones, bits) := IPMask_Size (netMask ipnet) in
        if (bits - ones <=? 8) && ((lastOctet ip =? 0) || (lastOctet ip =? 255))
        then expandLoop fuel' ipnet (incrementIP ip) ips
        else expandLoop fuel' ipnet (incrementIP ip) (ips ++ [IP_String ip])
      else Some ips
  end.

(** [ExpandCIDR]. *)
Definition ExpandCIDR (np : NetParser) (fuel : nat) (cidr : string)
  : option (result (list string)) :=
  match ParseCIDR np cidr with
  | Err err =>
      match ParseIP np cidr with
      | Some _ => Some (Ok [cidr])
      | None => Some (Err err)
      end
  | Ok (addr, ones) =>
      let ip := As16 addr in
      let ipnet := parsedNet addr ones in
      match expandLoop fuel ipnet (IP_Mask ip (netMask ipnet)) [] with
      | Some ips => Some (Ok ips)
      | None => None
      end
  end.

(** **** Addresses as numbers *)

(** The number a big-endian byte slice stands for. *)
Fixpoint ipValue (ip : IP) : Z :=
  match ip with
  | [] => 0
  | b :: rest => b * 256 ^ Z.of_nat (length rest) + ipValue rest
  end.

(** The [l] bytes, big-endian, of a number. *)
Fixpoint addrOf (l : nat) (v : Z) : IP :=
  match l with
  | O => []
  | S l' => (v / 256 ^ Z.of_nat l') mod 256 :: addrOf l' v
  end.

(** The first address of the prefix of [ip] with [h] host bits, as a
    number. *)
Definition blockStart (ip : IP) (h : Z) : Z := 2 ^ h * (ipValue ip / 2 ^ h).

(** Every address of that prefix, in ascending order. *)
Definition block (ip : IP) (h : Z) : list IP :=
  map (fun k => addrOf (length ip) (blockStart ip h + k)) (seqZ 0 (2 ^ h)).

(** The first of the addresses [::ffff:a.b.c.d], the IPv4 addresses in
    sixteen bytes, as a number. *)
Definition mappedStart : Z := 65535 * 2 ^ 32.

(** The prefix of [ip] with [h] host bits is an IPv6 prefix shorter than
    [/96] with the addresses [::ffff:a.b.c.d] inside. *)
Definition holdsMapped (ip : IP) (h : Z) : bool :=
  (length ip =? IPv6len)%nat && (32 <? h)
  && (blockStart ip h <=? mappedStart) && (mappedStart <? blockStart ip h + 2 ^ h).

(** The test of the loop body: with at most 8 host bits, an address whose
    last octet is 0 or 255 is passed over. *)
Definition kept (h : Z) (ip : IP) : bool :=
  negb ((h <=? 8) && ((lastOctet ip =? 0) || (lastOctet ip =? 255))).

(** What the proofs need of the mask of a prefix length, as a test that
    can be run for each of the 33 lengths of an IPv4 prefix and the 129 of
    an IPv6 prefix: the number of bytes, their value, and the size read
    back from them. *)
Definition maskChecksOf (bits ones : Z) : bool :=
  let m := CIDRMask ones bits in
  (Z.of_nat (length m) * 8 =? bits)
  && forallb (fun b => (0 <=? b) && (b <? 256)) m
  && (ipValue m =? 2 ^ bits - 2 ^ (bits - ones))
  && (let (o, b) := IPMask_Size m in (o =? ones) && (b =? bits)).

Definition maskChecks (ones : Z) : bool := maskChecksOf 32 ones.

(** **** The ARP table *)

(** [ARPTable]: from the text of an address to the text of a MAC. *)
Abbreviation ARPTable := (gmap string string).

(** The loop of [ParseARPLine] over the fields after the address. *)
Fixpoint firstMAC (fields : list string) : string :=
  match fields with
  | [] => EmptyString
  | f :: fs =>
      let f := ReplaceAll f "-" ":" in
      if IsValidMAC f then ToLower f else firstMAC fs
  end.

(** [ParseARPLine]; [None] stands for the panic of a slice out of
    range. *)
Definition ParseARPLine (np : NetParser) (line : string) : option (string * string) :=
  let line := TrimSpace line in
  if String.eqb line EmptyString then Some (EmptyString, EmptyString)
  else if Contains line ") at " then
    let start := Index line "(" in
    let end_ := Index line ")" in
    match (if negb (start =? -1) && negb (end_ =? -1) && (start <? end_)
           then slice line (start + 1) end_
           else Some EmptyString) with
    | None => None
    | Some ip =>
        let atIdx := Index line ") at " in
        match (if negb (atIdx =? -1) then
                 match slice_from line (atIdx + 5) with
                 | None => None
                 | Some rest =>
                     Some (match Fields rest with
                           | p :: _ => if Contains p ":" then ToLower p else EmptyString
                           | [] => EmptyString
                           end)
                 end
               else Some EmptyString) with
        | None => None
        | Some mac => Some (ip, mac)
        end
    end
  else
    let fields := Fields line in
    Some (if 2 <=? Z.of_nat (length fields) then
            match fields with
            | f0 :: rest =>
                match ParseIP np f0 with
                | Some _ => (f0, firstMAC rest)
                | None => (EmptyString, EmptyString)
                end
            | [] => (EmptyString, EmptyString)
            end
          else (EmptyString, EmptyString)).

(** The system that [getARPTableOS] asks: [runtime.GOOS], and what
    [cmd.Output()] gives for a command line, cut into the lines that the
    [bufio.Scanner] yields. *)
Record ArpEnv := mkArpEnv {
  GOOS : string;
  cmdOutput : list string -> result (list string)
}.

(** The loop over the lines: a line with both an address and a MAC is
    stored under the address. *)
Fixpoint scanLines (np : NetParser) (lines : list string) (arpTable : ARPTable)
  : option ARPTable :=
  match lines with
  | [] => Some arpTable
  | line :: rest =>
      match ParseARPLine np line with
      | None => None
      | Some (ip, mac) =>
          if negb (String.eqb ip EmptyString) && negb (String.eqb mac EmptyString)
          then scanLines np rest (<[ip := mac]> arpTable)
          else scanLines np rest arpTable
      end
  end.

(** [getARPTableOS], and [GetARPTable] which only calls it. *)
Definition getARPTableOS (np : NetParser) (env : ArpEnv) : option (result ARPTable) :=
  let arpTable : ARPTable := ∅ in
  let run (argv : list string) :=
    match cmdOutput env argv with
    | Err e => Some (Err e)
    | Ok lines =>
        match scanLines np lines arpTable with
        | None => None
        | Some t => Some (Ok t)
        end
    end in
  if String.eqb (GOOS env) "darwin" then run ["arp"; "-an"]
  else if String.eqb (GOOS env) "linux" then run ["arp"; "-n"]
  else if String.eqb (GOOS env) "windows" then run ["arp"; "-a"]
  else Some (Ok arpTable).

Definition GetARPTable (np : NetParser) (env : ArpEnv) : option (result ARPTable) :=
  getARPTableOS np env.

End Network.

(** *** Package sadp: scanner.go *)

Module Sadp.
Import GoStr.

(** The constants of the protocol; durations are in nanoseconds. *)
Definition Second : Z := 1000000000.
Definition MulticastAddr : string := "239.255.255.250".
Definition Port : Z := 37020.
Definition MaxPacketSize : Z := 65535.
Definition DefaultTimeout : Z := 5 * Second.

(** [Device]: one discovered unit, with the fields of the Go struct in
    schema order.  [ReceivedTime] is a point in time, kept as a number of
    nanoseconds. *)
Record Device := mkDevice {
  Uuid : string;
  Types : string;
  DeviceType : string;
  DeviceDescription : string;
  DeviceSN : string;
  MAC : string;
  IPv4Address : string;
  IPv4SubnetMask : string;
  IPv4Gateway : string;
  IPv6Address : string;
  IPv6Gateway : string;
  IPv6MaskLen : Z;
  DHCP : string;
  CommandPort : Z;
  HttpPort : Z;
  DSPVersion : string;
  BootTime : string;
  SoftwareVersion : string;
  Activated : string;
  PasswordResetMode : string;
  SupportHCPlatform : string;
  HCPlatformEnable : string;
  SupportReset : string;
  Encoder : string;
  OEMInfo : string;
  AnalogChannelNum : Z;
  DigitalChannelNum : Z;
  SDKOverTLSPort : Z;
  SDKServerStatus : string;
  AdapterIP : string;
  ReceivedTime : Z
}.

(** The zero value [&Device{}]. *)
Definition zeroDevice : Device :=
  mkDevice "" "" "" "" "" "" "" "" "" "" "" 0 "" 0 0 "" "" "" "" "" "" "" ""
           "" "" 0 0 0 "" "" 0.

(** [device.MAC = m]. *)
Definition set_MAC (d : Device) (m : string) : Device :=
  mkDevice (Uuid d) (Types d) (DeviceType d) (DeviceDescription d) (DeviceSN d)
    m (IPv4Address d) (IPv4SubnetMask d) (IPv4Gateway d) (IPv6Address d)
    (IPv6Gateway d) (IPv6MaskLen d) (DHCP d) (CommandPort d) (HttpPort d)
    (DSPVersion d) (BootTime d) (SoftwareVersion d) (Activated d)
    (PasswordResetMode d) (SupportHCPlatform d) (HCPlatformEnable d)
    (SupportReset d) (Encoder d) (OEMInfo d) (AnalogChannelNum d)
    (DigitalChannelNum d) (SDKOverTLSPort d) (SDKServerStatus d)
    (AdapterIP d) (ReceivedTime d).

(** [device.AdapterIP = ip; device.ReceivedTime = now]. *)
Definition stamp (d : Device) (ip : string) (now : Z) : Device :=
  mkDevice (Uuid d) (Types d) (DeviceType d) (DeviceDescription d) (DeviceSN d)
    (MAC d) (IPv4Address d) (IPv4SubnetMask d) (IPv4Gateway d) (IPv6Address d)
    (IPv6Gateway d) (IPv6MaskLen d) (DHCP d) (CommandPort d) (HttpPort d)
    (DSPVersion d) (BootTime d) (SoftwareVersion d) (Activated d)
    (PasswordResetMode d) (SupportHCPlatform d) (HCPlatformEnable d)
    (SupportReset d) (Encoder d) (OEMInfo d) (AnalogChannelNum d)
    (DigitalChannelNum d) (SDKOverTLSPort d) (SDKServerStatus d)
    ip now.

(** [DeviceList]: the envelope [ToXML] marshals. *)
Record DeviceList := mkDeviceList {
  Version : string;
  Devices : list Device
}.

(** What the code does to the outside, in the order it does it. *)
Inductive Event :=
| EvUnmarshal (data : string)
| EvMarshalIndent (list : DeviceList)
| EvDebugw (msg : string).

(** The answers of package [encoding/xml], which is not part of the
    repository: [xml.Unmarshal] into a [Device] and [xml.MarshalIndent] of a
    [DeviceList] with the indentation the code asks for. *)
Record XMLCodec := mkXMLCodec {
  xml_Unmarshal : string -> result Device;
  xml_MarshalIndent : DeviceList -> result string
}.

(** [xml.Header]. *)
Definition xml_Header : string :=
  Eval cbv in
    ("<?xml version=" +:+ dquote +:+ "1.0" +:+ dquote +:+ " encoding=" +:+ dquote
     +:+ "UTF-8" +:+ dquote +:+ "?>" +:+ newline).

(** [Scanner]: the discovery timeout, in nanoseconds, and the registry of
    devices keyed by MAC.  The logger is the [EvDebugw] events. *)
Record Scanner := mkScanner {
  timeout : Z;
  devices : gmap string Device
}.

(** [NewScanner]. *)
Definition NewScanner (timeout : Z) : Scanner := mkScanner timeout ∅.

(** [parseResponse]: the device, if any, and the events of the call.  The
    MAC is put in upper case by [GoStr.ToUpper], which is Go's
    [strings.ToUpper] when the MAC is ASCII text. *)
Definition parseResponse (xc : XMLCodec) (data : string)
  : option Device * list Event :=
  if negb (Contains data "<ProbeMatch") && negb (Contains data "ProbeMatch>")
  then (None, [])
  else
    match xml_Unmarshal xc data with
    | Err e => (None, [EvUnmarshal data; EvDebugw "Failed to parse response"])
    | Ok device =>
        (Some (set_MAC device (ToUpper (ReplaceAll (MAC device) "-" ":"))),
         [EvUnmarshal data])
    end.


(** **** Discovery *)

(** One datagram read from a socket: its text, and the clock when it was
    read. *)
Record Datagram := mkDatagram {
  payload : string;
  readAt : Z
}.

(** What the operating system answers for one socket: whether
    [net.ListenUDP] succeeds, and the datagrams [ReadFromUDP] returns
    before the read deadline ends the loop. *)
Record Socket := mkSocket {
  bindOk : bool;
  inbox : list Datagram
}.

(** One address of an interface: [IPNet4] when the address is an [*net.IPNet]
    whose [To4()] is not nil (with the text of the address and the socket
    bound to it), [IPNet6] for the other [*net.IPNet], [NotIPNet] for the
    rest. *)
Inductive Addr :=
| IPNet4 (ip : string) (sock : Socket)
| IPNet6
| NotIPNet.

Record Interface := mkInterface {
  ifName : string;
  flagUp : bool;
  flagLoopback : bool;
  ifAddrs : option (list Addr)
}.

(** The critical section of [discoverOnInterface], between
    [deviceMutex.Lock()] and [Unlock()]: the device is stored only when its
    MAC is not a key yet. *)
Definition insertIfAbsent (device : Device) (devs : gmap string Device)
  : gmap string Device :=
  match devs !! MAC device with
  | Some _ => devs
  | None => <[MAC device := device]> devs
  end.

(** One turn of the read loop of [discoverOnInterface] on the socket bound
    to [localIP]. *)
Definition receive (xc : XMLCodec) (localIP : string) (dg : Datagram)
  (devs : gmap string Device) : gmap string Device :=
  match fst (parseResponse xc (payload dg)) with
  | Some device => insertIfAbsent (stamp device localIP (readAt dg)) devs
  | None => devs
  end.

(** [discoverOnInterface] run on its own: nothing when the bind fails,
    otherwise the read loop over the datagrams of the socket. *)
Definition discoverOnInterface (xc : XMLCodec) (localIP : string) (sock : Socket)
  (devs : gmap string Device) : gmap string Device :=
  if bindOk sock then foldl (fun d dg => receive xc localIP dg d) devs (inbox sock)
  else devs.

(** The reads of the goroutine [discoverOnInterface(localIP, _)], in order:
    none when the bind fails. *)
Definition taskReads (ip : string) (sock : Socket) : list (string * Datagram) :=
  if bindOk sock then map (pair ip) (inbox sock) else [].

(** The goroutines [Discover] starts: one per IPv4 address of every
    interface that is up and is not the loopback. *)
Definition addrTasks (addrs : list Addr) : list (list (string * Datagram)) :=
  flat_map (fun a => match a with
                     | IPNet4 ip sock => [taskReads ip sock]
                     | IPNet6 | NotIPNet => []
                     end) addrs.

Definition tasks (interfaces : list Interface) : list (list (string * Datagram)) :=
  flat_map (fun iface =>
              if negb (flagUp iface) || flagLoopback iface then []
              else match ifAddrs iface with
                   | None => []
                   | Some addrs => addrTasks addrs
                   end) interfaces.

(** The goroutines run concurrently; the mutex makes each turn of a read
    loop one step.  [interleaved qs l]: [l] is one order in which the steps
    of the queues [qs] can happen, each queue in its own order, until every
    queue is empty. *)
Inductive interleaved {A : Type} : list (list A) -> list A -> Prop :=
| interleaved_done qs :
    Forall (fun q => q = []) qs -> interleaved qs []
| interleaved_step qs1 x q qs2 l :
    interleaved (qs1 ++ q :: qs2) l ->
    interleaved (qs1 ++ (x :: q) :: qs2) (x :: l).

(** The registry after the steps [l]. *)
Definition runReads (xc : XMLCodec) (l : list (string * Datagram))
  (devs : gmap string Device) : gmap string Device :=
  foldl (fun d e => receive xc (fst e) (snd e) d) devs l.

(** The values of the registry, in the order of the keys' encoding.  Go
    ranges over a map in an unspecified order. *)
Definition snapshot (devs : gmap string Device) : list Device :=
  (map_to_list devs).*2.

(** [Discover], given the answer of [net.Interfaces()].  The call relates the scanner before to the returned value and
    the scanner after. *)
Inductive Discover (xc : XMLCodec) (s : Scanner)
  : result (list Interface) -> result (list Device) -> Scanner -> Prop :=
| Discover_interfaces_error e :
    Discover xc s (Err e) (Err ("failed to get network interfaces: " +:+ e)) s
| Discover_done interfaces l res :
    interleaved (tasks interfaces) l ->
    res ≡ₚ snapshot (runReads xc l (devices s)) ->
    Discover xc s (Ok interfaces) (Ok res)
      (mkScanner (timeout s) (runReads xc l (devices s))).

(** The MACs of the devices parsed from the reads [l]. *)
Definition observedMACs (xc : XMLCodec) (l : list (string * Datagram))
  : list string :=
  flat_map (fun e => match fst (parseResponse xc (payload (snd e))) with
                     | Some device => [MAC device]
                     | None => []
                     end) l.

(** Every key of the registry is the MAC of its device. *)
Definition keyedByMAC (devs : gmap string Device) : Prop :=
  forall k d, devs !! k = Some d -> MAC d = k.

(** **** Output helpers *)

(** [ToXML]: the list is wrapped in the envelope with version 2.0, the
    devices copied in order, marshalled with two-space indentation, and
    the XML declaration put in front. *)
Definition ToXML (xc : XMLCodec) (devs : list Device)
  : result string * list Event :=
  let list := mkDeviceList "2.0" devs in
  match xml_MarshalIndent xc list with
  | Err e => (Err e, [EvMarshalIndent list])
  | Ok output => (Ok (xml_Header +:+ output), [EvMarshalIndent list])
  end.

(** [Truncate].  The slice expression [s[:maxLen-3]] panics when its
    bound is negative or beyond the string. *)
Definition Truncate (s : string) (maxLen : Z) : option string :=
  if len s <=? maxLen then Some s
  else
    match slice_to s (GoInt.sub maxLen 3) with
    | Some head => Some (head +:+ "...")
    | None => None
    end.

End Sadp.

(** *** Package fmt: the verbs the sources use *)

Module Fmt.

Inductive arg :=
| AStr (s : string)
| AInt (n : Z).

(** [type=value], as [fmt] prints an operand inside an error marker. *)
Definition showArg (a : arg) : string :=
  match a with
  | AStr s => "string=" +:+ s
  | AInt n => "int=" +:+ pretty n
  end.

(** One verb applied to one operand: [%s] of a string, [%d] of an [int];
    an operand of the wrong type, or a verb [fmt] does not know, is printed
    as [%!verb(type=value)].  Flags, widths and the other verbs of [fmt] are
    not modelled: the formats of the sources use [%s] and [%d] only. *)
Definition verb (v : ascii) (a : arg) : string :=
  match a with
  | AStr s =>
      if Ascii.eqb v "s" then s
      else "%!" +:+ String v ("(" +:+ showArg a +:+ ")")
  | AInt n =>
      if Ascii.eqb v "d" then pretty n
      else "%!" +:+ String v ("(" +:+ showArg a +:+ ")")
  end.

(** Operands left over when the format ends. *)
Definition extra (args : list arg) : string :=
  match args with
  | [] => EmptyString
  | _ => "%!(EXTRA " +:+ String.concat ", " (map showArg args) +:+ ")"
  end.

(** [fmt.Sprintf(format, args...)]. *)
Fixpoint Sprintf (format : string) (args : list arg) : string :=
  match format with
  | EmptyString => extra args
  | String c rest =>
      if Ascii.eqb c "%" then
        match rest with
        | EmptyString => "%!(NOVERB)" +:+ extra args
        | String v rest' =>
            if Ascii.eqb v "%" then String v (Sprintf rest' args)
            else
              match args with
              | [] => "%!" +:+ String v ("(MISSING)" +:+ Sprintf rest' [])
              | a :: args' => verb v a +:+ Sprintf rest' args'
              end
        end
      else String c (Sprintf rest args)
  end.

(** A text with one hole: the same text around whatever fills the hole. *)
Definition holed (f : string -> string) : Prop :=
  exists pre post, forall u, f u = pre +:+ u +:+ post.

(** [fmt.Errorf(format, args...)] without [%w]: an error with that text. *)
Definition Errorf {A} (format : string) (args : list arg) : result A :=
  Err (Sprintf format args).

End Fmt.

(** *** Package network: the HTTP response *)

Module Http.
Import GoStr Fmt.

Definition CRLF : string := String (ascii_of_N 13) (String (ascii_of_N 10) EmptyString).

(** The separator of head and body. *)
Definition blankLine : string := Eval cbv in (CRLF +:+ CRLF).

Record HTTPResponse := mkHTTPResponse {
  StatusCode : Z;
  Body : string;
  Headers : gmap string string
}.

(** The loop over the lines after the status line: a line with [": "] in
    it sets the header of the name before it, in lower case. *)
Fixpoint headerLoop (lines : list string) (headers : gmap string string)
  : gmap string string :=
  match lines with
  | [] => headers
  | line :: rest =>
      match SplitN line ": " 2 with
      | [name; value] => headerLoop rest (<[ToLower name := value]> headers)
      | _ => headerLoop rest headers
      end
  end.

(** The part of [parseHTTPResponse] after the head and the body are cut
    apart; [None] stands for the panic of an index out of range. *)
Definition parseHead (headerBytes body : string) : option (result HTTPResponse) :=
  let lines := SplitStr headerBytes CRLF in
  if (Z.of_nat (length lines) =? 0) then
    Some (Errorf "invalid HTTP response: no status line" [])
  else
    match lines with
    | [] => None
    | line0 :: rest =>
        let statusParts := SplitN line0 " " 3 in
        if (Z.of_nat (length statusParts) <? 2) then
          Some (Errorf "invalid HTTP status line: %s" [AStr line0])
        else
          match statusParts !! 1%nat with
          | None => None
          | Some code =>
              match Atoi code with
              | None => Some (Errorf "invalid status code: %s" [AStr code])
              | Some statusCode =>
                  Some (Ok (mkHTTPResponse statusCode body (headerLoop rest ∅)))
              end
          end
    end.

(** [parseHTTPResponse]; [None] stands for a panic, here of a slice out
    of range. *)
Definition parseHTTPResponse (data : string) : option (result HTTPResponse) :=
  let headerEnd := Index data blankLine in
  if headerEnd =? -1 then
    Some (Errorf "invalid HTTP response: no header separator found" [])
  else
    match slice data 0 headerEnd, slice_from data (headerEnd + 4) with
    | Some headerBytes, Some body => parseHead headerBytes body
    | _, _ => None
    end.

End Http.

(** *** Package crypto *)

Module Crypto.
Import GoStr Fmt Hex.

(** The errors of the package: the text of each is a fixed heading
    followed by the text of the error it wraps. *)
Inductive CryptoError : Type :=
  | InvalidAESKeyHex (e : HexError)
  | CipherCreation (keySize : Z)
  | InvalidXORKeyHex (e : HexError).

(** Package [crypto/aes], which is not part of the repository:
    [aes.NewCipher] accepts keys of 16, 24 and 32 bytes and fails with a
    [KeySizeError] on any other; the block size is 16; what
    [block.Decrypt] writes for a key and a block is a parameter. *)
Record AES := mkAES {
  aes_Decrypt : list Z -> list Z -> list Z
}.

Definition BlockSize : nat := 16.

Definition aes_NewCipher (key : list Z) : CryptoError + list Z :=
  let k := Z.of_nat (length key) in
  if (k =? 16) || (k =? 24) || (k =? 32) then inr key
  else inl (CipherCreation k).

(** The loop of [DecryptAES] with [i] the offset and [count] the turns
    left; each turn writes one block of [decrypted], which [make] has
    filled with zeros. *)
Fixpoint ecbLoop (c : AES) (key paddedData : list Z) (count i : nat) : list Z :=
  match count with
  | O => []
  | S count' =>
      resize BlockSize 0 (aes_Decrypt c key (take BlockSize (drop i paddedData)))
      ++ ecbLoop c key paddedData count' (i + BlockSize)
  end.

Definition padToBlock (data : list Z) : list Z :=
  if negb (length data mod BlockSize =? 0)%nat then
    let padding := (BlockSize - length data mod BlockSize)%nat in
    data ++ replicate padding 0
  else data.

(** [DecryptAES]. *)
Definition DecryptAES (c : AES) (data : list Z) (keyHex : string)
  : CryptoError + list Z :=
  match DecodeString keyHex with
  | inl e => inl (InvalidAESKeyHex e)
  | inr key =>
      match aes_NewCipher key with
      | inl e => inl e
      | inr block =>
          let paddedData := padToBlock data in
          inr (ecbLoop c block paddedData (length paddedData / BlockSize) 0)
      end
  end.

(** The loop of [DecryptXOR] from index [i] on, over the bytes of [data]
    not yet visited; [None] is the panic of [i % 0]. *)
Fixpoint xorLoop (data key : list Z) (i : nat) : option (list Z) :=
  match data with
  | [] => Some []
  | d :: rest =>
      if (length key =? 0)%nat then None
      else
        match key !! (i mod length key)%nat with
        | None => None
        | Some k =>
            match xorLoop rest key (S i) with
            | None => None
            | Some decoded => Some (Z.lxor d k :: decoded)
            end
        end
  end.

(** [DecryptXOR]. *)
Definition DecryptXOR (data : list Z) (keyHex : string)
  : option (CryptoError + list Z) :=
  match DecodeString keyHex with
  | inl e => Some (inl (InvalidXORKeyHex e))
  | inr key =>
      match xorLoop data key 0 with
      | None => None
      | Some decoded => Some (inr decoded)
      end
  end.

(** Arithmetic of [uint64] and [uint32]. *)
Definition u64 (z : Z) : Z := z mod 2 ^ 64.
Definition u32 (z : Z) : Z := z mod 2 ^ 32.

(** Stage 1 of [GenerateResetCode], over a seed of ASCII bytes, where the
    runes that [range] yields are the bytes and their indices. *)
Fixpoint magicLoop (seed : string) (i : Z) (magic : Z) : Z :=
  match seed with
  | EmptyString => magic
  | String char rest =>
      let pos := u64 (i + 1) in
      let charVal := Z.of_N (byte_val char) in
      magicLoop rest (i + 1) (u64 (magic + Z.lxor (u64 (pos * charVal)) pos))
  end.

Definition multiplier : Z := 1751873395.

(** The map [substitution]. *)
Definition substitution (c : ascii) : option ascii :=
  if Ascii.eqb c "0" then Some "Q"%char
  else if Ascii.eqb c "1" then Some "R"%char
  else if Ascii.eqb c "2" then Some "S"%char
  else if Ascii.eqb c "3" then Some "q"%char
  else if Ascii.eqb c "4" then Some "r"%char
  else if Ascii.eqb c "5" then Some "d"%char
  else if Ascii.eqb c "6" then Some "e"%char
  else if Ascii.eqb c "7" then Some "y"%char
  else if Ascii.eqb c "8" then Some "z"%char
  else None.

Definition substitute (c : ascii) : ascii :=
  match substitution c with Some sub => sub | None => c end.

(** [GenerateResetCode]. *)
Definition GenerateResetCode (serial date : string) : string :=
  let seed := serial +:+ date in
  let magic := magicLoop seed 0 0 in
  let secret := u32 (u64 (magic * multiplier)) in
  let secretStr := Sprintf "%d" [AInt secret] in
  map_bytes substitute secretStr.

(** The letters a reset code is written in. *)
Definition codeLetter (c : ascii) : bool :=
  existsb (Ascii.eqb c)
    ["Q"; "R"; "S"; "q"; "r"; "d"; "e"; "y"; "z"; "9"]%char.

End Crypto.

(** *** Package sadp: CSV output *)

Module SadpCSV.
Import GoStr Fmt Sadp.

Definition csvHeader : string :=
  Eval cbv in
    ("ID,DeviceType,Activated,IPv4Address,Port,HttpPort,SoftwareVersion,IPv4Gateway,SerialNumber,IPv4SubnetMask,MAC,ChannelNum,DSPVersion,BootTime,DHCP"
     +:+ newline).

Definition csvFormat : string :=
  Eval cbv in ("%d,%s,%s,%s,%d,%d,%s,%s,%s,%s,%s,%d,%s,%s,%s" +:+ newline).

(** The body of the loop of [ToCSV] for the device at index [i]: the line
    it writes.  The sum of the two channel counts is an [int] and wraps. *)
Definition csvRow (i : Z) (dev : Device) : string :=
  let channelNum := GoInt.wrap (AnalogChannelNum dev + DigitalChannelNum dev) in
  Sprintf csvFormat
    [ AInt (i + 1);
      AStr (DeviceType dev);
      AStr (Activated dev);
      AStr (IPv4Address dev);
      AInt (CommandPort dev);
      AInt (HttpPort dev);
      AStr (SoftwareVersion dev);
      AStr (IPv4Gateway dev);
      AStr (DeviceSN dev);
      AStr (IPv4SubnetMask dev);
      AStr (MAC dev);
      AInt channelNum;
      AStr (DSPVersion dev);
      AStr (BootTime dev);
      AStr (DHCP dev) ].

(** The loop, from index [i] on; the builder is the text written so
    far. *)
Fixpoint csvLoop (i : Z) (devices : list Device) (sb : string) : string :=
  match devices with
  | [] => sb
  | dev :: rest => csvLoop (i + 1) rest (sb +:+ csvRow i dev)
  end.

(** [ToCSV], of the devices behind the pointers it is given. *)
Definition ToCSV (devices : list Device) : string := csvLoop 0 devices csvHeader.

(** The cells of the heading and of the line of a device, and what makes
    a device fit for a line: no comma and no line feed in the texts
    printed. *)
Definition headerCells : list string :=
  [ "ID"; "DeviceType"; "Activated"; "IPv4Address"; "Port"; "HttpPort";
    "SoftwareVersion"; "IPv4Gateway"; "SerialNumber"; "IPv4SubnetMask"; "MAC";
    "ChannelNum"; "DSPVersion"; "BootTime"; "DHCP" ].

Definition cells (i : Z) (dev : Device) : list string :=
  [ pretty (i + 1); DeviceType dev; Activated dev; IPv4Address dev;
    pretty (CommandPort dev); pretty (HttpPort dev); SoftwareVersion dev;
    IPv4Gateway dev; DeviceSN dev; IPv4SubnetMask dev; MAC dev;
    pretty (GoInt.wrap (AnalogChannelNum dev + DigitalChannelNum dev));
    DSPVersion dev; BootTime dev; DHCP dev ].

Definition plainText (s : string) : bool :=
  lacks "," s && lacks (ascii_of_N 10) s.

Definition printedTexts (dev : Device) : list string :=
  [ DeviceType dev; Activated dev; IPv4Address dev; SoftwareVersion dev;
    IPv4Gateway dev; DeviceSN dev; IPv4SubnetMask dev; MAC dev;
    DSPVersion dev; BootTime dev; DHCP dev ].

Definition plainDevice (dev : Device) : bool := forallb plainText (printedTexts dev).

(** The cells of the lines from index [i] on. *)
Fixpoint rowsFrom (i : Z) (devices : list Device) : list (list string) :=
  match devices with
  | [] => []
  | dev :: rest => cells i dev :: rowsFrom (i + 1) rest
  end.

End SadpCSV.

(** *** Package sadp: the command catalog and the command exchange *)

Module SadpCmd.
Import GoStr Fmt.

(** [Command]: a catalog entry. *)
Record Command := mkCommand {
  Name : string;
  Description : string;
  Template : string;
  NeedsMAC : bool;
  NeedsPass : bool
}.

(** The XML declaration every template starts with. *)
Definition probeDecl : string :=
  Eval cbv in
    ("<?xml version=" +:+ dquote +:+ "1.0" +:+ dquote +:+ " encoding=" +:+ dquote
     +:+ "utf-8" +:+ dquote +:+ "?>").

Definition tpl (body : string) : string := probeDecl +:+ body.

(** The entries of the map literal [Commands]. *)
Definition commandTable : list (string * Command) := Eval cbv in
  [ ("inquiry", mkCommand "inquiry" "Get device information"
       (tpl "<Probe><Uuid>%s</Uuid><Types>inquiry</Types></Probe>") false false);
    ("inquiry_v32", mkCommand "inquiry_v32" "Get device information (v32 format)"
       (tpl "<Probe><Uuid>%s</Uuid><Types>inquiry_v32</Types></Probe>") false false);
    ("exchangecode", mkCommand "exchangecode" "Get exchange code for password reset"
       (tpl "<Probe><Uuid>%s</Uuid><MAC>%s</MAC><Types>exchangecode</Types><Code></Code></Probe>") true false);
    ("getencryptstring", mkCommand "getencryptstring" "Get encryption string"
       (tpl "<Probe><Uuid>%s</Uuid><MAC>%s</MAC><Types>getencryptstring</Types></Probe>") true false);
    ("getencryptstring_v31", mkCommand "getencryptstring_v31" "Get encryption string (v31 format)"
       (tpl "<Probe><Uuid>%s</Uuid><MAC>%s</MAC><Types>getencryptstring_v31</Types></Probe>") true false);
    ("activate", mkCommand "activate" "Activate an inactive device with a new password"
       (tpl "<Probe><Uuid>%s</Uuid><MAC>%s</MAC><Types>activate</Types><Password>%s</Password></Probe>") true true);
    ("update", mkCommand "update" "Update device network parameters"
       (tpl "<Probe><Uuid>%s</Uuid><Types>update</Types><PWErrorParse>true</PWErrorParse><MAC>%s</MAC><Password>%s</Password><IPv4Address>%s</IPv4Address><CommandPort>%d</CommandPort><IPv4SubnetMask>%s</IPv4SubnetMask><IPv4Gateway>%s</IPv4Gateway><DHCP>%s</DHCP></Probe>") true true);
    ("reboot", mkCommand "reboot" "Reboot the device"
       (tpl "<Probe><Uuid>%s</Uuid><MAC>%s</MAC><Types>reboot</Types><Password>%s</Password></Probe>") true true);
    ("restore", mkCommand "restore" "Restore device to factory defaults"
       (tpl "<Probe><Uuid>%s</Uuid><MAC>%s</MAC><Types>restore</Types><Password>%s</Password></Probe>") true true);
    ("setmailbox", mkCommand "setmailbox" "Set recovery email address"
       (tpl "<Probe><Uuid>%s</Uuid><MAC>%s</MAC><Types>SetMailBox</Types><MailBox>%s</MailBox><Password>%s</Password></Probe>") true true);
    ("ezvizunbind", mkCommand "ezvizunbind" "Unbind device from Ezviz cloud"
       (tpl "<Probe><Uuid>%s</Uuid><MAC>%s</MAC><Types>ezvizUnbind</Types><Password>%s</Password></Probe>") true true);
    ("getbindlist", mkCommand "getbindlist" "Get device binding list"
       (tpl "<Probe><Uuid>%s</Uuid><MAC>%s</MAC><Types>getBindList</Types></Probe>") true false);
    ("getqrcodes", mkCommand "getqrcodes" "Get QR codes for device"
       (tpl "<Probe><Uuid>%s</Uuid><MAC>%s</MAC><Types>GetQRcodes</Types></Probe>") true false);
    ("resetpassword", mkCommand "resetpassword" "Reset password using security code"
       (tpl "<Probe><Uuid>%s</Uuid><MAC>%s</MAC><Types>resetPassword</Types><Code>%s</Code><Password>%s</Password></Probe>") true true);
    ("securitycode", mkCommand "securitycode" "Submit security code for password reset"
       (tpl "<Probe><Uuid>%s</Uuid><MAC>%s</MAC><Types>securityCode</Types><SecurityCode>%s</SecurityCode><Password>%s</Password></Probe>") true true)
  ].

(** [SendOptions].  [NewPort] is an [int], [Timeout] a [time.Duration] in
    nanoseconds. *)
Record SendOptions := mkSendOptions {
  TargetIP : string;
  TargetMAC : string;
  Password : string;
  Code : string;
  NewIP : string;
  NewMask : string;
  NewGateway : string;
  NewPort : Z;
  DHCP : bool;
  Email : string;
  Timeout : Z
}.

(** The zero value [SendOptions{}]. *)
Definition noOptions : SendOptions :=
  mkSendOptions "" "" "" "" "" "" "" 0 false "" 0.

(** **** State and effects *)

(** What [SendCommand] does to the outside, in order. *)
Inductive NetEvent :=
| NDebugw (msg : string)
| NDialUDP (ip : string) (port : Z)
| NSetDeadline (d : Z)
| NWrite (data : string)
| NRead (bufSize : Z)
| NClose
| NBroadcast (xmlCmd : string) (targetMAC : string) (d : Z).

(** The process as the command code sees it: the package variable
    [Commands], the scanner the methods are called on, the values
    [uuid.New().String()] returns call after call with the number of calls
    made so far, and the trace of network events. *)
Record World := mkWorld {
  Commands : gmap string Command;
  scanner : Sadp.Scanner;
  uuids : nat -> string;
  uuidCalls : nat;
  trace : list NetEvent
}.

(** The process at start-up, with the catalog of the map literal. *)
Definition initialWorld (s : Sadp.Scanner) (uuids : nat -> string) : World :=
  mkWorld (list_to_map commandTable) s uuids 0 [].

(** Computations over the process state. *)
Definition M (A : Type) : Type := World -> A * World.

Definition ret {A} (a : A) : M A := fun w => (a, w).

Definition bind {A B} (m : M A) (k : A -> M B) : M B :=
  fun w => let (a, w') := m w in k a w'.

Notation "'let*' x ':=' m 'in' k" := (bind m (fun x => k))
  (at level 10, x name, m at level 100, k at level 200).
Notation "'run' m 'then' k" := (bind m (fun _ => k))
  (at level 10, m at level 100, k at level 200).

(** [Commands[cmdName]]. *)
Definition lookupCommand (cmdName : string) : M (option Command) :=
  fun w => (Commands w !! cmdName, w).

(** [uuid.New().String()]. *)
Definition uuid_New : M string :=
  fun w => (uuids w (uuidCalls w),
            mkWorld (Commands w) (scanner w) (uuids w) (S (uuidCalls w)) (trace w)).

Definition emit (e : NetEvent) : M unit :=
  fun w => (tt, mkWorld (Commands w) (scanner w) (uuids w) (uuidCalls w)
                  (trace w ++ [e])).

(** A [case] list of a [switch] over strings. *)
Definition oneOf (x : string) (l : list string) : bool :=
  existsb (String.eqb x) l.

Definition isEmpty (s : string) : bool := String.eqb s EmptyString.

(** The [switch] of [BuildCommandXML], once the command is found and the
    correlation id is drawn. *)
Definition fillTemplate (cmd : Command) (probeUUID cmdName : string)
  (opts : SendOptions) : result string :=
  if oneOf cmdName ["inquiry"; "inquiry_v32"] then
    Ok (Sprintf (Template cmd) [AStr probeUUID])
  else if oneOf cmdName ["exchangecode"; "getencryptstring";
                         "getencryptstring_v31"; "getbindlist"; "getqrcodes"] then
    if isEmpty (TargetMAC opts) then
      Errorf "MAC address required for %s command" [AStr cmdName]
    else Ok (Sprintf (Template cmd) [AStr probeUUID; AStr (TargetMAC opts)])
  else if oneOf cmdName ["activate"; "reboot"; "restore"; "ezvizunbind"] then
    if isEmpty (TargetMAC opts) then
      Errorf "MAC address required for %s command" [AStr cmdName]
    else if isEmpty (Password opts) then
      Errorf "password required for %s command" [AStr cmdName]
    else Ok (Sprintf (Template cmd)
               [AStr probeUUID; AStr (TargetMAC opts); AStr (Password opts)])
  else if oneOf cmdName ["resetpassword"; "securitycode"] then
    if isEmpty (TargetMAC opts) then
      Errorf "MAC address required for %s command" [AStr cmdName]
    else if isEmpty (Code opts) then
      Errorf "security code required for %s command" [AStr cmdName]
    else if isEmpty (Password opts) then
      Errorf "new password required for %s command" [AStr cmdName]
    else Ok (Sprintf (Template cmd)
               [AStr probeUUID; AStr (TargetMAC opts); AStr (Code opts);
                AStr (Password opts)])
  else if oneOf cmdName ["setmailbox"] then
    if isEmpty (TargetMAC opts) || isEmpty (Password opts) || isEmpty (Email opts) then
      Errorf "MAC, password, and email required for setmailbox command" []
    else Ok (Sprintf (Template cmd)
               [AStr probeUUID; AStr (TargetMAC opts); AStr (Email opts);
                AStr (Password opts)])
  else if oneOf cmdName ["update"] then
    if isEmpty (TargetMAC opts) || isEmpty (Password opts) then
      Errorf "MAC and password required for update command" []
    else
      let dhcpStr := if DHCP opts then "true" else "false" in
      let newIP := if isEmpty (NewIP opts) then TargetIP opts else NewIP opts in
      let newMask := if isEmpty (NewMask opts) then "255.255.255.0" else NewMask opts in
      let newPort := if NewPort opts =? 0 then 8000 else NewPort opts in
      Ok (Sprintf (Template cmd)
            [AStr probeUUID; AStr (TargetMAC opts); AStr (Password opts);
             AStr newIP; AInt newPort; AStr newMask; AStr (NewGateway opts);
             AStr dhcpStr])
  else Errorf "command %s not implemented" [AStr cmdName].

(** [BuildCommandXML]. *)
Definition BuildCommandXML (cmdName : string) (opts : SendOptions)
  : M (result string) :=
  let* found := lookupCommand cmdName in
  match found with
  | None => ret (Errorf "unknown command: %s" [AStr cmdName])
  | Some cmd =>
      let* probeUUID := uuid_New in
      ret (fillTemplate cmd probeUUID cmdName opts)
  end.

(** **** The command exchange *)

(** What the network answers.  [dialError ip]: the error of [net.DialUDP],
    if any.  [writeError data]: the error of [conn.Write], if any.
    [reply ip data]: what comes back from [ip] after [data] was written.
    [interfacesError]: the error of [net.Interfaces()], if any.
    [heard xmlCmd d]: the datagrams the per-interface sockets read, in the
    order they are read, after [xmlCmd] went out with read deadline [d]. *)
Inductive Reply :=
| ReplyAfter (delay : Z) (data : string)
| ReplyNever
| ReadFails (e : string).

Record NetEnv := mkNetEnv {
  dialError : string -> option string;
  writeError : string -> option string;
  reply : string -> string -> Reply;
  interfacesError : option string;
  heard : string -> Z -> list string
}.

(** [conn.Read(buf)] under the deadline [d]: the datagram cut to the
    buffer, a timeout, or another error. *)
Inductive ReadOutcome :=
| ReadOk (data : string)
| ReadTimeout
| ReadError (e : string).

Definition conn_Read (r : Reply) (d : Z) (bufSize : Z) : ReadOutcome :=
  match r with
  | ReplyAfter delay data =>
      if delay <? d then ReadOk (String.substring 0 (Z.to_nat bufSize) data)
      else ReadTimeout
  | ReplyNever => ReadTimeout
  | ReadFails e => ReadError e
  end.

(** [timeout := opts.Timeout; if timeout == 0 { timeout = 5 * time.Second }]. *)
Definition effectiveTimeout (opts : SendOptions) : Z :=
  if Timeout opts =? 0 then 5 * Sadp.Second else Timeout opts.

(** The filter of the broadcast path: the response, in upper case, holds
    the target MAC in colon or in dash form. *)
Definition mentionsMAC (targetMAC response : string) : bool :=
  Contains (ToUpper response) targetMAC
  || Contains (ToUpper response) (ReplaceAll targetMAC ":" "-").

(** [sendCommandBroadcastWithMAC]: the first response that passes the
    filter, whichever socket read it. *)
Definition sendCommandBroadcastWithMAC (env : NetEnv) (xmlCmd : string)
  (opts : SendOptions) : M (result string) :=
  run emit (NDebugw "Sending command via broadcast") then
  run emit (NDebugw "XML command") then
  let targetMAC := ToUpper (ReplaceAll (TargetMAC opts) "-" ":") in
  match interfacesError env with
  | Some e => ret (Err ("failed to get network interfaces: " +:+ e))
  | None =>
      let timeout := effectiveTimeout opts in
      run emit (NBroadcast xmlCmd targetMAC timeout) then
      match List.find (mentionsMAC targetMAC) (heard env xmlCmd timeout) with
      | Some response => ret (Ok response)
      | None =>
          ret (Errorf "no response from device with MAC %s (timeout)"
                 [AStr (TargetMAC opts)])
      end
  end.

(** [SendCommand]. *)
Definition SendCommand (env : NetEnv) (cmdName : string) (opts : SendOptions)
  : M (result string) :=
  let* built := BuildCommandXML cmdName opts in
  match built with
  | Err e => ret (Err e)
  | Ok xmlCmd =>
      if String.eqb (TargetIP opts) "0.0.0.0" || isEmpty (TargetIP opts) then
        if isEmpty (TargetMAC opts) then
          ret (Errorf "MAC address required when target IP is 0.0.0.0" [])
        else sendCommandBroadcastWithMAC env xmlCmd opts
      else
        run emit (NDebugw "Sending command") then
        run emit (NDebugw "XML command") then
        run emit (NDialUDP (TargetIP opts) Sadp.Port) then
        match dialError env (TargetIP opts) with
        | Some e => ret (Err ("failed to connect: " +:+ e))
        | None =>
            let timeout := effectiveTimeout opts in
            run emit (NSetDeadline timeout) then
            run emit (NWrite xmlCmd) then
            match writeError env xmlCmd with
            | Some e =>
                run emit NClose then
                ret (Err ("failed to send command: " +:+ e))
            | None =>
                run emit (NRead Sadp.MaxPacketSize) then
                let outcome :=
                  conn_Read (reply env (TargetIP opts) xmlCmd) timeout
                    Sadp.MaxPacketSize in
                run emit NClose then
                match outcome with
                | ReadOk data => ret (Ok data)
                | ReadTimeout => ret (Errorf "no response (timeout)" [])
                | ReadError e => ret (Err ("failed to read response: " +:+ e))
                end
            end
        end
  end.

(** **** The field requirements, as the specification lists them *)

(** The fields a command can require. *)
Inductive Field := FMAC | FCode | FPassword | FEmail.

Definition fieldValue (opts : SendOptions) (f : Field) : string :=
  match f with
  | FMAC => TargetMAC opts
  | FCode => Code opts
  | FPassword => Password opts
  | FEmail => Email opts
  end.

(** The word an error message uses for a field. *)
Definition fieldWord (f : Field) : string :=
  match f with
  | FMAC => "MAC"
  | FCode => "code"
  | FPassword => "password"
  | FEmail => "email"
  end.

(** The table of section 4.2: nothing beyond the correlation id for the
    inquiries; the MAC only; MAC and password; MAC, code and password;
    MAC, password and email; MAC and password with the network settings. *)
Definition requiredFields (cmdName : string) : list Field :=
  if oneOf cmdName ["inquiry"; "inquiry_v32"] then []
  else if oneOf cmdName ["exchangecode"; "getencryptstring";
                         "getencryptstring_v31"; "getbindlist"; "getqrcodes"]
  then [FMAC]
  else if oneOf cmdName ["activate"; "reboot"; "restore"; "ezvizunbind"]
  then [FMAC; FPassword]
  else if oneOf cmdName ["resetpassword"; "securitycode"]
  then [FMAC; FCode; FPassword]
  else if oneOf cmdName ["setmailbox"] then [FMAC; FPassword; FEmail]
  else if oneOf cmdName ["update"] then [FMAC; FPassword]
  else [].

(** The catalog is the one of the map literal. *)
Definition catalogIntact (w : World) : Prop :=
  Commands w = list_to_map commandTable.

(** The state after one call of [uuid.New()]. *)
Definition afterUUID (w : World) : World :=
  mkWorld (Commands w) (scanner w) (uuids w) (S (uuidCalls w)) (trace w).

(** The correlation id the next call of [uuid.New()] returns. *)
Definition nextUUID (w : World) : string := uuids w (uuidCalls w).

Definition Field_eqb (f g : Field) : bool :=
  match f, g with
  | FMAC, FMAC | FCode, FCode | FPassword, FPassword | FEmail, FEmail => true
  | _, _ => false
  end.

(** [cmdName] requires the field [f]. *)
Definition requires (cmdName : string) (f : Field) : bool :=
  existsb (Field_eqb f) (requiredFields cmdName).

(** Every field [cmdName] requires has a value in [opts]. *)
Definition allPresent (opts : SendOptions) (cmdName : string) : bool :=
  forallb (fun f => negb (isEmpty (fieldValue opts f))) (requiredFields cmdName).

(** [opts] with the target MAC and the password set. *)
Definition withMAC (opts : SendOptions) (mac : string) : SendOptions :=
  mkSendOptions (TargetIP opts) mac (Password opts) (Code opts) (NewIP opts)
    (NewMask opts) (NewGateway opts) (NewPort opts) (DHCP opts) (Email opts)
    (Timeout opts).

Definition withPassword (opts : SendOptions) (pw : string) : SendOptions :=
  mkSendOptions (TargetIP opts) (TargetMAC opts) pw (Code opts) (NewIP opts)
    (NewMask opts) (NewGateway opts) (NewPort opts) (DHCP opts) (Email opts)
    (Timeout opts).

(** **** The settings of [update], as the specification words them *)

(** The new IP defaults to the target IP. *)
Definition defaultedIP (opts : SendOptions) : string :=
  if isEmpty (NewIP opts) then TargetIP opts else NewIP opts.

(** The new mask defaults to 255.255.255.0. *)
Definition defaultedMask (opts : SendOptions) : string :=
  if isEmpty (NewMask opts) then "255.255.255.0" else NewMask opts.

(** The new port defaults to 8000; an [int] that was not set is zero. *)
Definition defaultedPort (opts : SendOptions) : Z :=
  if NewPort opts =? 0 then 8000 else NewPort opts.

(** DHCP defaults to disabled. *)
Definition dhcpText (opts : SendOptions) : string :=
  if DHCP opts then "true" else "false".

(** The wire format of [update]. *)
Definition updateXML (uuid mac password ip : string) (port : Z)
  (mask gateway dhcp : string) : string :=
  probeDecl +:+ "<Probe><Uuid>" +:+ uuid
  +:+ "</Uuid><Types>update</Types><PWErrorParse>true</PWErrorParse><MAC>" +:+ mac
  +:+ "</MAC><Password>" +:+ password
  +:+ "</Password><IPv4Address>" +:+ ip
  +:+ "</IPv4Address><CommandPort>" +:+ pretty port
  +:+ "</CommandPort><IPv4SubnetMask>" +:+ mask
  +:+ "</IPv4SubnetMask><IPv4Gateway>" +:+ gateway
  +:+ "</IPv4Gateway><DHCP>" +:+ dhcp +:+ "</DHCP></Probe>".

(** The options of the specification's example for [update]. *)
Definition updateExample (mac password : string) : SendOptions :=
  mkSendOptions "192.168.1.100" mac password "" "" "" "" 0 false "" 0.

(** **** [BuildCommandXML] with the correlation id as an input *)

(** What [BuildCommandXML] returns, as a function of the catalog, the
    correlation id, the command name and the options. *)
Definition buildWith (catalog : gmap string Command) (probeUUID cmdName : string)
  (opts : SendOptions) : result string :=
  match catalog !! cmdName with
  | None => Errorf "unknown command: %s" [AStr cmdName]
  | Some cmd => fillTemplate cmd probeUUID cmdName opts
  end.

(** The target is the unspecified address. *)
Definition anyAddress (opts : SendOptions) : bool :=
  String.eqb (TargetIP opts) "0.0.0.0" || isEmpty (TargetIP opts).

(** The events of one unicast exchange that reaches the read. *)
Definition unicastEvents (opts : SendOptions) (xmlCmd : string) : list NetEvent :=
  [ NDebugw "Sending command"; NDebugw "XML command";
    NDialUDP (TargetIP opts) Sadp.Port;
    NSetDeadline (effectiveTimeout opts);
    NWrite xmlCmd; NRead Sadp.MaxPacketSize; NClose ].

(** The error text of a read that ran into the deadline. *)
Definition timeoutText : string := "no response (timeout)".

(** [e] is the text of one of the other errors of the unicast path. *)
Definition ioErrorText (e : string) : Prop :=
  exists cause,
    e = "failed to connect: " +:+ cause
    \/ e = "failed to send command: " +:+ cause
    \/ e = "failed to read response: " +:+ cause.

(** **** ListCommands *)

(** The [order] of [ListCommands]. *)
Definition listOrder : list string :=
  [ "inquiry"; "inquiry_v32"; "exchangecode"; "getencryptstring";
    "getencryptstring_v31"; "getqrcodes"; "getbindlist";
    "resetpassword"; "securitycode";
    "activate"; "update"; "reboot"; "restore"; "setmailbox"; "ezvizunbind" ].

(** The loop: the entry of each name that the catalog has is appended. *)
Fixpoint listLoop (order : list string) (cmds : gmap string Command)
  (result : list Command) : list Command :=
  match order with
  | [] => result
  | name :: rest =>
      match cmds !! name with
      | Some cmd => listLoop rest cmds (result ++ [cmd])
      | None => listLoop rest cmds result
      end
  end.

(** [ListCommands], which reads the catalog. *)
Definition ListCommands : M (list Command) :=
  fun w => (listLoop listOrder (Commands w) [], w).

(** **** The directed broadcast address *)

(** The address of the third write of the broadcast path, the loop
    [subnetBcast[i] = localIP[i] | ^ipNet.Mask[i]] over the four indices of
    a slice that [make] filled with zeros; the operands are bytes, and
    [None] is the panic of an index out of range. *)
Fixpoint subnetBcastLoop (localIP mask : list Z) (i count : nat)
  (subnetBcast : list Z) : option (list Z) :=
  match count with
  | O => Some subnetBcast
  | S count' =>
      match localIP !! i, mask !! i with
      | Some a, Some m =>
          subnetBcastLoop localIP mask (S i) count'
            (<[i := Z.lor a (Network.byte (Z.lnot m))]> subnetBcast)
      | _, _ => None
      end
  end.

Definition subnetBcast (localIP mask : list Z) : option (list Z) :=
  subnetBcastLoop localIP mask 0 4 [0; 0; 0; 0].

End SadpCmd.

(** *** Package cli *)

Module Cli.
Import GoStr.

(** [strings.TrimLeft(s, "-")]. *)
Fixpoint trimLeftDash (s : string) : string :=
  match s with
  | EmptyString => EmptyString
  | String c s' => if Ascii.eqb c "-" then trimLeftDash s' else s
  end.

(** The loop of [reorderArgsForFlags] over the arguments from index [i]
    on: a word that starts with a dash goes to [flags], and takes the next
    word with it unless it holds [=], the next word starts with a dash, or
    its name is one of the three switches. *)
Fixpoint reorderLoop (args flags positional : list string)
  : list string * list string :=
  match args with
  | [] => (flags, positional)
  | arg :: rest =>
      if HasPrefix arg "-" then
        let flags := flags ++ [arg] in
        match rest with
        | next :: rest' =>
            if negb (Contains arg "=") && negb (HasPrefix next "-") then
              let flagName := trimLeftDash arg in
              if negb (String.eqb flagName "debug") && negb (String.eqb flagName "dhcp")
                 && negb (String.eqb flagName "list")
              then reorderLoop rest' (flags ++ [next]) positional
              else reorderLoop rest flags positional
            else reorderLoop rest flags positional
        | [] => reorderLoop rest flags positional
        end
      else reorderLoop rest flags (positional ++ [arg])
  end.

(** [reorderArgsForFlags]. *)
Definition reorderArgsForFlags (args : list string) : list string :=
  let (flags, positional) := reorderLoop args [] [] in
  flags ++ positional.

(** A word is a flag when it starts with a dash. *)
Definition isFlag (arg : string) : bool := HasPrefix arg "-".

(** In a list of words every word that is no flag stands right behind a
    flag: [afterFlag] tells whether the word before was one. *)
Fixpoint valuesFollowFlags (afterFlag : bool) (words : list string) : bool :=
  match words with
  | [] => true
  | w :: rest =>
      if isFlag w then valuesFollowFlags true rest
      else afterFlag && valuesFollowFlags false rest
  end.

End Cli.

(** *** Fixtures: concrete inputs the examples are run on *)

Module Fixtures.
Import GoStr Sadp.

(** A stand-in for [encoding/xml] that knows two documents. *)
Definition camera : Device := set_MAC zeroDevice "aa-bb-cc-dd-ee-ff".

Definition toyCodec : XMLCodec :=
  mkXMLCodec
    (fun data =>
       if Contains data "<MAC>aa-bb-cc-dd-ee-ff</MAC>" then Ok camera
       else if Contains data "<MAC>AA:BB:CC:DD:EE:FF</MAC>" then
              Ok (set_MAC zeroDevice "AA:BB:CC:DD:EE:FF")
       else Err "XML syntax error")
    (fun _ => Err "unsupported").

Definition responseA : Datagram :=
  mkDatagram "<ProbeMatch><MAC>aa-bb-cc-dd-ee-ff</MAC></ProbeMatch>" 100.
Definition responseB : Datagram :=
  mkDatagram "<ProbeMatch><MAC>AA:BB:CC:DD:EE:FF</MAC></ProbeMatch>" 200.

(** Two adapters that are up, one loopback; each adapter hears the same
    device. *)
Definition twoAdapters : list Interface :=
  [ mkInterface "lo" true true (Some [IPNet4 "127.0.0.1" (mkSocket true [responseA])]);
    mkInterface "eth0" true false (Some [IPNet4 "192.168.1.2" (mkSocket true [responseA]); IPNet6]);
    mkInterface "eth1" true false (Some [NotIPNet; IPNet4 "10.0.0.2" (mkSocket true [responseB])]) ].

Definition readsAthenB : list (string * Datagram) :=
  [("192.168.1.2", responseA); ("10.0.0.2", responseB)].

(** A process with the catalog of the map literal and a counter as the
    source of correlation ids. *)
Definition demoWorld : SadpCmd.World :=
  SadpCmd.initialWorld (NewScanner (5 * Second)) (fun n => "uuid-" +:+ pretty n).

Definition customUpdate : SadpCmd.SendOptions :=
  SadpCmd.mkSendOptions "" "AA:BB:CC:DD:EE:FF" "admin" "" "10.0.0.100" "255.255.0.0"
    "10.0.0.1" 9000 true "" 0.

(** A network on which nothing answers, and one on which the device at
    192.168.1.64 answers after one second. *)
Definition quietNet : SadpCmd.NetEnv :=
  SadpCmd.mkNetEnv (fun _ => None) (fun _ => None) (fun _ _ => SadpCmd.ReplyNever)
    None (fun _ _ => []).

Definition promptNet : SadpCmd.NetEnv :=
  SadpCmd.mkNetEnv (fun _ => None) (fun _ => None)
    (fun _ _ => SadpCmd.ReplyAfter Second "<ProbeMatch></ProbeMatch>")
    None (fun _ _ => []).

Definition toCamera : SadpCmd.SendOptions :=
  SadpCmd.mkSendOptions "192.168.1.64" "" "" "" "" "" "" 0 false "" 0.

(** The XML of an [inquiry] built in [demoWorld]. *)
Definition inquiryXML : string :=
  Eval vm_compute in
    match (SadpCmd.BuildCommandXML "inquiry" toCamera demoWorld).1 with
    | Ok xml => xml
    | Err _ => EmptyString
    end.

(** A stand-in for [net.ParseCIDR] and [net.ParseIP] on dotted decimal
    IPv4 text. *)
Definition digitValue (c : ascii) : option Z :=
  let n := Z.of_N (byte_val c) in
  if (48 <=? n) && (n <=? 57) then Some (n - 48) else None.

Fixpoint parseDecimal (s : string) (acc : Z) : option Z :=
  match s with
  | EmptyString => Some acc
  | String c s' =>
      match digitValue c with
      | Some d => parseDecimal s' (10 * acc + d)
      | None => None
      end
  end.

Definition parseNumber (s : string) : option Z :=
  match s with
  | EmptyString => None
  | _ => parseDecimal s 0
  end.

Definition parseIPv4 (s : string) : option (list Z) :=
  match Split s "." with
  | [a; b; c; d] =>
      match parseNumber a, parseNumber b, parseNumber c, parseNumber d with
      | Some x, Some y, Some z, Some t =>
          if forallb (fun v => v <? 256) [x; y; z; t] then Some [x; y; z; t] else None
      | _, _, _, _ => None
      end
  | _ => None
  end.

Definition toyParser : Network.NetParser :=
  Network.mkNetParser
    (fun s =>
       match Split s "/" with
       | [addr; n] =>
           match parseIPv4 addr, parseNumber n with
           | Some ip, Some ones =>
               if ones <=? 32 then Ok (ip, ones)
               else Err ("invalid CIDR address: " +:+ s)
           | _, _ => Err ("invalid CIDR address: " +:+ s)
           end
       | _ => Err ("invalid CIDR address: " +:+ s)
       end)
    parseIPv4.

(** The IPv6 address 2001:db8::a00, and a parser that also reads the two
    prefixes of it that the examples expand. *)
Definition docAddress6 : list Z :=
  [32; 1; 13; 184; 0; 0; 0; 0; 0; 0; 0; 0; 0; 0; 10; 0].

Definition sixParser : Network.NetParser :=
  Network.mkNetParser
    (fun s =>
       if String.eqb s "2001:db8::a00/120" then Ok (docAddress6, 120)
       else if String.eqb s "2001:db8::a00/126" then Ok (docAddress6, 126)
       else Network.ParseCIDR toyParser s)
    (Network.ParseIP toyParser).

(** An ARP table as Linux prints it: a heading, then two lines for one
    address. *)
Definition arpLines : list string :=
  [ "Address      HWtype  HWaddress           Flags Mask  Iface";
    "192.168.1.64 ether   44:19:B6:00:00:01   C           eth0";
    "192.168.1.64 ether   44:19:b6:00:00:02   C           eth1" ].

Definition linuxHost : Network.ArpEnv :=
  Network.mkArpEnv "linux" (fun _ => Ok arpLines).

(** A block cipher for examples: it turns the block round. *)
Definition toyAES : Crypto.AES := Crypto.mkAES (fun _ block => rev block).

Definition oneBlock : list Z := [1; 2; 3; 4; 5; 6; 7; 8; 9; 10; 11; 12; 13; 14; 15; 16].

Definition aesKey : string := "279977f62f6cfd2d91cd75b889ce0c9a".

(** A network on which two devices answer a broadcast, and options that
    name the second one by its MAC, in lower case with dashes. *)
Definition busyNet : SadpCmd.NetEnv :=
  SadpCmd.mkNetEnv (fun _ => None) (fun _ => None) (fun _ _ => SadpCmd.ReplyNever)
    None
    (fun _ _ => [ "<ProbeMatch><MAC>11-22-33-44-55-66</MAC></ProbeMatch>";
                  "<ProbeMatch><MAC>aa-bb-cc-dd-ee-ff</MAC></ProbeMatch>" ]).

Definition byMAC : SadpCmd.SendOptions :=
  SadpCmd.mkSendOptions EmptyString "aa-bb-cc-dd-ee-ff" EmptyString EmptyString
    EmptyString EmptyString EmptyString 0 false EmptyString 0.

(** A response of a device. *)
Definition okResponse : string :=
  Eval vm_compute in
    ("HTTP/1.1 200 OK" +:+ Http.CRLF +:+ "Content-Type: text/plain" +:+ Http.blankLine
     +:+ "hello").

(** The device as the first adapter stored it. *)
Definition firstSeen : Device :=
  stamp (set_MAC zeroDevice "AA:BB:CC:DD:EE:FF") "192.168.1.2" 100.

(** Options whose password holds markup, and the [activate] built from
    them in [demoWorld]. *)
Definition markupPassword : SadpCmd.SendOptions :=
  SadpCmd.mkSendOptions EmptyString "AA:BB:CC:DD:EE:FF" "pw</Password><Extra>1</Extra>"
    EmptyString EmptyString EmptyString EmptyString 0 false EmptyString 0.

Definition markupXML : string :=
  Eval vm_compute in
    match (SadpCmd.BuildCommandXML "activate" markupPassword demoWorld).1 with
    | Ok xml => xml
    | Err _ => EmptyString
    end.

End Fixtures.

(** ** Part II: properties *)

Module GoStrFacts.
Import GoStr.

Lemma append_cons c s t : String c s +:+ t = String c (s +:+ t).
Proof. reflexivity. Qed.

Lemma append_empty_l s : EmptyString +:+ s = s.
Proof. reflexivity. Qed.

Lemma append_empty_r s : s +:+ EmptyString = s.
Proof.
  induction s as [|c s IH]; [reflexivity|]. now rewrite append_cons, IH.
Qed.

Lemma append_assoc s t u : (s +:+ t) +:+ u = s +:+ t +:+ u.
Proof.
  induction s as [|c s IH]; [reflexivity|]. now rewrite !append_cons, IH.
Qed.

Lemma length_map_bytes f s : String.length (map_bytes f s) = String.length s.
Proof. induction s as [|c s IH]; simpl; congruence. Qed.

Lemma Split_nonempty s sep : Split s sep <> [].
Proof.
  destruct s as [|c s]; simpl; [discriminate|].
  destruct (Ascii.eqb c sep); [discriminate|].
  destruct (Split s sep); discriminate.
Qed.

Lemma prefix_append s t : String.prefix s (s +:+ t) = true.
Proof.
  induction s as [|c s IH]; [destruct t; reflexivity|].
  rewrite append_cons. simpl. destruct (ascii_dec c c); [exact IH | congruence].
Qed.

Lemma Contains_unfold s sub :
  Contains s sub =
    if String.prefix sub s then true
    else match s with
         | EmptyString => false
         | String _ s' => Contains s' sub
         end.
Proof. destruct s; reflexivity. Qed.

Lemma Contains_here s t : Contains (s +:+ t) s = true.
Proof. rewrite Contains_unfold, prefix_append. reflexivity. Qed.

Lemma Contains_skip c s sub : Contains s sub = true -> Contains (String c s) sub = true.
Proof.
  intros H. rewrite Contains_unfold.
  destruct (String.prefix sub (String c s)); [reflexivity | exact H].
Qed.

(** A string contains each of its segments. *)
Lemma Contains_middle pre sub post : Contains (pre +:+ sub +:+ post) sub = true.
Proof.
  induction pre as [|c pre IH]; [rewrite append_empty_l; apply Contains_here|].
  rewrite append_cons. now apply Contains_skip.
Qed.

End GoStrFacts.

(** *** IsHikvisionMAC *)

Module NetworkFacts.
Import GoStr Network.

Lemma existsb_eqb_In (x : string) (l : list string) :
  existsb (fun y => String.eqb x y) l = true <-> In x l.
Proof.
  rewrite existsb_exists. split.
  - intros (y & Hy & Heq). apply String.eqb_eq in Heq. now subst.
  - intros Hin. exists x. split; [assumption | apply String.eqb_refl].
Qed.

Lemma IsHikvisionMAC_unfold mac :
  IsHikvisionMAC mac =
    if Z.of_nat (length (groups mac)) <? 3 then false
    else existsb (fun o => String.eqb (Join (take 3 (groups mac)) ":") o) HikvisionOUIs.
Proof. reflexivity. Qed.

Lemma IsHikvisionMAC_short mac :
  (length (groups mac) < 3)%nat -> IsHikvisionMAC mac = false.
Proof.
  intros H. rewrite IsHikvisionMAC_unfold.
  destruct (Z.ltb_spec (Z.of_nat (length (groups mac))) 3); [reflexivity | lia].
Qed.

Lemma IsHikvisionMAC_long mac :
  (3 <= length (groups mac))%nat ->
  IsHikvisionMAC mac = true <-> In (Join (take 3 (groups mac)) ":") HikvisionOUIs.
Proof.
  intros H. rewrite IsHikvisionMAC_unfold.
  destruct (Z.ltb_spec (Z.of_nat (length (groups mac))) 3); [lia|].
  apply existsb_eqb_In.
Qed.

(** Every prefix of the allow-list, on its own, is accepted. *)
Lemma IsHikvisionMAC_bare_prefix oui :
  In oui HikvisionOUIs -> IsHikvisionMAC oui = true.
Proof.
  unfold HikvisionOUIs. simpl.
  intros H. repeat (destruct H as [<- | H]; [reflexivity|]). destruct H.
Qed.

(** C9.  [IsHikvisionMAC] looks only at the first three groups of the
    lower-cased, dash-to-colon normalized input: with at least three
    groups it answers true exactly when those three groups, joined by
    colons, are on the allow-list; with fewer than three groups it answers
    false; a bare prefix such as ["00:0d:c5"], with no further octets, is
    accepted, as is every other prefix of the allow-list. *)
Theorem IsHikvisionMAC_first_three_groups :
  (forall mac,
      let parts := Split (ReplaceAll (ToLower mac) "-" ":") ":" in
      ((3 <= length parts)%nat ->
         (IsHikvisionMAC mac = true <-> In (Join (take 3 parts) ":") HikvisionOUIs))
      /\ ((length parts < 3)%nat -> IsHikvisionMAC mac = false))
  /\ IsHikvisionMAC "00:0d:c5" = true
  /\ (forall oui, In oui HikvisionOUIs -> IsHikvisionMAC oui = true)
  /\ IsHikvisionMAC "00:0D:C5:11:22:33" = true
  /\ IsHikvisionMAC "00-0d-c5-11-22-33" = true
  /\ IsHikvisionMAC "AA:BB:CC:DD:EE:FF" = false
  /\ IsHikvisionMAC "aa:bb" = false.
Proof.
  split; [|repeat split; try reflexivity; apply IsHikvisionMAC_bare_prefix].
  intros mac parts. split.
  - apply IsHikvisionMAC_long.
  - apply IsHikvisionMAC_short.
Qed.

Lemma IsHikvisionMAC_first_three_groups_witness :
  (3 <= length (Split (ReplaceAll (ToLower "00-0D-C5-11-22-33") "-" ":") ":"))%nat
  /\ In (Join (take 3 (Split (ReplaceAll (ToLower "00-0D-C5-11-22-33") "-" ":") ":")) ":")
        HikvisionOUIs
  /\ IsHikvisionMAC "00-0D-C5-11-22-33" = true.
Proof.
  assert (Hlen : (3 <= length (Split (ReplaceAll (ToLower "00-0D-C5-11-22-33") "-" ":")
                                 ":"))%nat) by (vm_compute; lia).
  assert (Hin : In (Join (take 3 (Split (ReplaceAll (ToLower "00-0D-C5-11-22-33") "-" ":")
                                    ":")) ":") HikvisionOUIs)
    by (vm_compute; left; reflexivity).
  split; [exact Hlen|]. split; [exact Hin|].
  destruct IsHikvisionMAC_first_three_groups as (H & _).
  destruct (H "00-0D-C5-11-22-33") as (Hiff & _).
  exact (proj2 (Hiff Hlen) Hin).
Defined.

End NetworkFacts.

(** *** Truncate *)

Module TruncateFacts.
Import GoStr Sadp.

Lemma wrap_id z : GoInt.in_range z -> GoInt.wrap z = z.
Proof.
  unfold GoInt.in_range, GoInt.min_int, GoInt.max_int, GoInt.wrap. intros H.
  rewrite Z.mod_small; lia.
Qed.

Lemma length_substring_0 n s :
  (n <= String.length s)%nat -> String.length (String.substring 0 n s) = n.
Proof.
  revert n; induction s as [|c s IH]; intros [|n] H; simpl in *; try lia.
  rewrite IH; lia.
Qed.

Lemma length_append s t :
  String.length (s +:+ t) = (String.length s + String.length t)%nat.
Proof. induction s as [|c s IH]; simpl; [reflexivity | now rewrite IH]. Qed.

Lemma Truncate_fits s maxLen : len s <= maxLen -> Truncate s maxLen = Some s.
Proof.
  intros H. unfold Truncate.
  destruct (Z.leb_spec (len s) maxLen); [reflexivity | lia].
Qed.

Lemma Truncate_cut s maxLen :
  GoInt.in_range maxLen -> 3 <= maxLen -> maxLen < len s ->
  Truncate s maxLen =
    Some (String.substring 0 (Z.to_nat (maxLen - 3)) s +:+ "...").
Proof.
  intros Hin H3 Hlt. unfold Truncate, slice_to, GoInt.sub.
  destruct (Z.leb_spec (len s) maxLen); [lia|].
  assert (Hr : GoInt.in_range (maxLen - 3)).
  { unfold GoInt.in_range, GoInt.min_int, GoInt.max_int in *. lia. }
  rewrite (wrap_id _ Hr).
  destruct (Z.leb_spec 0 (maxLen - 3)); [|lia].
  destruct (Z.leb_spec (maxLen - 3) (len s)); [|lia].
  reflexivity.
Qed.

Lemma Truncate_cut_length s maxLen r :
  GoInt.in_range maxLen -> 3 <= maxLen -> maxLen < len s ->
  Truncate s maxLen = Some r -> len r = maxLen.
Proof.
  intros Hin H3 Hlt. rewrite Truncate_cut by assumption.
  intros [= <-]. unfold len in *. rewrite length_append, length_substring_0 by lia.
  simpl. lia.
Qed.

(** Below three the slice bound [maxLen-3] is negative and the call panics. *)
Lemma Truncate_panics s maxLen :
  GoInt.min_int + 3 <= maxLen -> maxLen < 3 -> maxLen < len s ->
  Truncate s maxLen = None.
Proof.
  intros Hin H3 Hlt. unfold Truncate, slice_to, GoInt.sub.
  destruct (Z.leb_spec (len s) maxLen); [lia|].
  rewrite wrap_id.
  - destruct (Z.leb_spec 0 (maxLen - 3)); [lia | reflexivity].
  - unfold GoInt.in_range, GoInt.min_int, GoInt.max_int in *. lia.
Qed.

Lemma substring_0_0 s : String.substring 0 0 s = "".
Proof. destruct s; reflexivity. Qed.

(** C3, as the code has it.  For every string [s] and every [int]
    [maxLen]: [Truncate] returns [s] unchanged when [len(s) <= maxLen];
    otherwise, when [maxLen >= 3], it returns the first [maxLen-3] bytes of
    [s] followed by three periods, a string of exactly [maxLen] bytes, which
    for [maxLen = 3] is the three periods alone.  In particular
    [Truncate("abcd", 3) = "..."], [Truncate("abc", 3) = "abc"] and
    [Truncate("exactly10!", 10) = "exactly10!"]. *)
Theorem Truncate_boundary (s : string) (maxLen : Z) :
  GoInt.in_range maxLen ->
  (len s <= maxLen -> Truncate s maxLen = Some s)
  /\ (maxLen < len s -> 3 <= maxLen ->
        Truncate s maxLen =
          Some (String.substring 0 (Z.to_nat (maxLen - 3)) s +:+ "...")
        /\ (forall r, Truncate s maxLen = Some r -> len r = maxLen)
        /\ (maxLen = 3 -> Truncate s maxLen = Some "..."))
  /\ Truncate "abcd" 3 = Some "..."
  /\ Truncate "abc" 3 = Some "abc"
  /\ Truncate "exactly10!" 10 = Some "exactly10!".
Proof.
  intros Hin. split; [apply Truncate_fits|].
  split; [|repeat split; reflexivity].
  intros Hlt H3. split; [now apply Truncate_cut|]. split.
  - intros r. now apply Truncate_cut_length.
  - intros ->. rewrite Truncate_cut by (assumption || lia).
    simpl. now rewrite substring_0_0.
Qed.

Lemma Truncate_boundary_witness :
  GoInt.in_range 10
  /\ Truncate "this is a very long string" 10 = Some "this is...".
Proof.
  assert (Hin : GoInt.in_range 10) by (unfold GoInt.in_range; vm_compute; split; discriminate).
  split; [exact Hin|].
  destruct (Truncate_boundary "this is a very long string" 10 Hin) as (_ & Hcut & _).
  destruct Hcut as (Heq & _); [vm_compute; reflexivity | lia | exact Heq].
Defined.

(** C3 as stated does not hold: for [maxLen = 2] and a longer string the
    result is not two periods, the call panics on the slice bound. *)
Lemma Truncate_two_periods_fails :
  len "abc" > 2
  /\ Truncate "abc" 2 = None
  /\ Truncate "abc" 2 <> Some (repeat_byte "." 2).
Proof. repeat split; discriminate. Qed.

End TruncateFacts.

(** *** The discovery registry *)

Module RegistryFacts.
Import GoStr Sadp.

Lemma MAC_stamp d ip now : MAC (stamp d ip now) = MAC d.
Proof. reflexivity. Qed.

Lemma insertIfAbsent_keeps dev (devs : gmap string Device) k d :
  devs !! k = Some d -> insertIfAbsent dev devs !! k = Some d.
Proof.
  intros Hk. unfold insertIfAbsent.
  destruct (devs !! MAC dev) eqn:Hm; [exact Hk|].
  rewrite lookup_insert_ne; [exact Hk | congruence].
Qed.

Lemma insertIfAbsent_fresh dev (devs : gmap string Device) :
  devs !! MAC dev = None -> insertIfAbsent dev devs !! MAC dev = Some dev.
Proof.
  intros Hm. unfold insertIfAbsent. rewrite Hm. apply lookup_insert_eq.
Qed.

Lemma insertIfAbsent_dom dev (devs : gmap string Device) :
  dom (insertIfAbsent dev devs) = {[MAC dev]} ∪ dom devs.
Proof.
  unfold insertIfAbsent. destruct (devs !! MAC dev) eqn:Hm.
  - assert (MAC dev ∈ dom devs) by (apply elem_of_dom; eauto). set_solver.
  - apply dom_insert_L.
Qed.

Lemma insertIfAbsent_keyed dev (devs : gmap string Device) :
  keyedByMAC devs -> keyedByMAC (insertIfAbsent dev devs).
Proof.
  intros Hk k d. unfold insertIfAbsent.
  destruct (devs !! MAC dev) eqn:Hm; [apply Hk|].
  destruct (decide (MAC dev = k)) as [<-|Hne].
  - rewrite lookup_insert_eq. now intros [= <-].
  - rewrite lookup_insert_ne by assumption. apply Hk.
Qed.

Lemma receive_keeps xc ip dg (devs : gmap string Device) k d :
  devs !! k = Some d -> receive xc ip dg devs !! k = Some d.
Proof.
  intros Hk. unfold receive.
  destruct (parseResponse xc (payload dg)).1; [now apply insertIfAbsent_keeps | exact Hk].
Qed.

Lemma receive_keyed xc ip dg (devs : gmap string Device) :
  keyedByMAC devs -> keyedByMAC (receive xc ip dg devs).
Proof.
  intros Hk. unfold receive.
  destruct (parseResponse xc (payload dg)).1; [now apply insertIfAbsent_keyed | exact Hk].
Qed.

Lemma runReads_app xc l1 l2 devs :
  runReads xc (l1 ++ l2) devs = runReads xc l2 (runReads xc l1 devs).
Proof. unfold runReads. apply foldl_app. Qed.

Lemma runReads_keeps xc l : forall (devs : gmap string Device) k d,
  devs !! k = Some d -> runReads xc l devs !! k = Some d.
Proof.
  induction l as [|e l IH]; intros devs k d Hk; [exact Hk|].
  simpl. apply IH. now apply receive_keeps.
Qed.

Lemma runReads_keyed xc l : forall devs : gmap string Device,
  keyedByMAC devs -> keyedByMAC (runReads xc l devs).
Proof.
  induction l as [|e l IH]; intros devs Hk; [exact Hk|].
  simpl. apply IH. now apply receive_keyed.
Qed.

Lemma runReads_dom xc l : forall devs : gmap string Device,
  dom (runReads xc l devs) = list_to_set (observedMACs xc l) ∪ dom devs.
Proof.
  induction l as [|[ip dg] l IH]; intros devs; simpl.
  - set_solver.
  - rewrite IH. unfold receive. simpl.
    destruct (parseResponse xc (payload dg)).1 as [dev|]; simpl.
    + rewrite insertIfAbsent_dom, MAC_stamp. set_solver.
    + set_solver.
Qed.

Lemma observedMACs_app xc l1 l2 :
  observedMACs xc (l1 ++ l2) = observedMACs xc l1 ++ observedMACs xc l2.
Proof. unfold observedMACs. apply flat_map_app. Qed.

Lemma observedMACs_perm xc l1 l2 :
  l1 ≡ₚ l2 -> observedMACs xc l1 ≡ₚ observedMACs xc l2.
Proof.
  induction 1; simpl.
  - reflexivity.
  - now apply Permutation_app_head.
  - rewrite !app_assoc. apply Permutation_app_tail, Permutation_app_comm.
  - etransitivity; eassumption.
Qed.

(** Every order of the steps is a rearrangement of the queues' contents. *)
Lemma interleaved_perm {A} (qs : list (list A)) l :
  interleaved qs l -> l ≡ₚ concat qs.
Proof.
  induction 1 as [qs Hall | qs1 x q qs2 l _ IH].
  - induction Hall as [|q qs -> _ IHq]; [reflexivity | exact IHq].
  - rewrite concat_app in *. simpl in *. rewrite IH.
    rewrite Permutation_middle. reflexivity.
Qed.

(** The first device parsed with a MAC that is not a key yet is the one
    the registry holds at the end. *)
Lemma runReads_first_wins xc l1 ip dg l2 dev (devs : gmap string Device) :
  (parseResponse xc (payload dg)).1 = Some dev ->
  MAC dev ∉ dom devs ->
  MAC dev ∉ observedMACs xc l1 ->
  runReads xc (l1 ++ (ip, dg) :: l2) devs !! MAC dev
    = Some (stamp dev ip (readAt dg)).
Proof.
  intros Hp Hdom Hobs. rewrite runReads_app. simpl.
  apply runReads_keeps. unfold receive. simpl. rewrite Hp.
  apply (insertIfAbsent_fresh (stamp dev ip (readAt dg))). simpl.
  apply not_elem_of_dom. rewrite runReads_dom. set_solver.
Qed.

Lemma snapshot_MACs (devs : gmap string Device) :
  keyedByMAC devs -> MAC <$> snapshot devs = (map_to_list devs).*1.
Proof.
  intros Hk. unfold snapshot. rewrite <- list_fmap_compose.
  apply Forall_fmap_ext_1, Forall_forall. intros [k d] Hin. simpl.
  apply Hk. now apply elem_of_map_to_list.
Qed.

Lemma snapshot_NoDup (devs : gmap string Device) :
  keyedByMAC devs -> NoDup (MAC <$> snapshot devs).
Proof. intros Hk. rewrite snapshot_MACs by assumption. apply NoDup_fst_map_to_list. Qed.

Lemma snapshot_elem (devs : gmap string Device) m :
  keyedByMAC devs -> m ∈ (MAC <$> snapshot devs) <-> m ∈ dom devs.
Proof.
  intros Hk. rewrite snapshot_MACs by assumption.
  rewrite elem_of_dom. split.
  - intros ([k d] & -> & Hin)%list_elem_of_fmap. apply elem_of_map_to_list in Hin. eauto.
  - intros [d Hd]. apply list_elem_of_fmap. exists (m, d). split; [reflexivity|].
    now apply elem_of_map_to_list.
Qed.

Lemma snapshot_length (devs : gmap string Device) :
  length (snapshot devs) = size (dom devs).
Proof.
  unfold snapshot. rewrite length_fmap, size_dom. apply length_map_to_list.
Qed.

(** One goroutine on its own is its reads run in order. *)
Lemma discoverOnInterface_runReads xc ip sock (devs : gmap string Device) :
  discoverOnInterface xc ip sock devs = runReads xc (taskReads ip sock) devs.
Proof.
  unfold discoverOnInterface, taskReads, runReads.
  destruct (bindOk sock); [|reflexivity].
  generalize devs. induction (inbox sock) as [|dg l IH]; intros d; [reflexivity|].
  simpl. apply IH.
Qed.

(** Two devices with one MAC, inserted one after the other: the second
    insertion changes nothing. *)
Lemma insertIfAbsent_twice d1 d2 (devs : gmap string Device) :
  MAC d1 = MAC d2 ->
  insertIfAbsent d2 (insertIfAbsent d1 devs) = insertIfAbsent d1 devs.
Proof.
  intros E. unfold insertIfAbsent at 1. rewrite <- E.
  destruct (devs !! MAC d1) as [d|] eqn:Hd.
  - now rewrite (insertIfAbsent_keeps d1 devs _ _ Hd).
  - now rewrite (insertIfAbsent_fresh d1 devs Hd).
Qed.

(** C1.  First writer wins.  For a scanner whose registry is keyed by MAC
    (as the registry of [NewScanner] is, and as every insertion keeps it),
    and for every way the goroutines of one [Discover()] call interleave:
    an insertion never replaces the device an existing key holds, neither
    in one step nor over the whole call, and of two devices with one MAC
    inserted one after the other the second is dropped; the returned list holds at most
    one device per MAC; its MACs are exactly the keys present before the
    call together with the MACs of the devices parsed during the call, so
    for a fresh scanner its length is the number of distinct MACs observed;
    and for a MAC that is new, the device returned is the first one that
    was inserted with it, stamped with the adapter that read it. *)
Theorem Discover_first_MAC_wins xc (s s' : Scanner) interfaces res :
  keyedByMAC (devices s) ->
  Discover xc s (Ok interfaces) (Ok res) s' ->
  (forall dev (devs : gmap string Device) k d,
      devs !! k = Some d -> insertIfAbsent dev devs !! k = Some d)
  /\ (forall d1 d2 (devs : gmap string Device),
        MAC d1 = MAC d2 ->
        insertIfAbsent d2 (insertIfAbsent d1 devs) = insertIfAbsent d1 devs)
  /\ (forall k d, devices s !! k = Some d -> devices s' !! k = Some d)
  /\ NoDup (MAC <$> res)
  /\ (forall m, m ∈ (MAC <$> res) <->
                m ∈ dom (devices s) \/ m ∈ observedMACs xc (concat (tasks interfaces)))
  /\ (devices s = ∅ ->
      length res
      = size (list_to_set (observedMACs xc (concat (tasks interfaces))) : gset string))
  /\ exists l,
      interleaved (tasks interfaces) l
      /\ devices s' = runReads xc l (devices s)
      /\ res ≡ₚ snapshot (devices s')
      /\ forall l1 ip dg l2 dev,
          l = l1 ++ (ip, dg) :: l2 ->
          (parseResponse xc (payload dg)).1 = Some dev ->
          MAC dev ∉ dom (devices s) ->
          MAC dev ∉ observedMACs xc l1 ->
          stamp dev ip (readAt dg) ∈ res
          /\ forall d, d ∈ res -> MAC d = MAC dev -> d = stamp dev ip (readAt dg).
Proof.
  intros Hkeyed HD. inversion HD as [|ifs l res' Hil Hperm]; subst. simpl.
  pose proof (runReads_keyed xc l _ Hkeyed) as Hk'.
  pose proof (interleaved_perm _ _ Hil) as Hl.
  assert (Hmem : forall m, m ∈ (MAC <$> res) <->
            m ∈ dom (devices s) \/ m ∈ observedMACs xc (concat (tasks interfaces))).
  { intros m. rewrite Hperm, snapshot_elem, runReads_dom by assumption.
    rewrite <- (observedMACs_perm xc _ _ Hl). set_solver. }
  split; [exact insertIfAbsent_keeps|].
  split; [exact insertIfAbsent_twice|].
  split; [intros k d; apply runReads_keeps|].
  split; [rewrite Hperm; now apply snapshot_NoDup|].
  split; [exact Hmem|].
  split.
  { intros Hempty. rewrite Hperm, snapshot_length, runReads_dom, Hempty, dom_empty_L.
    rewrite (right_id_L ∅ (∪)). f_equal. apply set_eq. intros m.
    rewrite !elem_of_list_to_set. now rewrite (observedMACs_perm xc _ _ Hl). }
  exists l. split; [exact Hil|]. split; [reflexivity|]. split; [exact Hperm|].
  intros l1 ip dg l2 dev -> Hp Hdom Hobs.
  pose proof (runReads_first_wins xc l1 ip dg l2 dev _ Hp Hdom Hobs) as Hlook.
  split.
  - rewrite Hperm. unfold snapshot. apply list_elem_of_fmap.
    exists (MAC dev, stamp dev ip (readAt dg)). split; [reflexivity|].
    now apply elem_of_map_to_list.
  - intros d Hd Hmac. rewrite Hperm in Hd. unfold snapshot in Hd.
    apply list_elem_of_fmap in Hd as ([k d'] & -> & Hin). simpl in *.
    apply elem_of_map_to_list in Hin.
    pose proof (Hk' _ _ Hin) as Hkd. rewrite Hmac in Hkd. subst k.
    rewrite Hlook in Hin. congruence.
Qed.

Lemma fresh_registry_keyed t : keyedByMAC (devices (NewScanner t)).
Proof. intros k d. simpl. rewrite lookup_empty. discriminate. Qed.

Lemma interleaved_twoAdapters :
  interleaved (tasks Fixtures.twoAdapters) Fixtures.readsAthenB.
Proof.
  apply (interleaved_step [] ("192.168.1.2", Fixtures.responseA) []
           [[("10.0.0.2", Fixtures.responseB)]]).
  apply (interleaved_step [[]] ("10.0.0.2", Fixtures.responseB) [] []).
  apply interleaved_done. repeat constructor.
Qed.

Lemma Discover_first_MAC_wins_witness :
  let s := NewScanner 5000000000 in
  let devs := runReads Fixtures.toyCodec Fixtures.readsAthenB (devices s) in
  keyedByMAC (devices s)
  /\ Discover Fixtures.toyCodec s (Ok Fixtures.twoAdapters) (Ok (snapshot devs))
       (mkScanner (timeout s) devs)
  /\ NoDup (MAC <$> snapshot devs)
  /\ length (snapshot devs) = 1%nat.
Proof.
  intros s devs.
  assert (Hk : keyedByMAC (devices s)) by apply fresh_registry_keyed.
  assert (HD : Discover Fixtures.toyCodec s (Ok Fixtures.twoAdapters)
                 (Ok (snapshot devs)) (mkScanner (timeout s) devs)).
  { apply Discover_done; [apply interleaved_twoAdapters | reflexivity]. }
  destruct (Discover_first_MAC_wins _ _ _ _ _ Hk HD)
    as (_ & _ & _ & Hnd & _ & Hlen & _).
  split; [exact Hk|]. split; [exact HD|]. split; [exact Hnd|].
  rewrite Hlen by reflexivity. vm_compute. reflexivity.
Defined.

End RegistryFacts.

(** *** The command catalog and BuildCommandXML *)

Module CommandFacts.
Import GoStr GoStrFacts Fmt SadpCmd.

Lemma BuildCommandXML_unknown w cmdName opts :
  Commands w !! cmdName = None ->
  BuildCommandXML cmdName opts w = (Err ("unknown command: " +:+ cmdName), w).
Proof.
  intros H. unfold BuildCommandXML, bind, lookupCommand. rewrite H.
  unfold ret, Errorf. cbn. now rewrite GoStrFacts.append_empty_r.
Qed.

Lemma BuildCommandXML_known w cmdName cmd opts :
  Commands w !! cmdName = Some cmd ->
  BuildCommandXML cmdName opts w
  = (fillTemplate cmd (nextUUID w) cmdName opts, afterUUID w).
Proof.
  intros H. unfold BuildCommandXML, bind, lookupCommand. now rewrite H.
Qed.

Lemma commandTable_NoDup : NoDup commandTable.*1.
Proof. apply (bool_decide_unpack _). vm_compute. exact I. Qed.

Lemma catalog_lookup w cmdName cmd :
  catalogIntact w ->
  Commands w !! cmdName = Some cmd <-> (cmdName, cmd) ∈ commandTable.
Proof.
  intros ->. split.
  - apply elem_of_list_to_map_2.
  - apply elem_of_list_to_map_1, commandTable_NoDup.
Qed.

(** Case analysis over the entries of the catalog. *)
Ltac each_command H :=
  unfold commandTable in H;
  repeat (apply elem_of_cons in H as [H|H]; [injection H as -> ->|]);
  [..|apply elem_of_nil in H; destruct H].

Ltac empty_or_not s := destruct s as [|? ?].

Lemma known_flags_match cmdName cmd :
  (cmdName, cmd) ∈ commandTable ->
  Name cmd = cmdName
  /\ NeedsMAC cmd = requires cmdName FMAC
  /\ NeedsPass cmd = requires cmdName FPassword.
Proof. intros H. each_command H; repeat split; reflexivity. Qed.

Lemma known_Err_iff_missing cmdName cmd uuid opts :
  (cmdName, cmd) ∈ commandTable ->
  is_Err (fillTemplate cmd uuid cmdName opts) = negb (allPresent opts cmdName).
Proof.
  intros H. destruct opts as [tip mac pw code nip nmask ngw nport dhcp email tmo].
  each_command H; empty_or_not mac; empty_or_not pw; empty_or_not code;
    empty_or_not email; lazy -[pretty]; reflexivity.
Qed.

Lemma known_Err_names_field cmdName cmd uuid opts e :
  (cmdName, cmd) ∈ commandTable ->
  fillTemplate cmd uuid cmdName opts = Err e ->
  exists f, requires cmdName f = true /\ fieldValue opts f = EmptyString
            /\ Contains e (fieldWord f) = true /\ Contains e cmdName = true.
Proof.
  intros H. destruct opts as [tip mac pw code nip nmask ngw nport dhcp email tmo].
  each_command H; empty_or_not mac; empty_or_not pw; empty_or_not code;
    empty_or_not email; intros He; lazy -[pretty] in He;
    first [ discriminate He
          | injection He as <-;
            first [ exists FMAC; repeat split; reflexivity
                  | exists FCode; repeat split; reflexivity
                  | exists FPassword; repeat split; reflexivity
                  | exists FEmail; repeat split; reflexivity ] ].
Qed.

Lemma initialWorld_intact s uuids : catalogIntact (initialWorld s uuids).
Proof. reflexivity. Qed.

(** The output for [activate], with the holes of the template filled. *)
Lemma activate_output w opts :
  catalogIntact w ->
  TargetMAC opts <> EmptyString -> Password opts <> EmptyString ->
  (BuildCommandXML "activate" opts w).1
  = Ok (probeDecl +:+ "<Probe><Uuid>" +:+ nextUUID w +:+ "</Uuid><MAC>"
        +:+ TargetMAC opts +:+ "</MAC><Types>activate</Types><Password>"
        +:+ Password opts +:+ "</Password></Probe>").
Proof.
  intros Hcat Hmac Hpw.
  assert (Hl : Commands w !! "activate" = Some
     (mkCommand "activate" "Activate an inactive device with a new password"
        (tpl "<Probe><Uuid>%s</Uuid><MAC>%s</MAC><Types>activate</Types><Password>%s</Password></Probe>")
        true true)).
  { rewrite Hcat. reflexivity. }
  rewrite (BuildCommandXML_known _ _ _ _ Hl). simpl fst.
  destruct opts as [tip mac pw code nip nmask ngw nport dhcp email tmo]. simpl in *.
  destruct mac as [|a mac]; [congruence|]. destruct pw as [|b pw]; [congruence|].
  reflexivity.
Qed.

(** C4.  With the catalog of the map literal: an unknown name fails with
    ["unknown command: <name>"] whatever the options hold, and draws no
    correlation id; for a known command the call fails exactly when a
    field the command requires is empty, the error then contains the word
    for a field that is required and empty and the name of the command, and
    XML is produced only when every required field has a value; the flags
    [NeedsMAC] and [NeedsPass] of the catalog agree with what the switch
    checks.  In particular [activate] with no options fails for the MAC,
    with the MAC alone fails for the password, and with both succeeds with
    both values verbatim in the output. *)
Theorem BuildCommandXML_validates_required_fields w cmdName opts :
  catalogIntact w ->
  (Commands w !! cmdName = None ->
     BuildCommandXML cmdName opts w = (Err ("unknown command: " +:+ cmdName), w))
  /\ (forall cmd, Commands w !! cmdName = Some cmd ->
        NeedsMAC cmd = requires cmdName FMAC
        /\ NeedsPass cmd = requires cmdName FPassword
        /\ is_Err (BuildCommandXML cmdName opts w).1 = negb (allPresent opts cmdName)
        /\ (forall xml, (BuildCommandXML cmdName opts w).1 = Ok xml ->
              forall f, requires cmdName f = true -> fieldValue opts f <> EmptyString)
        /\ (forall e, (BuildCommandXML cmdName opts w).1 = Err e ->
              exists f, requires cmdName f = true
                        /\ fieldValue opts f = EmptyString
                        /\ Contains e (fieldWord f) = true
                        /\ Contains e cmdName = true))
  /\ (BuildCommandXML "activate" noOptions w).1
     = Err "MAC address required for activate command"
  /\ (forall mac, mac <> EmptyString ->
        (BuildCommandXML "activate" (withMAC noOptions mac) w).1
        = Err "password required for activate command")
  /\ (forall mac pw, mac <> EmptyString -> pw <> EmptyString ->
        exists xml,
          (BuildCommandXML "activate" (withPassword (withMAC noOptions mac) pw) w).1
          = Ok xml
          /\ Contains xml mac = true /\ Contains xml pw = true).
Proof.
  intros Hcat. split; [apply BuildCommandXML_unknown|].
  assert (Hact : Commands w !! "activate" = Some
     (mkCommand "activate" "Activate an inactive device with a new password"
        (tpl "<Probe><Uuid>%s</Uuid><MAC>%s</MAC><Types>activate</Types><Password>%s</Password></Probe>")
        true true)) by (rewrite Hcat; reflexivity).
  split; [|split; [|split]].
  - intros cmd Hl. rewrite (BuildCommandXML_known _ _ _ _ Hl). simpl fst.
    apply (catalog_lookup _ _ _ Hcat) in Hl.
    destruct (known_flags_match _ _ Hl) as (_ & HM & HP).
    pose proof (known_Err_iff_missing _ _ (nextUUID w) opts Hl) as Hiff.
    repeat split; try assumption.
    + intros xml Hok f Hreq Hempty. rewrite Hok in Hiff. simpl in Hiff.
      symmetry in Hiff. apply negb_false_iff in Hiff.
      unfold allPresent in Hiff. rewrite forallb_forall in Hiff.
      unfold requires in Hreq. apply existsb_exists in Hreq as (g & Hin & Hfg).
      assert (f = g) as <- by (destruct f, g; simpl in Hfg; congruence).
      specialize (Hiff _ Hin). now rewrite Hempty in Hiff.
    + intros e. now apply known_Err_names_field.
  - rewrite (BuildCommandXML_known _ _ _ _ Hact). reflexivity.
  - intros mac Hmac. rewrite (BuildCommandXML_known _ _ _ _ Hact). simpl fst.
    destruct mac; [congruence | reflexivity].
  - intros mac pw Hmac Hpw. eexists. split.
    + apply activate_output; assumption.
    + simpl TargetMAC. simpl Password. split.
      * pose proof (Contains_middle
          (probeDecl +:+ "<Probe><Uuid>" +:+ nextUUID w +:+ "</Uuid><MAC>") mac
          ("</MAC><Types>activate</Types><Password>" +:+ pw +:+ "</Password></Probe>"))
          as H.
        rewrite !append_assoc in H. exact H.
      * pose proof (Contains_middle
          (probeDecl +:+ "<Probe><Uuid>" +:+ nextUUID w +:+ "</Uuid><MAC>" +:+ mac
           +:+ "</MAC><Types>activate</Types><Password>") pw "</Password></Probe>")
          as H.
        rewrite !append_assoc in H. exact H.
Qed.

Lemma BuildCommandXML_validates_required_fields_witness :
  catalogIntact Fixtures.demoWorld
  /\ (BuildCommandXML "activate" noOptions Fixtures.demoWorld).1
     = Err "MAC address required for activate command".
Proof.
  split; [apply initialWorld_intact|].
  destruct (BuildCommandXML_validates_required_fields Fixtures.demoWorld "activate"
              noOptions (initialWorld_intact _ _)) as (_ & _ & H & _).
  exact H.
Defined.

(** A segment of a string, given what stands before and after it. *)
Ltac contains_by pre sub post :=
  let H := fresh in
  pose proof (Contains_middle pre sub post) as H;
  rewrite ?append_assoc in H; exact H.

Lemma update_output w opts :
  catalogIntact w ->
  TargetMAC opts <> EmptyString -> Password opts <> EmptyString ->
  (BuildCommandXML "update" opts w).1
  = Ok (updateXML (nextUUID w) (TargetMAC opts) (Password opts) (defaultedIP opts)
          (defaultedPort opts) (defaultedMask opts) (NewGateway opts) (dhcpText opts)).
Proof.
  intros Hcat Hmac Hpw.
  assert (Hl : Commands w !! "update" = Some
     (mkCommand "update" "Update device network parameters"
        (tpl "<Probe><Uuid>%s</Uuid><Types>update</Types><PWErrorParse>true</PWErrorParse><MAC>%s</MAC><Password>%s</Password><IPv4Address>%s</IPv4Address><CommandPort>%d</CommandPort><IPv4SubnetMask>%s</IPv4SubnetMask><IPv4Gateway>%s</IPv4Gateway><DHCP>%s</DHCP></Probe>")
        true true)).
  { rewrite Hcat. reflexivity. }
  rewrite (BuildCommandXML_known _ _ _ _ Hl). simpl fst.
  destruct opts as [tip mac pw code nip nmask ngw nport dhcp email tmo]. simpl in *.
  destruct mac as [|a mac]; [congruence|]. destruct pw as [|b pw]; [congruence|].
  reflexivity.
Qed.

(** C5.  For [update] with the MAC and the password supplied, with the
    catalog of the map literal: the output is the [update] wire format in
    which the new IP is the supplied one, or the target IP when none is
    supplied; the mask is the supplied one, or 255.255.255.0; the port is
    the supplied one, or 8000 when it is zero; the gateway is the supplied
    one; and DHCP is ["true"] when requested and ["false"] otherwise.  With
    only the target IP 192.168.1.100 given, the output holds that address,
    the mask 255.255.255.0, the port 8000 and DHCP false. *)
Theorem update_applies_defaults w opts :
  catalogIntact w ->
  TargetMAC opts <> EmptyString -> Password opts <> EmptyString ->
  (BuildCommandXML "update" opts w).1
  = Ok (updateXML (nextUUID w) (TargetMAC opts) (Password opts) (defaultedIP opts)
          (defaultedPort opts) (defaultedMask opts) (NewGateway opts) (dhcpText opts))
  /\ (NewIP opts = EmptyString -> defaultedIP opts = TargetIP opts)
  /\ (NewIP opts <> EmptyString -> defaultedIP opts = NewIP opts)
  /\ (NewMask opts = EmptyString -> defaultedMask opts = "255.255.255.0")
  /\ (NewMask opts <> EmptyString -> defaultedMask opts = NewMask opts)
  /\ (NewPort opts = 0 -> defaultedPort opts = 8000)
  /\ (NewPort opts <> 0 -> defaultedPort opts = NewPort opts)
  /\ (DHCP opts = false -> dhcpText opts = "false")
  /\ (DHCP opts = true -> dhcpText opts = "true")
  /\ (exists xml,
        (BuildCommandXML "update"
           (updateExample (TargetMAC opts) (Password opts)) w).1 = Ok xml
        /\ Contains xml "<IPv4Address>192.168.1.100</IPv4Address>" = true
        /\ Contains xml "<IPv4SubnetMask>255.255.255.0</IPv4SubnetMask>" = true
        /\ Contains xml "<CommandPort>8000</CommandPort>" = true
        /\ Contains xml "<DHCP>false</DHCP>" = true).
Proof.
  intros Hcat Hmac Hpw. split; [now apply update_output|].
  unfold defaultedIP, defaultedMask, defaultedPort, dhcpText, isEmpty.
  repeat split.
  - now intros ->.
  - intros H. destruct (NewIP opts); [congruence | reflexivity].
  - now intros ->.
  - intros H. destruct (NewMask opts); [congruence | reflexivity].
  - now intros ->.
  - intros H. destruct (Z.eqb_spec (NewPort opts) 0); [congruence | reflexivity].
  - now intros ->.
  - now intros ->.
  - eexists. split; [apply update_output; assumption|].
    set (u := nextUUID w). set (mac := TargetMAC opts). set (pw := Password opts).
    unfold updateXML, updateExample, defaultedIP, defaultedMask, defaultedPort,
      dhcpText. simpl.
    change (pretty 8000) with "8000".
    repeat split.
    + contains_by
        (probeDecl +:+ "<Probe><Uuid>" +:+ u
         +:+ "</Uuid><Types>update</Types><PWErrorParse>true</PWErrorParse><MAC>"
         +:+ mac +:+ "</MAC><Password>" +:+ pw +:+ "</Password>")
        "<IPv4Address>192.168.1.100</IPv4Address>"
        ("<CommandPort>8000</CommandPort><IPv4SubnetMask>255.255.255.0</IPv4SubnetMask><IPv4Gateway></IPv4Gateway><DHCP>false</DHCP></Probe>").
    + contains_by
        (probeDecl +:+ "<Probe><Uuid>" +:+ u
         +:+ "</Uuid><Types>update</Types><PWErrorParse>true</PWErrorParse><MAC>"
         +:+ mac +:+ "</MAC><Password>" +:+ pw
         +:+ "</Password><IPv4Address>192.168.1.100</IPv4Address><CommandPort>8000</CommandPort>")
        "<IPv4SubnetMask>255.255.255.0</IPv4SubnetMask>"
        ("<IPv4Gateway></IPv4Gateway><DHCP>false</DHCP></Probe>").
    + contains_by
        (probeDecl +:+ "<Probe><Uuid>" +:+ u
         +:+ "</Uuid><Types>update</Types><PWErrorParse>true</PWErrorParse><MAC>"
         +:+ mac +:+ "</MAC><Password>" +:+ pw
         +:+ "</Password><IPv4Address>192.168.1.100</IPv4Address>")
        "<CommandPort>8000</CommandPort>"
        ("<IPv4SubnetMask>255.255.255.0</IPv4SubnetMask><IPv4Gateway></IPv4Gateway><DHCP>false</DHCP></Probe>").
    + contains_by
        (probeDecl +:+ "<Probe><Uuid>" +:+ u
         +:+ "</Uuid><Types>update</Types><PWErrorParse>true</PWErrorParse><MAC>"
         +:+ mac +:+ "</MAC><Password>" +:+ pw
         +:+ "</Password><IPv4Address>192.168.1.100</IPv4Address><CommandPort>8000</CommandPort><IPv4SubnetMask>255.255.255.0</IPv4SubnetMask><IPv4Gateway></IPv4Gateway>")
        "<DHCP>false</DHCP>" "</Probe>".
Qed.

Lemma update_applies_defaults_witness :
  catalogIntact Fixtures.demoWorld
  /\ TargetMAC Fixtures.customUpdate <> EmptyString
  /\ Password Fixtures.customUpdate <> EmptyString
  /\ (BuildCommandXML "update" Fixtures.customUpdate Fixtures.demoWorld).1
     = Ok (updateXML "uuid-0" "AA:BB:CC:DD:EE:FF" "admin" "10.0.0.100" 9000
             "255.255.0.0" "10.0.0.1" "true").
Proof.
  assert (Hm : TargetMAC Fixtures.customUpdate <> EmptyString) by discriminate.
  assert (Hp : Password Fixtures.customUpdate <> EmptyString) by discriminate.
  split; [apply initialWorld_intact|]. split; [exact Hm|]. split; [exact Hp|].
  destruct (update_applies_defaults Fixtures.demoWorld Fixtures.customUpdate
              (initialWorld_intact _ _) Hm Hp) as (H & _).
  exact H.
Defined.

End CommandFacts.

(** *** The correlation id is the only thing a call adds *)

Module DeterminismFacts.
Import GoStr GoStrFacts Fmt SadpCmd CommandFacts.

Lemma holed_id : holed (fun u => u).
Proof. exists EmptyString, EmptyString. intros u. now rewrite append_empty_r. Qed.

Lemma holed_before f s : holed f -> holed (fun u => s +:+ f u).
Proof.
  intros (pre & post & H). exists (s +:+ pre), post. intros u.
  now rewrite H, append_assoc.
Qed.

Lemma holed_after f s : holed f -> holed (fun u => f u +:+ s).
Proof.
  intros (pre & post & H). exists pre, (post +:+ s). intros u.
  now rewrite H, !append_assoc.
Qed.

Lemma holed_cons f c : holed f -> holed (fun u => String c (f u)).
Proof. intros H. apply (holed_before f (String c EmptyString)), H. Qed.

Lemma holed_ext f g : (forall u, f u = g u) -> holed f -> holed g.
Proof. intros E (pre & post & H). exists pre, post. intros u. now rewrite <- E. Qed.

Lemma extra_holed rest : holed (fun u => extra (AStr u :: rest)).
Proof.
  unfold extra. apply holed_before, holed_after. simpl map.
  destruct (map showArg rest) as [|x xs].
  - simpl. apply holed_before, holed_id.
  - change (holed (fun u => ("string=" +:+ u) +:+ ", " +:+ String.concat ", " (x :: xs))).
    apply holed_after, holed_before, holed_id.
Qed.

Lemma verb_holed v : holed (fun u => verb v (AStr u)).
Proof.
  unfold verb. destruct (Ascii.eqb v "s").
  - apply holed_id.
  - apply holed_before, holed_cons, holed_before, holed_after.
    unfold showArg. apply holed_before, holed_id.
Qed.

(** Whatever the format, the first operand lands in one place of the
    output. *)
Lemma Sprintf_holed format :
  (forall rest, holed (fun u => Sprintf format (AStr u :: rest)))
  /\ (forall c rest, holed (fun u => Sprintf (String c format) (AStr u :: rest))).
Proof.
  induction format as [|a format [IH1 IH2]].
  - split; [intros rest; apply extra_holed|].
    intros c rest. simpl. destruct (Ascii.eqb c "%").
    + apply holed_before, extra_holed.
    + apply holed_cons, extra_holed.
  - split; [exact (IH2 a)|].
    intros c rest. simpl Sprintf. destruct (Ascii.eqb c "%").
    + destruct (Ascii.eqb a "%").
      * apply holed_cons, IH1.
      * apply holed_after, verb_holed.
    + apply holed_cons. exact (IH2 a rest).
Qed.

(** The switch never looks at the correlation id: either it fails, with an
    error that does not depend on the id, or it fills the template with the
    id as the first operand. *)
Lemma fillTemplate_shape cmd cmdName opts :
  (exists e, forall u, fillTemplate cmd u cmdName opts = Err e)
  \/ (exists rest, forall u,
        fillTemplate cmd u cmdName opts = Ok (Sprintf (Template cmd) (AStr u :: rest))).
Proof.
  unfold fillTemplate, Errorf.
  repeat match goal with
         | |- context [if ?b then _ else _] => destruct b
         end;
    solve [ left; eexists; intros u; reflexivity
          | right; eexists; intros u; reflexivity ].
Qed.

Lemma BuildCommandXML_buildWith cmdName opts w :
  (BuildCommandXML cmdName opts w).1
  = buildWith (Commands w) (nextUUID w) cmdName opts.
Proof.
  unfold BuildCommandXML, buildWith, bind, lookupCommand.
  destruct (Commands w !! cmdName); reflexivity.
Qed.

Lemma BuildCommandXML_frame cmdName opts w :
  let w' := (BuildCommandXML cmdName opts w).2 in
  Commands w' = Commands w /\ scanner w' = scanner w
  /\ trace w' = trace w /\ uuids w' = uuids w
  /\ (uuidCalls w' = uuidCalls w \/ uuidCalls w' = S (uuidCalls w)).
Proof.
  unfold BuildCommandXML, bind, lookupCommand.
  destruct (Commands w !! cmdName); simpl; auto 10.
Qed.

Lemma buildWith_shape catalog cmdName opts :
  (exists e, forall u, buildWith catalog u cmdName opts = Err e)
  \/ (exists pre post, forall u, buildWith catalog u cmdName opts = Ok (pre +:+ u +:+ post)).
Proof.
  unfold buildWith. destruct (catalog !! cmdName) as [cmd|].
  - destruct (fillTemplate_shape cmd cmdName opts) as [(e & He) | (rest & Hr)].
    + left. eauto.
    + right. destruct (proj1 (Sprintf_holed (Template cmd)) rest) as (pre & post & H).
      exists pre, post. intros u. now rewrite Hr, H.
  - left. eexists. intros u. reflexivity.
Qed.

(** C10.  [BuildCommandXML] is a function of the catalog, the correlation
    id drawn, the command name and the options, and it leaves the catalog,
    the scanner and the network trace as they were.  Two invocations with
    the same name and options, under the same catalog, either fail with the
    same error or succeed with outputs that are one text around the two
    correlation ids; so do two invocations that follow each other in one
    process. *)
Theorem BuildCommandXML_deterministic_up_to_uuid cmdName opts :
  (forall w,
      (BuildCommandXML cmdName opts w).1
      = buildWith (Commands w) (nextUUID w) cmdName opts
      /\ Commands (BuildCommandXML cmdName opts w).2 = Commands w
      /\ scanner (BuildCommandXML cmdName opts w).2 = scanner w
      /\ trace (BuildCommandXML cmdName opts w).2 = trace w
      /\ uuids (BuildCommandXML cmdName opts w).2 = uuids w)
  /\ (forall w1 w2, Commands w1 = Commands w2 ->
        (exists e, (BuildCommandXML cmdName opts w1).1 = Err e
                   /\ (BuildCommandXML cmdName opts w2).1 = Err e)
        \/ (exists pre post,
              (BuildCommandXML cmdName opts w1).1 = Ok (pre +:+ nextUUID w1 +:+ post)
              /\ (BuildCommandXML cmdName opts w2).1 = Ok (pre +:+ nextUUID w2 +:+ post)))
  /\ (forall w,
        let w' := (BuildCommandXML cmdName opts w).2 in
        (exists e, (BuildCommandXML cmdName opts w).1 = Err e
                   /\ (BuildCommandXML cmdName opts w').1 = Err e)
        \/ (exists pre post,
              (BuildCommandXML cmdName opts w).1 = Ok (pre +:+ nextUUID w +:+ post)
              /\ (BuildCommandXML cmdName opts w').1 = Ok (pre +:+ nextUUID w' +:+ post))).
Proof.
  assert (Htwo : forall w1 w2, Commands w1 = Commands w2 ->
        (exists e, (BuildCommandXML cmdName opts w1).1 = Err e
                   /\ (BuildCommandXML cmdName opts w2).1 = Err e)
        \/ (exists pre post,
              (BuildCommandXML cmdName opts w1).1 = Ok (pre +:+ nextUUID w1 +:+ post)
              /\ (BuildCommandXML cmdName opts w2).1 = Ok (pre +:+ nextUUID w2 +:+ post))).
  { intros w1 w2 Hc. rewrite !BuildCommandXML_buildWith, Hc.
    destruct (buildWith_shape (Commands w2) cmdName opts) as [(e & He) | (pre & post & H)].
    - left. exists e. now rewrite !He.
    - right. exists pre, post. now rewrite !H. }
  split; [|split; [exact Htwo|]].
  - intros w. split; [apply BuildCommandXML_buildWith|].
    destruct (BuildCommandXML_frame cmdName opts w) as (H1 & H2 & H3 & H4 & _). auto.
  - intros w w'. apply Htwo. subst w'.
    now destruct (BuildCommandXML_frame cmdName opts w) as (-> & _).
Qed.

Lemma BuildCommandXML_deterministic_up_to_uuid_witness :
  Commands Fixtures.demoWorld = Commands (afterUUID Fixtures.demoWorld)
  /\ ((exists e, (BuildCommandXML "reboot" Fixtures.customUpdate Fixtures.demoWorld).1 = Err e
                 /\ (BuildCommandXML "reboot" Fixtures.customUpdate
                       (afterUUID Fixtures.demoWorld)).1 = Err e)
      \/ (exists pre post,
            (BuildCommandXML "reboot" Fixtures.customUpdate Fixtures.demoWorld).1
            = Ok (pre +:+ "uuid-0" +:+ post)
            /\ (BuildCommandXML "reboot" Fixtures.customUpdate
                  (afterUUID Fixtures.demoWorld)).1
               = Ok (pre +:+ "uuid-1" +:+ post))).
Proof.
  split; [reflexivity|].
  destruct (BuildCommandXML_deterministic_up_to_uuid "reboot" Fixtures.customUpdate)
    as (_ & H & _).
  exact (H Fixtures.demoWorld (afterUUID Fixtures.demoWorld) eq_refl).
Defined.

End DeterminismFacts.

(** *** SendCommand *)

Module SendFacts.
Import GoStr GoStrFacts Fmt SadpCmd CommandFacts DeterminismFacts.

Lemma BuildCommandXML_trace cmdName opts w :
  trace (BuildCommandXML cmdName opts w).2 = trace w.
Proof. now destruct (BuildCommandXML_frame cmdName opts w) as (_ & _ & -> & _). Qed.

Lemma SendCommand_build_error env cmdName opts w e :
  (BuildCommandXML cmdName opts w).1 = Err e ->
  SendCommand env cmdName opts w = (Err e, (BuildCommandXML cmdName opts w).2).
Proof.
  intros H. unfold SendCommand, bind at 1.
  destruct (BuildCommandXML cmdName opts w) as [r w']. simpl in *. now subst r.
Qed.

Lemma SendCommand_no_route env cmdName opts w xml :
  (BuildCommandXML cmdName opts w).1 = Ok xml ->
  anyAddress opts = true -> TargetMAC opts = EmptyString ->
  SendCommand env cmdName opts w
  = (Err "MAC address required when target IP is 0.0.0.0",
     (BuildCommandXML cmdName opts w).2).
Proof.
  intros H Hany Hmac. unfold SendCommand, bind at 1.
  destruct (BuildCommandXML cmdName opts w) as [r w']. simpl in *. subst r.
  unfold anyAddress in Hany. rewrite Hany, Hmac. reflexivity.
Qed.

Lemma SendCommand_broadcast env cmdName opts w xml :
  (BuildCommandXML cmdName opts w).1 = Ok xml ->
  anyAddress opts = true -> TargetMAC opts <> EmptyString ->
  SendCommand env cmdName opts w
  = sendCommandBroadcastWithMAC env xml opts (BuildCommandXML cmdName opts w).2.
Proof.
  intros H Hany Hmac. unfold SendCommand, bind at 1.
  destruct (BuildCommandXML cmdName opts w) as [r w']. simpl in *. subst r.
  unfold anyAddress in Hany. rewrite Hany.
  destruct (TargetMAC opts); [congruence | reflexivity].
Qed.

(** The broadcast path never dials: its events are two log lines and, when
    the interfaces can be listed, the broadcast itself. *)
Lemma broadcast_trace env xml opts w :
  exists evs,
    trace (sendCommandBroadcastWithMAC env xml opts w).2 = trace w ++ evs
    /\ Forall (fun ev => match ev with
                         | NDebugw _ | NBroadcast _ _ _ => True
                         | _ => False
                         end) evs.
Proof.
  unfold sendCommandBroadcastWithMAC, bind, emit, ret. simpl.
  destruct (interfacesError env).
  - eexists. simpl. rewrite <- ?app_assoc. split; [reflexivity|].
    repeat constructor.
  - simpl. destruct (List.find _ _); simpl;
      (eexists; rewrite <- ?app_assoc; split; [reflexivity | repeat constructor]).
Qed.

Lemma SendCommand_unicast env cmdName opts w xml :
  (BuildCommandXML cmdName opts w).1 = Ok xml ->
  anyAddress opts = false ->
  dialError env (TargetIP opts) = None -> writeError env xml = None ->
  (SendCommand env cmdName opts w).1
  = match conn_Read (reply env (TargetIP opts) xml) (effectiveTimeout opts)
            Sadp.MaxPacketSize with
    | ReadOk data => Ok data
    | ReadTimeout => Err timeoutText
    | ReadError e => Err ("failed to read response: " +:+ e)
    end
  /\ trace (SendCommand env cmdName opts w).2 = trace w ++ unicastEvents opts xml.
Proof.
  intros H Hany Hdial Hwrite. rewrite <- (BuildCommandXML_trace cmdName opts w).
  unfold SendCommand, bind.
  destruct (BuildCommandXML cmdName opts w) as [r w']. simpl in H. subst r.
  unfold anyAddress in Hany. rewrite Hany. unfold emit, ret. simpl.
  rewrite Hdial. simpl. rewrite Hwrite. simpl.
  destruct (conn_Read _ _ _); simpl; rewrite <- ?app_assoc; split; reflexivity.
Qed.

Lemma timeoutText_distinct e : ioErrorText e -> e <> timeoutText.
Proof. intros (cause & [-> | [-> | ->]]); discriminate. Qed.

Lemma anyAddress_true opts :
  anyAddress opts = true <->
  TargetIP opts = "0.0.0.0" \/ TargetIP opts = EmptyString.
Proof.
  unfold anyAddress, isEmpty. rewrite orb_true_iff, !String.eqb_eq. reflexivity.
Qed.

Lemma anyAddress_false opts :
  anyAddress opts = false <->
  TargetIP opts <> "0.0.0.0" /\ TargetIP opts <> EmptyString.
Proof.
  unfold anyAddress, isEmpty. rewrite orb_false_iff, !String.eqb_neq. reflexivity.
Qed.

Lemma effectiveTimeout_default opts :
  Timeout opts = 0 -> effectiveTimeout opts = 5000000000.
Proof. intros H. unfold effectiveTimeout. rewrite H. reflexivity. Qed.

Lemma effectiveTimeout_given opts :
  Timeout opts <> 0 -> effectiveTimeout opts = Timeout opts.
Proof.
  intros H. unfold effectiveTimeout.
  destruct (Z.eqb_spec (Timeout opts) 0); [congruence | reflexivity].
Qed.

(** C6.  After the command XML is built: with the target IP empty or
    0.0.0.0 and a target MAC given, the call is the broadcast-with-MAC-filter
    exchange, which dials nobody; with the target IP empty or 0.0.0.0 and no
    target MAC the call fails and the network trace is unchanged; otherwise,
    when the dial and the write succeed, the exchange is dial, deadline,
    write, read, close, the deadline is 5 seconds when the timeout is zero
    and the given timeout otherwise, an answer that comes before the
    deadline is returned, an answer that comes at or after the deadline, or
    never, is the error [no response (timeout)], another read failure is
    [failed to read response: ...], and the timeout text differs from the
    text of every other I/O error of the path. *)
Theorem SendCommand_routes_and_times_out env cmdName opts w :
  let built := BuildCommandXML cmdName opts w in
  let sent := SendCommand env cmdName opts w in
  let anyIP := TargetIP opts = "0.0.0.0" \/ TargetIP opts = EmptyString in
  (forall xml, built.1 = Ok xml -> anyIP -> TargetMAC opts <> EmptyString ->
      sent = sendCommandBroadcastWithMAC env xml opts built.2
      /\ exists evs,
          trace sent.2 = trace w ++ evs
          /\ Forall (fun ev => match ev with
                               | NDebugw _ | NBroadcast _ _ _ => True
                               | _ => False
                               end) evs)
  /\ (anyIP -> TargetMAC opts = EmptyString ->
      exists e, sent.1 = Err e /\ trace sent.2 = trace w)
  /\ (forall xml, built.1 = Ok xml -> ~ anyIP ->
      dialError env (TargetIP opts) = None -> writeError env xml = None ->
      trace sent.2 = trace w ++ unicastEvents opts xml
      /\ (Timeout opts = 0 -> effectiveTimeout opts = 5 * Sadp.Second)
      /\ (Timeout opts <> 0 -> effectiveTimeout opts = Timeout opts)
      /\ (forall delay data,
            reply env (TargetIP opts) xml = ReplyAfter delay data ->
            (delay < effectiveTimeout opts ->
               sent.1 = Ok (String.substring 0 (Z.to_nat Sadp.MaxPacketSize) data))
            /\ (effectiveTimeout opts <= delay -> sent.1 = Err timeoutText))
      /\ (reply env (TargetIP opts) xml = ReplyNever -> sent.1 = Err timeoutText)
      /\ (forall e, reply env (TargetIP opts) xml = ReadFails e ->
            sent.1 = Err ("failed to read response: " +:+ e)))
  /\ (forall e, ioErrorText e -> e <> timeoutText).
Proof.
  intros built sent anyIP. subst built sent anyIP.
  split; [|split; [|split]].
  - intros xml Hb Hany%anyAddress_true Hmac.
    rewrite (SendCommand_broadcast env _ _ _ _ Hb Hany Hmac). split; [reflexivity|].
    destruct (broadcast_trace env xml opts (BuildCommandXML cmdName opts w).2)
      as (evs & Ht & Hall).
    exists evs. now rewrite Ht, BuildCommandXML_trace.
  - intros Hany%anyAddress_true Hmac.
    destruct (BuildCommandXML cmdName opts w).1 as [xml|e] eqn:Hb.
    + rewrite (SendCommand_no_route env _ _ _ _ Hb Hany Hmac). simpl.
      eexists. split; [reflexivity | apply BuildCommandXML_trace].
    + rewrite (SendCommand_build_error env _ _ _ _ Hb). simpl.
      eexists. split; [reflexivity | apply BuildCommandXML_trace].
  - intros xml Hb Hany Hdial Hwrite.
    assert (Hany' : anyAddress opts = false).
    { apply anyAddress_false. split; intros E; apply Hany; auto. }
    destruct (SendCommand_unicast env _ _ _ _ Hb Hany' Hdial Hwrite) as (Hres & Htr).
    split; [exact Htr|].
    split; [apply effectiveTimeout_default|].
    split; [apply effectiveTimeout_given|].
    rewrite Hres. split; [|split].
    + intros delay data Hreply. rewrite Hreply. simpl.
      destruct (Z.ltb_spec delay (effectiveTimeout opts)); split; intros Hd;
        (reflexivity || lia).
    + intros ->. reflexivity.
    + intros e ->. reflexivity.
  - apply timeoutText_distinct.
Qed.

Lemma SendCommand_routes_and_times_out_witness :
  (BuildCommandXML "inquiry" Fixtures.toCamera Fixtures.demoWorld).1
  = Ok Fixtures.inquiryXML
  /\ ~ (TargetIP Fixtures.toCamera = "0.0.0.0"
        \/ TargetIP Fixtures.toCamera = EmptyString)
  /\ (SendCommand Fixtures.quietNet "inquiry" Fixtures.toCamera Fixtures.demoWorld).1
     = Err timeoutText
  /\ (SendCommand Fixtures.promptNet "inquiry" Fixtures.toCamera Fixtures.demoWorld).1
     = Ok "<ProbeMatch></ProbeMatch>".
Proof.
  assert (Hb : (BuildCommandXML "inquiry" Fixtures.toCamera Fixtures.demoWorld).1
               = Ok Fixtures.inquiryXML) by reflexivity.
  assert (Hany : ~ (TargetIP Fixtures.toCamera = "0.0.0.0"
                    \/ TargetIP Fixtures.toCamera = EmptyString)).
  { intros [H | H]; discriminate H. }
  split; [exact Hb|]. split; [exact Hany|]. split.
  - destruct (SendCommand_routes_and_times_out Fixtures.quietNet "inquiry"
                Fixtures.toCamera Fixtures.demoWorld) as (_ & _ & H & _).
    destruct (H _ Hb Hany eq_refl eq_refl) as (_ & _ & _ & _ & Hnever & _).
    exact (Hnever eq_refl).
  - destruct (SendCommand_routes_and_times_out Fixtures.promptNet "inquiry"
                Fixtures.toCamera Fixtures.demoWorld) as (_ & _ & H & _).
    destruct (H _ Hb Hany eq_refl eq_refl) as (_ & _ & _ & Hafter & _).
    destruct (Hafter _ _ eq_refl) as (Hin & _).
    apply Hin. reflexivity.
Defined.

End SendFacts.

(** *** parseResponse *)

Module ParseFacts.
Import GoStr GoStrFacts Sadp.

Lemma map_bytes_map_bytes f g s :
  map_bytes f (map_bytes g s) = map_bytes (fun c => f (g c)) s.
Proof. induction s as [|c s IH]; simpl; [reflexivity | now rewrite IH]. Qed.

Lemma map_bytes_ext f g s :
  (forall c, f c = g c) -> map_bytes f s = map_bytes g s.
Proof. intros E. induction s as [|c s IH]; simpl; [reflexivity | now rewrite E, IH]. Qed.

Lemma allBytes_map_bytes p f s :
  (forall c, p (f c) = true) -> allBytes p (map_bytes f s) = true.
Proof. intros E. induction s as [|c s IH]; simpl; [reflexivity | now rewrite E, IH]. Qed.

Ltac every_byte c := destruct c as [[] [] [] [] [] [] [] []]; reflexivity.

Lemma normalized_byte_canonical c :
  canonicalMACByte (upper_byte (if Ascii.eqb c "-" then ":"%char else c)) = true.
Proof. every_byte c. Qed.



Lemma normalized_canonical m :
  allBytes canonicalMACByte (ToUpper (ReplaceAll m "-" ":")) = true.
Proof.
  unfold ToUpper, ReplaceAll. rewrite map_bytes_map_bytes.
  apply allBytes_map_bytes. intros c. apply normalized_byte_canonical.
Qed.





End ParseFacts.

(** *** ExpandCIDR *)

Module CIDRFacts.
Import GoStr Network.

(** **** Byte slices as numbers *)

Lemma ipValue_app pre suf :
  ipValue (pre ++ suf) = ipValue pre * 256 ^ Z.of_nat (length suf) + ipValue suf.
Proof.
  induction pre as [|b pre IH]; simpl; [lia|].
  rewrite IH, length_app, Nat2Z.inj_add, Z.pow_add_r by lia. ring.
Qed.

Lemma ipValue_snoc pre b : ipValue (pre ++ [b]) = ipValue pre * 256 + b.
Proof. rewrite ipValue_app. simpl. lia. Qed.

Lemma ipValue_range ip :
  Forall isByte ip -> 0 <= ipValue ip < 256 ^ Z.of_nat (length ip).
Proof.
  induction 1 as [|b ip Hb _ IH]; simpl length; simpl ipValue; [simpl; lia|].
  rewrite Nat2Z.inj_succ, Z.pow_succ_r by lia. unfold isByte in Hb.
  assert (0 < 256 ^ Z.of_nat (length ip)) by (apply Z.pow_pos_nonneg; lia).
  nia.
Qed.

Lemma ipValue_inj ip1 ip2 :
  length ip1 = length ip2 -> Forall isByte ip1 -> Forall isByte ip2 ->
  ipValue ip1 = ipValue ip2 -> ip1 = ip2.
Proof.
  revert ip2. induction ip1 as [|a ip1 IH]; intros [|b ip2] Hlen H1 H2 Hv;
    simpl in Hlen; try discriminate; [reflexivity|].
  injection Hlen as Hlen. inversion H1 as [|? ? Ha H1']; subst.
  inversion H2 as [|? ? Hb H2']; subst. simpl in Hv. rewrite Hlen in Hv.
  pose proof (ipValue_range _ H1') as R1. pose proof (ipValue_range _ H2') as R2.
  rewrite Hlen in R1. set (p := 256 ^ Z.of_nat (length ip2)) in *.
  assert (a = b) by nia. subst b. f_equal. apply IH; try assumption. lia.
Qed.

Lemma addrOf_length l v : length (addrOf l v) = l.
Proof. induction l as [|l IH]; simpl; congruence. Qed.

Lemma addrOf_bytes l v : Forall isByte (addrOf l v).
Proof.
  induction l as [|l IH]; simpl; constructor; [|exact IH].
  unfold isByte. apply Z.mod_pos_bound. lia.
Qed.

Lemma ipValue_addrOf l v : ipValue (addrOf l v) = v mod 256 ^ Z.of_nat l.
Proof.
  induction l as [|l IH]; [simpl; now rewrite Z.mod_1_r|].
  simpl ipValue. rewrite addrOf_length, IH.
  rewrite Nat2Z.inj_succ, Z.pow_succ_r by lia.
  set (p := 256 ^ Z.of_nat l). assert (0 < p) by (apply Z.pow_pos_nonneg; lia).
  rewrite (Z.mul_comm 256 p), Z.rem_mul_r by lia. lia.
Qed.

Lemma addrOf_ipValue ip : Forall isByte ip -> addrOf (length ip) (ipValue ip) = ip.
Proof.
  intros H. apply ipValue_inj; [apply addrOf_length | apply addrOf_bytes | exact H |].
  rewrite ipValue_addrOf. apply Z.mod_small, ipValue_range, H.
Qed.

Lemma addrOf_mod l v : addrOf l (v mod 256 ^ Z.of_nat l) = addrOf l v.
Proof.
  apply ipValue_inj; [now rewrite !addrOf_length | apply addrOf_bytes..|].
  rewrite !ipValue_addrOf. apply Z.mod_mod.
  assert (0 < 256 ^ Z.of_nat l) by (apply Z.pow_pos_nonneg; lia). lia.
Qed.

(** **** incrementIP adds one, wrapping around *)

Lemma incrementFrom_S j ip :
  incrementFrom (S j) ip =
    match ip !! j with
    | None => ip
    | Some b =>
        if 0 <? byte (b + 1) then <[j := byte (b + 1)]> ip
        else incrementFrom j (<[j := byte (b + 1)]> ip)
    end.
Proof. reflexivity. Qed.

Lemma incrementFrom_app j : forall pre suf,
  (j <= length pre)%nat ->
  incrementFrom j (pre ++ suf) = incrementFrom j pre ++ suf.
Proof.
  induction j as [|j IH]; intros pre suf Hj; [reflexivity|].
  rewrite !incrementFrom_S. rewrite lookup_app_l by lia.
  destruct (pre !! j) as [b|] eqn:Hb; [|reflexivity].
  rewrite insert_app_l by lia.
  destruct (0 <? byte (b + 1)); [reflexivity|].
  apply IH. rewrite length_insert. lia.
Qed.

Lemma incrementIP_snoc pre b :
  incrementIP (pre ++ [b]) =
    if 0 <? byte (b + 1) then pre ++ [byte (b + 1)]
    else incrementIP pre ++ [byte (b + 1)].
Proof.
  unfold incrementIP. rewrite length_app. simpl length.
  replace (length pre + 1)%nat with (S (length pre)) by lia.
  rewrite incrementFrom_S, list_lookup_middle by reflexivity.
  rewrite insert_app_r_alt by lia. rewrite Nat.sub_diag.
  change (<[0%nat := byte (b + 1)]> [b]) with [byte (b + 1)].
  destruct (0 <? byte (b + 1)); [reflexivity|].
  now apply incrementFrom_app.
Qed.

Lemma incrementIP_spec ip :
  Forall isByte ip ->
  ipValue (incrementIP ip) = (ipValue ip + 1) mod 256 ^ Z.of_nat (length ip)
  /\ length (incrementIP ip) = length ip
  /\ Forall isByte (incrementIP ip).
Proof.
  induction ip as [|b pre IH] using rev_ind; intros Hb.
  - split; [simpl; now rewrite Z.mod_1_r | split; [reflexivity | constructor]].
  - apply Forall_app in Hb as [Hpre Hb]. inversion Hb as [|? ? Hb' _]; subst.
    destruct (IH Hpre) as (IHv & IHl & IHb).
    pose proof (ipValue_range _ Hpre) as R.
    rewrite incrementIP_snoc, length_app. simpl length.
    rewrite Nat2Z.inj_add, Z.pow_add_r by lia. change (256 ^ Z.of_nat 1) with 256.
    set (p := 256 ^ Z.of_nat (length pre)) in *. unfold isByte, byte in *.
    destruct (Z.eq_dec b 255) as [->|Hne].
    + change ((255 + 1) mod 256) with 0. change (0 <? 0) with false. cbv iota.
      rewrite !ipValue_snoc, IHv, length_app, IHl. simpl length.
      split; [|split; [reflexivity|]].
      * replace (ipValue pre * 256 + 255 + 1) with ((ipValue pre + 1) * 256) by ring.
        rewrite Z.mul_mod_distr_r by lia. lia.
      * apply Forall_app. split; [exact IHb | repeat constructor; lia].
    + rewrite (Z.mod_small (b + 1)) by lia.
      destruct (Z.ltb_spec 0 (b + 1)); [|lia].
      rewrite !ipValue_snoc, length_app. simpl length.
      split; [|split; [reflexivity|]].
      * rewrite Z.mod_small; nia.
      * apply Forall_app. split; [exact Hpre | repeat constructor; lia].
Qed.

Lemma incrementIP_addrOf l v : incrementIP (addrOf l v) = addrOf l (v + 1).
Proof.
  destruct (incrementIP_spec (addrOf l v) (addrOf_bytes l v)) as (Hv & Hl & Hb).
  apply ipValue_inj; [now rewrite Hl, !addrOf_length | exact Hb | apply addrOf_bytes |].
  rewrite Hv, addrOf_length, !ipValue_addrOf.
  assert (0 < 256 ^ Z.of_nat l) by (apply Z.pow_pos_nonneg; lia).
  rewrite Zplus_mod_idemp_l. reflexivity.
Qed.

(** **** Masking, bit by bit *)

Lemma testbit_concat x y n i :
  0 <= n -> 0 <= y < 2 ^ n -> 0 <= i ->
  Z.testbit (x * 2 ^ n + y) i = if i <? n then Z.testbit y i else Z.testbit x (i - n).
Proof.
  intros Hn Hy Hi. destruct (Z.ltb_spec i n).
  - rewrite <- (Z.mod_pow2_bits_low (x * 2 ^ n + y) n i) by lia.
    rewrite Z.add_comm, Z.mod_add by lia. now rewrite Z.mod_small.
  - replace i with ((i - n) + n) at 1 by lia.
    rewrite <- Z.div_pow2_bits by lia.
    rewrite Z.add_comm, Z.div_add by lia. now rewrite Z.div_small.
Qed.

Lemma land_below a b n : 0 <= n -> 0 <= a < 2 ^ n -> 0 <= b -> 0 <= Z.land a b < 2 ^ n.
Proof.
  intros Hn Ha Hb.
  assert (E : Z.land a b = Z.land a b mod 2 ^ n).
  { rewrite <- Z.land_ones by lia. rewrite (Z.land_comm a b), <- Z.land_assoc.
    rewrite Z.land_ones, (Z.mod_small a) by lia. reflexivity. }
  rewrite E. apply Z.mod_pos_bound. lia.
Qed.

Lemma land_concat a b c d n :
  0 <= n -> 0 <= b < 2 ^ n -> 0 <= d < 2 ^ n ->
  Z.land (a * 2 ^ n + b) (c * 2 ^ n + d) = Z.land a c * 2 ^ n + Z.land b d.
Proof.
  intros Hn Hb Hd. apply Z.bits_inj'. intros i Hi.
  pose proof (land_below b d n Hn Hb ltac:(lia)) as Hbd.
  rewrite Z.land_spec, !testbit_concat by assumption.
  destruct (i <? n); now rewrite Z.land_spec.
Qed.

Lemma maskBytes_spec ip : forall m,
  length ip = length m -> Forall isByte ip -> Forall isByte m ->
  ipValue (maskBytes ip m) = Z.land (ipValue ip) (ipValue m)
  /\ length (maskBytes ip m) = length ip
  /\ Forall isByte (maskBytes ip m).
Proof.
  induction ip as [|b ip IH]; intros [|c m] Hlen Hip Hm; simpl in Hlen;
    try discriminate.
  - repeat split. constructor.
  - injection Hlen as Hlen. inversion Hip as [|? ? Hb Hip']; subst.
    inversion Hm as [|? ? Hc Hm']; subst.
    destruct (IH m Hlen Hip' Hm') as (IHv & IHl & IHb).
    pose proof (ipValue_range _ Hip') as R1. pose proof (ipValue_range _ Hm') as R2.
    simpl. rewrite IHl, IHv, <- Hlen. rewrite <- Hlen in R2.
    replace (256 ^ Z.of_nat (length ip)) with (2 ^ (8 * Z.of_nat (length ip))) in *
      by (rewrite Z.pow_mul_r by lia; reflexivity).
    rewrite land_concat by lia.
    split; [reflexivity|]. split; [reflexivity|]. constructor; [|exact IHb].
    unfold isByte in *. apply (land_below b c 8); lia.
Qed.

(** And-ing with the mask of [h] host bits clears the [h] low bits. *)
Lemma land_cidr_mask v h bits :
  0 <= h <= bits -> 0 <= v < 2 ^ bits ->
  Z.land v (2 ^ bits - 2 ^ h) = 2 ^ h * (v / 2 ^ h).
Proof.
  intros Hh Hv. apply Z.bits_inj'. intros i Hi.
  replace (2 ^ bits - 2 ^ h) with (Z.ones (bits - h) * 2 ^ h).
  2:{ rewrite Z.ones_equiv, Z.mul_pred_l, <- Z.pow_add_r by lia.
      replace (bits - h + h) with bits by lia. lia. }
  rewrite Z.land_spec, (Z.mul_comm (2 ^ h)), !Z.mul_pow2_bits by lia.
  destruct (Z.ltb_spec i h) as [Hlt | Hge].
  - rewrite !(Z.testbit_neg_r _ (i - h)) by lia. apply andb_false_r.
  - rewrite Z.div_pow2_bits by lia. replace (i - h + h) with i by lia.
    destruct (Z.ltb_spec i bits) as [Hlt | Hge'].
    + rewrite Z.ones_spec_low by lia. apply andb_true_r.
    + rewrite Z.ones_spec_high by lia.
      rewrite <- (Z.mod_small v (2 ^ bits)) by lia.
      rewrite Z.mod_pow2_bits_high by lia. reflexivity.
Qed.

(** **** The masks of the 33 prefix lengths of IPv4 and the 129 of IPv6 *)

Lemma all_masks_check : forallb maskChecks (seqZ 0 33) = true.
Proof. vm_compute. reflexivity. Qed.

Lemma all_masks_check6 : forallb (maskChecksOf 128) (seqZ 0 129) = true.
Proof. vm_compute. reflexivity. Qed.

Lemma mask_facts_of bits ones :
  bits = 32 \/ bits = 128 -> 0 <= ones <= bits ->
  Z.of_nat (length (CIDRMask ones bits)) * 8 = bits
  /\ Forall isByte (CIDRMask ones bits)
  /\ ipValue (CIDRMask ones bits) = 2 ^ bits - 2 ^ (bits - ones)
  /\ IPMask_Size (CIDRMask ones bits) = (ones, bits).
Proof.
  intros Hb H.
  assert (Hall : maskChecksOf bits ones = true).
  { destruct Hb as [-> | ->].
    - pose proof all_masks_check as A. rewrite forallb_forall in A.
      apply (A ones), list_elem_of_In, elem_of_seqZ. lia.
    - pose proof all_masks_check6 as A. rewrite forallb_forall in A.
      apply (A ones), list_elem_of_In, elem_of_seqZ. lia. }
  unfold maskChecksOf in Hall.
  destruct (IPMask_Size (CIDRMask ones bits)) as [o b].
  repeat (apply andb_true_iff in Hall as [Hall ?]).
  split; [lia|]. split; [|split; [lia | f_equal; lia]].
  apply Forall_forall. intros x Hx.
  match goal with
  | Hf : forallb _ _ = true |- _ => rewrite forallb_forall in Hf; specialize (Hf x)
  end.
  unfold isByte. apply list_elem_of_In in Hx.
  match goal with
  | Hf : In x _ -> _ |- _ => specialize (Hf Hx)
  end.
  lia.
Qed.

Lemma mask_facts ones :
  0 <= ones <= 32 ->
  length (CIDRMask ones 32) = 4%nat
  /\ Forall isByte (CIDRMask ones 32)
  /\ ipValue (CIDRMask ones 32) = 2 ^ 32 - 2 ^ (32 - ones)
  /\ IPMask_Size (CIDRMask ones 32) = (ones, 32).
Proof.
  intros H. destruct (mask_facts_of 32 ones (or_introl eq_refl) H) as (L & B & V & S).
  split; [lia|]. split; [exact B|]. split; [exact V | exact S].
Qed.

(** **** The two families *)

Lemma wfIP_v4 ip : wfIPv4 ip -> wfIP ip.
Proof. intros [Hl Hb]. split; [left; exact Hl | exact Hb]. Qed.

Lemma bitsOf_v4 ip : length ip = 4%nat -> bitsOf ip = 32.
Proof. intros H. unfold bitsOf. rewrite H. reflexivity. Qed.

Lemma bitsOf_v6 ip : length ip = IPv6len -> bitsOf ip = 128.
Proof. intros H. unfold bitsOf. rewrite H. reflexivity. Qed.

Lemma bitsOf_cases ip : wfIP ip -> bitsOf ip = 32 \/ bitsOf ip = 128.
Proof. intros [[H|H] _]; [left; now apply bitsOf_v4 | right; now apply bitsOf_v6]. Qed.

Lemma bitsOf_pow ip : 256 ^ Z.of_nat (length ip) = 2 ^ bitsOf ip.
Proof. unfold bitsOf. rewrite Z.pow_mul_r by lia. reflexivity. Qed.

Lemma wfIP_range ip : Forall isByte ip -> 0 <= ipValue ip < 2 ^ bitsOf ip.
Proof. intros Hb. rewrite <- bitsOf_pow. now apply ipValue_range. Qed.

Lemma addrOf_wfIP ip v : wfIP ip -> wfIP (addrOf (length ip) v).
Proof.
  intros [Hl _]. split; [now rewrite addrOf_length | apply addrOf_bytes].
Qed.

Lemma ipValue_addrOf_small ip v :
  0 <= v < 2 ^ bitsOf ip -> ipValue (addrOf (length ip) v) = v.
Proof. intros H. rewrite ipValue_addrOf, bitsOf_pow. now apply Z.mod_small. Qed.

(** **** Masking an address of either family *)

Lemma masked_value_of ip ones :
  wfIP ip -> 0 <= ones <= bitsOf ip ->
  ipValue (maskBytes ip (CIDRMask ones (bitsOf ip))) = blockStart ip (bitsOf ip - ones)
  /\ length (maskBytes ip (CIDRMask ones (bitsOf ip))) = length ip
  /\ Forall isByte (maskBytes ip (CIDRMask ones (bitsOf ip)))
  /\ length (CIDRMask ones (bitsOf ip)) = length ip.
Proof.
  intros W Ho. pose proof (bitsOf_cases ip W) as Hc. destruct W as [Hl Hb].
  destruct (mask_facts_of (bitsOf ip) ones Hc Ho) as (Ml & Mb & Mv & _).
  assert (Ml' : length (CIDRMask ones (bitsOf ip)) = length ip)
    by (unfold bitsOf in Ml at 2; lia).
  destruct (maskBytes_spec ip (CIDRMask ones (bitsOf ip))) as (Hv & Hl' & Hb');
    [congruence | assumption | assumption |].
  pose proof (wfIP_range _ Hb) as R.
  split; [|split; [exact Hl' | split; [exact Hb' | exact Ml']]].
  rewrite Hv, Mv. unfold blockStart. apply land_cidr_mask; lia.
Qed.

Lemma IP_Mask_same ip m : length ip = length m -> IP_Mask ip m = maskBytes ip m.
Proof.
  intros H. unfold IP_Mask. cbv zeta.
  destruct ((length m =? IPv6len)%nat && (length ip =? IPv4len)%nat
            && allFF (take 12 m)) eqn:E1.
  { exfalso. apply andb_true_iff in E1 as [E1 _]. apply andb_true_iff in E1 as [E1 E2].
    apply Nat.eqb_eq in E1, E2. unfold IPv6len, IPv4len in *. lia. }
  destruct ((length m =? IPv4len)%nat && (length ip =? IPv6len)%nat
            && sameBytes (take 12 ip) v4InV6Prefix) eqn:E2.
  { exfalso. apply andb_true_iff in E2 as [E2 _]. apply andb_true_iff in E2 as [E2 E3].
    apply Nat.eqb_eq in E2, E3. unfold IPv6len, IPv4len in *. lia. }
  rewrite H, Nat.eqb_refl. reflexivity.
Qed.

(** The address that [net.ParseCIDR] returns, in sixteen bytes, is masked
    as the address that was written. *)
Lemma IP_Mask_As16 ip m :
  length ip = IPv4len \/ length ip = IPv6len -> length m = length ip ->
  IP_Mask (As16 ip) m = maskBytes ip m.
Proof.
  intros [Hl|Hl] Hm.
  - destruct ip as [|a [|b [|c [|d [|]]]]]; try discriminate Hl.
    destruct m as [|m0 [|m1 [|m2 [|m3 [|]]]]]; try discriminate Hm. reflexivity.
  - unfold As16. rewrite Hl. change ((IPv6len =? IPv4len)%nat) with false. cbv iota.
    apply IP_Mask_same. congruence.
Qed.

Lemma parsedNet_spec ip ones :
  wfIP ip -> 0 <= ones <= bitsOf ip ->
  parsedNet ip ones
  = mkIPNet (maskBytes ip (CIDRMask ones (bitsOf ip))) (CIDRMask ones (bitsOf ip)).
Proof.
  intros W Ho. destruct (masked_value_of ip ones W Ho) as (_ & _ & _ & Ml).
  unfold parsedNet. cbv zeta. rewrite IP_Mask_As16; [reflexivity | apply W | exact Ml].
Qed.

(** **** Membership in the network *)

Lemma sameUnderMask_iff nn : forall m ip,
  length nn = length m -> length ip = length m ->
  sameUnderMask nn m ip = true <-> maskBytes nn m = maskBytes ip m.
Proof.
  induction nn as [|a nn IH]; intros [|b m] [|c ip] H1 H2; simpl in *;
    try discriminate; [tauto|].
  injection H1 as H1. injection H2 as H2.
  rewrite andb_true_iff, Z.eqb_eq, (IH m ip H1 H2). split.
  - intros [-> ->]. reflexivity.
  - intros [= -> ->]. split; reflexivity.
Qed.

Lemma sameUnderMask_drop k : forall nn m x,
  length nn = length m -> take k nn = take k x ->
  sameUnderMask nn m x = sameUnderMask (drop k nn) (drop k m) (drop k x).
Proof.
  induction k as [|k IH]; intros nn m x Hl E; [reflexivity|].
  destruct nn as [|a nn], x as [|c x]; try discriminate E.
  - destruct m; reflexivity.
  - injection E as -> E. destruct m as [|b m]; [discriminate Hl|].
    injection Hl as Hl.
    cbn [drop sameUnderMask]. rewrite Z.eqb_refl. cbn [andb]. now apply IH.
Qed.

Lemma sameBytes_eq a : forall b, sameBytes a b = true <-> a = b.
Proof.
  induction a as [|x a IH]; intros [|y b]; cbn [sameBytes];
    try (split; [discriminate | discriminate]); [tauto|].
  rewrite andb_true_iff, Z.eqb_eq, IH. split; [intros [-> ->]; reflexivity|].
  intros [= -> ->]. split; reflexivity.
Qed.

(** Two addresses of a family are the same under the mask of a prefix
    length when they agree above the host bits. *)
Lemma sameUnderMask_value nn x ones :
  wfIP nn -> Forall isByte x -> length x = length nn -> 0 <= ones <= bitsOf nn ->
  sameUnderMask nn (CIDRMask ones (bitsOf nn)) x = true
  <-> ipValue nn / 2 ^ (bitsOf nn - ones) = ipValue x / 2 ^ (bitsOf nn - ones).
Proof.
  intros W Hb Hl Ho.
  assert (Wx : wfIP x) by (split; [rewrite Hl; apply W | exact Hb]).
  assert (Bx : bitsOf x = bitsOf nn) by (unfold bitsOf; now rewrite Hl).
  destruct (masked_value_of nn ones W Ho) as (V & L & B & Ml).
  destruct (masked_value_of x ones Wx ltac:(now rewrite Bx)) as (Vx & Lx & Bx' & _).
  rewrite Bx in Vx, Lx, Bx'.
  rewrite sameUnderMask_iff by congruence.
  assert (Hp : 0 < 2 ^ (bitsOf nn - ones)) by (apply Z.pow_pos_nonneg; lia).
  unfold blockStart in V, Vx. split.
  - intros E. apply (f_equal ipValue) in E. rewrite V, Vx in E. nia.
  - intros E. apply ipValue_inj; [congruence | assumption | assumption |].
    rewrite V, Vx, E. reflexivity.
Qed.

(** An address in sixteen bytes is an IPv4 address when its number,
    without the last 32 bits, is 65535. *)
Lemma mapped_value x :
  length x = IPv6len -> Forall isByte x ->
  sameBytes (take 12 x) v4InV6Prefix = true <-> ipValue x / 2 ^ 32 = 65535.
Proof.
  intros Hl Hb. rewrite sameBytes_eq.
  assert (Ht : Forall isByte (take 12 x)) by now apply Forall_take.
  assert (Hd : Forall isByte (drop 12 x)) by now apply Forall_drop.
  assert (Lt : length (take 12 x) = 12%nat)
    by (rewrite length_take, Hl; reflexivity).
  assert (Ld : length (drop 12 x) = 4%nat)
    by (rewrite length_drop, Hl; reflexivity).
  pose proof (ipValue_range _ Hd) as Rd. rewrite Ld in Rd.
  change (256 ^ Z.of_nat 4) with (2 ^ 32) in Rd.
  assert (E : ipValue x / 2 ^ 32 = ipValue (take 12 x)).
  { rewrite <- (take_drop 12 x) at 1. rewrite ipValue_app, Ld.
    change (256 ^ Z.of_nat 4) with (2 ^ 32).
    rewrite Z.div_add_l by lia. rewrite (Z.div_small (ipValue (drop 12 x))) by lia.
    lia. }
  rewrite E. split.
  - intros ->. reflexivity.
  - intros Hv. apply ipValue_inj; [rewrite Lt; reflexivity | exact Ht | |].
    + repeat constructor; unfold isByte; lia.
    + rewrite Hv. reflexivity.
Qed.

Lemma To4_v6 x :
  length x = IPv6len ->
  To4 x = if sameBytes (take 12 x) v4InV6Prefix then Some (drop 12 x) else None.
Proof. intros H. unfold To4. rewrite H. reflexivity. Qed.

Lemma Contains_v4 nn m x :
  length nn = 4%nat -> length m = 4%nat -> length x = 4%nat ->
  IPNet_Contains (mkIPNet nn m) x = sameUnderMask nn m x.
Proof.
  intros Hn Hm Hx.
  destruct nn as [|n0 [|n1 [|n2 [|n3 [|]]]]]; try discriminate Hn.
  destruct m as [|m0 [|m1 [|m2 [|m3 [|]]]]]; try discriminate Hm.
  destruct x as [|x0 [|x1 [|x2 [|x3 [|]]]]]; try discriminate Hx.
  reflexivity.
Qed.

(** In sixteen bytes, an IPv4 address is outside a network that is not
    one of IPv4 addresses, and the other way round. *)
Lemma Contains_v6 nn m x :
  length nn = IPv6len -> length m = IPv6len -> length x = IPv6len ->
  IPNet_Contains (mkIPNet nn m) x
  = Bool.eqb (sameBytes (take 12 nn) v4InV6Prefix) (sameBytes (take 12 x) v4InV6Prefix)
    && sameUnderMask nn m x.
Proof.
  intros Hn Hm Hx. unfold IPNet_Contains, networkNumberAndMask. cbn [netIP netMask].
  rewrite (To4_v6 nn Hn), (To4_v6 x Hx), Hn, Hm.
  change ((IPv6len =? IPv4len)%nat) with false.
  change ((IPv6len =? IPv6len)%nat) with true. cbv iota.
  destruct (sameBytes (take 12 nn) v4InV6Prefix) eqn:En,
           (sameBytes (take 12 x) v4InV6Prefix) eqn:Ex; cbn [Bool.eqb andb].
  - assert (Ld : forall l : list Z, length l = IPv6len -> length (drop 12 l) = IPv4len).
    { intros l H. rewrite length_drop, H. reflexivity. }
    rewrite (Ld nn Hn). change ((IPv4len =? IPv4len)%nat) with true. cbv iota.
    rewrite (Ld nn Hn), (Ld x Hx). change ((IPv4len =? IPv4len)%nat) with true.
    cbn [negb]. symmetry. apply sameUnderMask_drop; [congruence|].
    apply sameBytes_eq in En, Ex. congruence.
  - assert (Ld : length (drop 12 nn) = IPv4len)
      by (rewrite length_drop, Hn; reflexivity).
    rewrite Ld. change ((IPv4len =? IPv4len)%nat) with true. cbv iota.
    rewrite Ld, Hx. reflexivity.
  - rewrite Hn. change ((IPv6len =? IPv4len)%nat) with false. cbv iota.
    rewrite Hn. assert (Ld : length (drop 12 x) = IPv4len)
      by (rewrite length_drop, Hx; reflexivity).
    rewrite Ld. reflexivity.
  - rewrite Hn. change ((IPv6len =? IPv4len)%nat) with false. cbv iota.
    rewrite Hn, Hx. reflexivity.
Qed.

Lemma blockStart_bounds_of ip h :
  Forall isByte ip -> 0 <= h <= bitsOf ip ->
  0 <= blockStart ip h /\ blockStart ip h + 2 ^ h <= 2 ^ bitsOf ip
  /\ blockStart ip h / 2 ^ h = ipValue ip / 2 ^ h.
Proof.
  intros Hb Hh. pose proof (wfIP_range _ Hb) as R. unfold blockStart.
  assert (Hp : 0 < 2 ^ h) by (apply Z.pow_pos_nonneg; lia).
  assert (E : 2 ^ bitsOf ip = 2 ^ h * 2 ^ (bitsOf ip - h)).
  { rewrite <- Z.pow_add_r by lia. f_equal. lia. }
  assert (Hq : 0 <= ipValue ip / 2 ^ h < 2 ^ (bitsOf ip - h)).
  { split; [apply Z.div_pos; lia|]. apply Z.div_lt_upper_bound; lia. }
  split; [nia|]. split; [nia|].
  rewrite Z.mul_comm, Z.div_mul by lia. reflexivity.
Qed.

Lemma blockStart_bounds ip h :
  wfIPv4 ip -> 0 <= h <= 32 ->
  0 <= blockStart ip h /\ blockStart ip h + 2 ^ h <= 2 ^ 32
  /\ blockStart ip h / 2 ^ h = ipValue ip / 2 ^ h.
Proof.
  intros [Hl Hb] Hh. rewrite <- (bitsOf_v4 ip Hl). apply blockStart_bounds_of; [exact Hb|].
  now rewrite (bitsOf_v4 ip Hl).
Qed.

(** An address is in the network of a prefix when it agrees with the
    prefix above the host bits and, in sixteen bytes, is an IPv4 address
    if and only if the network number is one. *)
Lemma Contains_value ip0 ones x :
  wfIP ip0 -> Forall isByte x -> length x = length ip0 -> 0 <= ones <= bitsOf ip0 ->
  IPNet_Contains (parsedNet ip0 ones) x = true
  <-> ipValue x / 2 ^ (bitsOf ip0 - ones) = ipValue ip0 / 2 ^ (bitsOf ip0 - ones)
      /\ (length ip0 = IPv6len ->
          (blockStart ip0 (bitsOf ip0 - ones) / 2 ^ 32 = 65535
           <-> ipValue x / 2 ^ 32 = 65535)).
Proof.
  intros W Hb Hl Ho. rewrite parsedNet_spec by assumption.
  destruct (masked_value_of ip0 ones W Ho) as (V & L & B & Ml).
  set (m := CIDRMask ones (bitsOf ip0)) in *.
  set (nn := maskBytes ip0 m) in *.
  assert (Wn : wfIP nn) by (split; [rewrite L; apply W | exact B]).
  assert (Bn : bitsOf nn = bitsOf ip0) by (unfold bitsOf; now rewrite L).
  destruct (blockStart_bounds_of ip0 (bitsOf ip0 - ones) (proj2 W) ltac:(lia))
    as (_ & _ & Bq).
  assert (S : sameUnderMask nn m x = true
              <-> ipValue x / 2 ^ (bitsOf ip0 - ones)
                  = ipValue ip0 / 2 ^ (bitsOf ip0 - ones)).
  { assert (Hln : length x = length nn) by (now rewrite Hl, L).
    assert (Hon : 0 <= ones <= bitsOf nn) by now rewrite Bn.
    pose proof (sameUnderMask_value nn x ones Wn Hb Hln Hon) as S.
    rewrite Bn in S. fold m in S. rewrite S, V, Bq. split; congruence. }
  destruct W as [[W4|W6] Wb].
  - rewrite Contains_v4 by (unfold IPv4len in W4; congruence). rewrite S. split; [|tauto].
    intros E. split; [exact E|]. intros H6. rewrite H6 in W4. discriminate W4.
  - rewrite Contains_v6 by congruence. rewrite andb_true_iff, S.
    pose proof (mapped_value nn ltac:(congruence) B) as Mn.
    pose proof (mapped_value x ltac:(congruence) Hb) as Mx.
    rewrite V in Mn.
    destruct Mn as [Mn1 Mn2], Mx as [Mx1 Mx2].
    destruct (sameBytes (take 12 nn) v4InV6Prefix), (sameBytes (take 12 x) v4InV6Prefix);
      cbn [Bool.eqb]; (split; [intros [F E]; try discriminate F | intros [E H]]).
    + split; [exact E|]. intros _. split; intros _; auto.
    + split; [reflexivity | exact E].
    + specialize (H W6). destruct H as [H _]. specialize (H (Mn1 eq_refl)).
      apply Mx2 in H. discriminate H.
    + specialize (H W6). destruct H as [_ H]. specialize (H (Mx1 eq_refl)).
      apply Mn2 in H. discriminate H.
    + split; [exact E|]. intros _.
      split; intros H; [apply Mn2 in H | apply Mx2 in H]; discriminate H.
    + split; [reflexivity | exact E].
Qed.

(** **** The loop *)

Lemma expandLoop_S fuel ipnet ip ips :
  expandLoop (S fuel) ipnet ip ips =
    if IPNet_Contains ipnet ip then
      let (ones, bits) := IPMask_Size (netMask ipnet) in
      if (bits - ones <=? 8) && ((lastOctet ip =? 0) || (lastOctet ip =? 255))
      then expandLoop fuel ipnet (incrementIP ip) ips
      else expandLoop fuel ipnet (incrementIP ip) (ips ++ [IP_String ip])
    else Some ips.
Proof. reflexivity. Qed.

Lemma addrOf_wf v : wfIPv4 (addrOf 4 v).
Proof. split; [apply addrOf_length | apply addrOf_bytes]. Qed.

Lemma ipValue_addrOf4 v : 0 <= v < 2 ^ 32 -> ipValue (addrOf 4 v) = v.
Proof.
  intros H. rewrite ipValue_addrOf. change (256 ^ Z.of_nat 4) with (2 ^ 32).
  now apply Z.mod_small.
Qed.

Lemma filter_map_cons {A B} (f : A -> B) (p : B -> bool) x l :
  List.filter p (map f (x :: l))
  = if p (f x) then f x :: List.filter p (map f l) else List.filter p (map f l).
Proof. reflexivity. Qed.

(** The loop over a run of [N] addresses in the network, the next one
    being outside: from the [k]-th on, each is kept or passed over. *)
Lemma expandLoop_run ipnet l B ones bits N :
  IPMask_Size (netMask ipnet) = (ones, bits) ->
  (forall k, 0 <= k < N -> IPNet_Contains ipnet (addrOf l (B + k)) = true) ->
  IPNet_Contains ipnet (addrOf l (B + N)) = false ->
  forall n k acc fuel,
    0 <= k -> k + Z.of_nat n = N -> (n < fuel)%nat ->
    expandLoop fuel ipnet (addrOf l (B + k)) acc
    = Some (acc ++ map IP_String
                     (List.filter (kept (bits - ones))
                        (map (fun j => addrOf l (B + j)) (seqZ k (Z.of_nat n))))).
Proof.
  intros Hsize Hin Hout.
  induction n as [|n IH]; intros k acc fuel Hk Hsum Hfuel;
    (destruct fuel as [|fuel]; [lia|]); rewrite expandLoop_S.
  - replace k with N by lia. rewrite Hout. simpl. now rewrite app_nil_r.
  - rewrite Hin by lia. rewrite Hsize.
    rewrite incrementIP_addrOf, <- Z.add_assoc.
    rewrite seqZ_cons by lia.
    replace (Z.pred (Z.of_nat (S n))) with (Z.of_nat n) by lia.
    replace (Z.succ k) with (k + 1) by lia.
    rewrite filter_map_cons.
    set (a := addrOf l (B + k)).
    assert (K : kept (bits - ones) a
                = negb ((bits - ones <=? 8) && ((lastOctet a =? 0) || (lastOctet a =? 255))))
      by reflexivity.
    destruct ((bits - ones <=? 8) && ((lastOctet a =? 0) || (lastOctet a =? 255)));
      rewrite K; simpl negb; cbv iota.
    + apply IH; lia.
    + rewrite IH by lia. rewrite <- app_assoc. reflexivity.
Qed.

(** **** The addresses the loop visits *)

Lemma holdsMapped_spec ip h :
  holdsMapped ip h = true
  <-> length ip = IPv6len /\ 32 < h
      /\ blockStart ip h <= mappedStart < blockStart ip h + 2 ^ h.
Proof.
  unfold holdsMapped. rewrite !andb_true_iff, Nat.eqb_eq, Z.ltb_lt, Z.leb_le, Z.ltb_lt.
  tauto.
Qed.

Lemma holdsMapped_v4 ip h : length ip = IPv4len -> holdsMapped ip h = false.
Proof. intros H. unfold holdsMapped. rewrite H. reflexivity. Qed.

Lemma mapped_range x :
  x / 2 ^ 32 = 65535 <-> mappedStart <= x < mappedStart + 2 ^ 32.
Proof.
  unfold mappedStart. change (2 ^ 32) with 4294967296.
  pose proof (Z.div_mod x 4294967296 ltac:(lia)) as D.
  pose proof (Z.mod_pos_bound x 4294967296 ltac:(lia)) as M. lia.
Qed.

(** The first address of a prefix shorter than [/96] is no IPv4
    address. *)
Lemma blockStart_not_mapped ip h :
  32 < h -> blockStart ip h <> mappedStart.
Proof.
  intros Hh E. unfold blockStart, mappedStart in E.
  replace (2 ^ h) with (2 ^ 33 * 2 ^ (h - 33)) in E
    by (rewrite <- Z.pow_add_r by lia; f_equal; lia).
  change (2 ^ 33) with 8589934592 in E. change (2 ^ 32) with 4294967296 in E.
  set (t := 2 ^ (h - 33) * (ipValue ip / (8589934592 * 2 ^ (h - 33)))) in *.
  assert (E' : 8589934592 * t = 65535 * 4294967296) by (subst t; lia).
  lia.
Qed.

(** The number of addresses the loop visits: all of the prefix, or those
    before [::ffff:0.0.0.0]. *)
Lemma visited_bounds ip h :
  Forall isByte ip -> 0 <= h <= bitsOf ip ->
  0 < (if holdsMapped ip h then mappedStart - blockStart ip h else 2 ^ h) <= 2 ^ h.
Proof.
  intros Hb Hh. assert (Hp : 0 < 2 ^ h) by (apply Z.pow_pos_nonneg; lia).
  destruct (holdsMapped ip h) eqn:E; [|lia].
  apply holdsMapped_spec in E as (_ & H32 & H1 & H2).
  pose proof (blockStart_not_mapped ip h H32). lia.
Qed.

Lemma inside_run ip0 ones k :
  wfIP ip0 -> 0 <= ones <= bitsOf ip0 ->
  0 <= k < (if holdsMapped ip0 (bitsOf ip0 - ones)
            then mappedStart - blockStart ip0 (bitsOf ip0 - ones)
            else 2 ^ (bitsOf ip0 - ones)) ->
  IPNet_Contains (parsedNet ip0 ones)
    (addrOf (length ip0) (blockStart ip0 (bitsOf ip0 - ones) + k)) = true.
Proof.
  intros W Ho Hk. set (h := bitsOf ip0 - ones) in *.
  pose proof (visited_bounds ip0 h (proj2 W) ltac:(lia)) as Hv.
  destruct (blockStart_bounds_of ip0 h (proj2 W) ltac:(lia)) as (B0 & B1 & Bq).
  assert (Hp : 0 < 2 ^ h) by (apply Z.pow_pos_nonneg; lia).
  assert (Ev : ipValue (addrOf (length ip0) (blockStart ip0 h + k)) = blockStart ip0 h + k)
    by (apply ipValue_addrOf_small; lia).
  assert (Eq : (blockStart ip0 h + k) / 2 ^ h = blockStart ip0 h / 2 ^ h).
  { unfold blockStart. rewrite (Z.mul_comm (2 ^ h)), Z.div_add_l by lia.
    rewrite (Z.div_small k) by lia. rewrite Z.div_mul by lia. lia. }
  apply Contains_value; [assumption | apply addrOf_bytes | apply addrOf_length | assumption |].
  fold h. rewrite Ev. split; [now rewrite Eq, Bq|].
  intros H6. rewrite !mapped_range.
  destruct (holdsMapped ip0 h) eqn:E.
  - apply holdsMapped_spec in E as (_ & H32 & H1 & H2).
    pose proof (blockStart_not_mapped ip0 h H32). lia.
  - destruct (Z.le_gt_cases h 32) as [Hle | Hgt].
    + rewrite <- !mapped_range.
      assert (D : forall x, 0 <= x -> x / 2 ^ 32 = x / 2 ^ h / 2 ^ (32 - h)).
      { intros x Hx. rewrite Z.div_div by lia. rewrite <- Z.pow_add_r by lia.
        do 2 f_equal. lia. }
      rewrite (D (blockStart ip0 h)), (D (blockStart ip0 h + k)) by lia.
      rewrite Eq. tauto.
    + assert (N : ~ (blockStart ip0 h <= mappedStart < blockStart ip0 h + 2 ^ h)).
      { intros C. assert (T : holdsMapped ip0 h = true)
          by (apply holdsMapped_spec; auto with zarith).
        rewrite T in E. discriminate E. }
      assert (M : exists s, blockStart ip0 h = 4294967296 * s).
      { exists (2 ^ (h - 32) * (ipValue ip0 / 2 ^ h)). unfold blockStart.
        replace (2 ^ h) with (2 ^ 32 * 2 ^ (h - 32)) at 1
          by (rewrite <- Z.pow_add_r by lia; f_equal; lia).
        change (2 ^ 32) with 4294967296. ring. }
      destruct M as [s M]. unfold mappedStart in *.
      change (2 ^ 32) with 4294967296 in *. lia.
Qed.

Lemma past_run ip0 ones :
  wfIP ip0 -> 0 <= ones <= bitsOf ip0 -> (length ip0 = IPv4len -> 1 <= ones) ->
  IPNet_Contains (parsedNet ip0 ones)
    (addrOf (length ip0)
       (blockStart ip0 (bitsOf ip0 - ones)
        + (if holdsMapped ip0 (bitsOf ip0 - ones)
           then mappedStart - blockStart ip0 (bitsOf ip0 - ones)
           else 2 ^ (bitsOf ip0 - ones)))) = false.
Proof.
  intros W Ho H4. set (h := bitsOf ip0 - ones) in *.
  destruct (blockStart_bounds_of ip0 h (proj2 W) ltac:(lia)) as (B0 & B1 & Bq).
  assert (Hp : 0 < 2 ^ h) by (apply Z.pow_pos_nonneg; lia).
  apply not_true_is_false. intros C.
  apply Contains_value in C;
    [|assumption | apply addrOf_bytes | apply addrOf_length | assumption].
  fold h in C. destruct C as [C1 C2].
  destruct (holdsMapped ip0 h) eqn:E.
  - apply holdsMapped_spec in E as (H6 & H32 & H1 & H2).
    pose proof (blockStart_not_mapped ip0 h H32) as Hn.
    specialize (C2 H6).
    replace (blockStart ip0 h + (mappedStart - blockStart ip0 h)) with mappedStart
      in C2 by ring.
    rewrite ipValue_addrOf_small in C2 by lia.
    rewrite !mapped_range in C2. lia.
  - assert (H1 : 1 <= ones).
    { destruct W as [[W4|W6] Wb]; [auto|].
      destruct (Z.eq_dec ones 0) as [Hz|]; [|lia]. exfalso.
      assert (T : holdsMapped ip0 h = true).
      { apply holdsMapped_spec. pose proof (bitsOf_v6 ip0 W6) as B6.
        assert (Hh : h = 128) by (subst h; lia).
        split; [exact W6|]. split; [lia|].
        assert (Z0 : blockStart ip0 h = 0).
        { unfold blockStart. rewrite Z.div_small; [lia|].
          pose proof (wfIP_range ip0 Wb). rewrite Hh, <- B6. lia. }
        rewrite Z0, Hh. unfold mappedStart. split; [lia | reflexivity]. }
      rewrite T in E. discriminate E. }
    clear C2. rewrite <- Bq in C1. rewrite ipValue_addrOf, bitsOf_pow in C1.
    assert (Eq : blockStart ip0 h = 2 ^ h * (ipValue ip0 / 2 ^ h)) by reflexivity.
    destruct (Z.eq_dec (blockStart ip0 h + 2 ^ h) (2 ^ bitsOf ip0)) as [E' | N].
    + rewrite E', Z.mod_same, Z.div_0_l in C1 by lia.
      assert (Eb : 2 ^ bitsOf ip0 = 2 ^ h * 2 ^ (bitsOf ip0 - h)).
      { rewrite <- Z.pow_add_r by lia. f_equal. lia. }
      assert (2 <= 2 ^ (bitsOf ip0 - h)).
      { change 2 with (2 ^ 1) at 1. apply Z.pow_le_mono_r; lia. }
      rewrite Bq in C1. nia.
    + rewrite Z.mod_small in C1 by lia.
      replace (blockStart ip0 h + 2 ^ h) with ((ipValue ip0 / 2 ^ h + 1) * 2 ^ h) in C1
        by (rewrite Eq; ring).
      rewrite Z.div_mul in C1 by lia. rewrite Bq in C1. lia.
Qed.

(** **** ExpandCIDR on a parsed prefix *)

Lemma ExpandCIDR_visits np cidr ip ones fuel :
  ParseCIDR np cidr = Ok (ip, ones) -> wfIP ip -> 0 <= ones <= bitsOf ip ->
  (length ip = IPv4len -> 1 <= ones) ->
  (if holdsMapped ip (bitsOf ip - ones)
   then mappedStart - blockStart ip (bitsOf ip - ones)
   else 2 ^ (bitsOf ip - ones)) < Z.of_nat fuel ->
  ExpandCIDR np fuel cidr
  = Some (Ok (map IP_String
                (List.filter (kept (bitsOf ip - ones))
                   (map (fun k => addrOf (length ip)
                                    (blockStart ip (bitsOf ip - ones) + k))
                      (seqZ 0 (if holdsMapped ip (bitsOf ip - ones)
                               then mappedStart - blockStart ip (bitsOf ip - ones)
                               else 2 ^ (bitsOf ip - ones))))))).
Proof.
  intros Hp W Ho H4 Hfuel. unfold ExpandCIDR. rewrite Hp. cbv zeta.
  set (h := bitsOf ip - ones) in *.
  set (N := if holdsMapped ip h then mappedStart - blockStart ip h else 2 ^ h) in *.
  pose proof (visited_bounds ip h (proj2 W) ltac:(lia)) as Hv. fold N in Hv.
  destruct (masked_value_of ip ones W Ho) as (Hv' & Hl & Hb & Ml).
  destruct (mask_facts_of (bitsOf ip) ones (bitsOf_cases ip W) Ho) as (_ & _ & _ & Hsize).
  assert (Em : netMask (parsedNet ip ones) = CIDRMask ones (bitsOf ip)) by reflexivity.
  assert (Es : IP_Mask (As16 ip) (netMask (parsedNet ip ones))
               = addrOf (length ip) (blockStart ip h + 0)).
  { rewrite Em, IP_Mask_As16; [|apply W | exact Ml].
    rewrite <- (addrOf_ipValue _ Hb), Hl, Hv', Z.add_0_r. reflexivity. }
  rewrite Es.
  rewrite (expandLoop_run (parsedNet ip ones) (length ip) (blockStart ip h) ones
             (bitsOf ip) N) with (n := Z.to_nat N).
  - rewrite Z2Nat.id by lia. reflexivity.
  - now rewrite Em.
  - intros k Hk. now apply inside_run.
  - now apply past_run.
  - lia.
  - lia.
  - lia.
Qed.

Lemma inside_block ip0 ones k :
  wfIPv4 ip0 -> 0 <= ones <= 32 -> 0 <= k < 2 ^ (32 - ones) ->
  IPNet_Contains (parsedNet ip0 ones)
    (addrOf 4 (blockStart ip0 (32 - ones) + k)) = true.
Proof.
  intros W0 Ho Hk. pose proof (bitsOf_v4 ip0 (proj1 W0)) as B4.
  pose proof (inside_run ip0 ones k (wfIP_v4 ip0 W0)) as H.
  rewrite (holdsMapped_v4 ip0 _ (proj1 W0)), B4, (proj1 W0) in H.
  apply H; lia.
Qed.

Lemma ExpandCIDR_result np cidr ip ones fuel :
  ParseCIDR np cidr = Ok (ip, ones) -> wfIPv4 ip -> 1 <= ones <= 32 ->
  2 ^ (32 - ones) < Z.of_nat fuel ->
  ExpandCIDR np fuel cidr
  = Some (Ok (map IP_String (List.filter (kept (32 - ones)) (block ip (32 - ones))))).
Proof.
  intros Hp W Ho Hfuel. pose proof (bitsOf_v4 ip (proj1 W)) as B4.
  pose proof (ExpandCIDR_visits np cidr ip ones fuel Hp (wfIP_v4 ip W)) as H.
  rewrite (holdsMapped_v4 ip _ (proj1 W)), B4 in H.
  unfold block. apply H; lia.
Qed.

(** With prefix length 0 every IPv4 address is in the network, the address
    wraps around at the top, and the loop never ends. *)
Lemma expandLoop_slash0 ip0 fuel : forall ip acc,
  length ip = 4%nat -> length ip0 = 4%nat ->
  expandLoop fuel (parsedNet ip0 0) ip acc = None.
Proof.
  induction fuel as [|fuel IH]; intros ip acc Hl Hl0; [reflexivity|].
  rewrite expandLoop_S.
  assert (C : IPNet_Contains (parsedNet ip0 0) ip = true).
  { destruct ip0 as [|a [|b [|c [|d [|]]]]]; try discriminate.
    destruct ip as [|a' [|b' [|c' [|d' [|]]]]]; try discriminate.
    change (parsedNet [a; b; c; d] 0)
      with (mkIPNet [Z.land a 0; Z.land b 0; Z.land c 0; Z.land d 0] [0; 0; 0; 0]).
    rewrite Contains_v4 by reflexivity. cbn [sameUnderMask].
    now rewrite !Z.land_0_r. }
  rewrite C.
  assert (Hinc : length (incrementIP ip) = 4%nat).
  { unfold incrementIP. rewrite Hl. clear -Hl.
    assert (G : forall j l, length (incrementFrom j l) = length l).
    { induction j as [|j IHj]; intros l; [reflexivity|].
      rewrite incrementFrom_S. destruct (l !! j) as [b|]; [|reflexivity].
      destruct (0 <? byte (b + 1)); [|rewrite IHj]; apply length_insert. }
    now rewrite G. }
  destruct (IPMask_Size (netMask (parsedNet ip0 0))) as [o b].
  destruct ((b - o <=? 8) && ((lastOctet ip =? 0) || (lastOctet ip =? 255)));
    now apply IH.
Qed.

Lemma ExpandCIDR_slash0_never_returns np cidr ip fuel :
  ParseCIDR np cidr = Ok (ip, 0) -> length ip = 4%nat ->
  ExpandCIDR np fuel cidr = None.
Proof.
  intros Hp Hl. unfold ExpandCIDR. rewrite Hp. cbv zeta.
  rewrite expandLoop_slash0; [reflexivity | | exact Hl].
  destruct ip as [|a [|b [|c [|d [|]]]]]; try discriminate. reflexivity.
Qed.

(** **** Which addresses are passed over, and how many are left *)

Lemma lastOctet_addrOf l v : (0 < l)%nat -> lastOctet (addrOf l v) = v mod 256.
Proof.
  unfold lastOctet. induction l as [|l IH]; intros Hl; [lia|].
  destruct l as [|l'].
  - simpl. change (256 ^ Z.of_nat 0) with 1. now rewrite Z.div_1_r.
  - change (addrOf (S (S l')) v)
      with ((v / 256 ^ Z.of_nat (S l')) mod 256 :: addrOf (S l') v).
    rewrite <- IH by lia. reflexivity.
Qed.

Lemma wfIP_nonempty ip : wfIP ip -> (0 < length ip)%nat.
Proof. intros [[H|H] _]; rewrite H; unfold IPv4len, IPv6len; lia. Qed.

Lemma filter_all {A} (p : A -> bool) l :
  (forall x, In x l -> p x = true) -> List.filter p l = l.
Proof.
  induction l as [|x l IH]; intros H; [reflexivity|]. simpl.
  rewrite (H x) by (left; reflexivity). f_equal. apply IH. intros y Hy.
  apply H. now right.
Qed.

Lemma filter_map_swap {A B} (f : A -> B) (p : B -> bool) l :
  List.filter p (map f l) = map f (List.filter (fun x => p (f x)) l).
Proof.
  induction l as [|x l IH]; [reflexivity|]. simpl.
  destruct (p (f x)); simpl; now rewrite IH.
Qed.

Lemma block_length ip h : 0 <= h -> Z.of_nat (length (block ip h)) = 2 ^ h.
Proof.
  intros Hh. unfold block. rewrite length_map, length_seqZ.
  assert (0 < 2 ^ h) by (apply Z.pow_pos_nonneg; lia). lia.
Qed.

(** The kept addresses of a block of at most 256, by their offset. *)
Lemma kept_by_offset ip h :
  wfIP ip -> 0 <= h <= 8 ->
  List.filter (kept h) (block ip h)
  = map (fun k => addrOf (length ip) (blockStart ip h + k))
      (List.filter (fun k => negb ((blockStart ip h mod 256 + k =? 0)
                                   || (blockStart ip h mod 256 + k =? 255)))
         (seqZ 0 (2 ^ h))).
Proof.
  intros W Hh. unfold block. rewrite filter_map_swap. f_equal.
  apply filter_ext_in. intros k Hk.
  apply list_elem_of_In, elem_of_seqZ in Hk.
  unfold kept. rewrite lastOctet_addrOf by now apply wfIP_nonempty.
  destruct (Z.leb_spec h 8); [|lia]. simpl andb.
  assert (Hp : 0 < 2 ^ h) by (apply Z.pow_pos_nonneg; lia).
  assert (E8 : 256 = 2 ^ h * 2 ^ (8 - h)).
  { rewrite <- Z.pow_add_r by lia. replace (h + (8 - h)) with 8 by lia. reflexivity. }
  assert (Hq : 0 < 2 ^ (8 - h)) by (apply Z.pow_pos_nonneg; lia).
  assert (Hlo : blockStart ip h mod 256
                = 2 ^ h * ((ipValue ip / 2 ^ h) mod 2 ^ (8 - h))).
  { unfold blockStart. rewrite E8. now rewrite Z.mul_mod_distr_l by lia. }
  pose proof (Z.mod_pos_bound (ipValue ip / 2 ^ h) (2 ^ (8 - h)) Hq) as Hm.
  assert (Hsmall : 0 <= blockStart ip h mod 256 + k < 256) by nia.
  replace ((blockStart ip h + k) mod 256) with (blockStart ip h mod 256 + k).
  - reflexivity.
  - rewrite <- (Z.mod_small _ 256 Hsmall) at 1.
    rewrite Zplus_mod_idemp_l. reflexivity.
Qed.

Lemma slash24_count ip :
  wfIP ip -> length (List.filter (kept 8) (block ip 8)) = 254%nat.
Proof.
  intros W. rewrite kept_by_offset by (assumption || lia). rewrite length_map.
  assert (E : blockStart ip 8 mod 256 = 0).
  { unfold blockStart. change (2 ^ 8) with 256. rewrite Z.mul_comm. apply Z.mod_mul. lia. }
  rewrite E. vm_compute. reflexivity.
Qed.

(** With 8 host bits, all addresses but the first and the last are kept. *)
Lemma slash24_kept ip :
  wfIP ip ->
  List.filter (kept 8) (block ip 8)
  = map (fun k => addrOf (length ip) (blockStart ip 8 + k)) (seqZ 1 254).
Proof.
  intros W. rewrite kept_by_offset by (assumption || lia).
  assert (E : blockStart ip 8 mod 256 = 0).
  { unfold blockStart. change (2 ^ 8) with 256. rewrite Z.mul_comm. apply Z.mod_mul. lia. }
  rewrite E. f_equal.
Qed.

Lemma slash30_count ip :
  wfIP ip ->
  let first := blockStart ip 2 mod 256 in
  let n := length (List.filter (kept 2) (block ip 2)) in
  (n = 3%nat \/ n = 4%nat) /\ (n = 3%nat <-> first = 0 \/ first = 252).
Proof.
  intros W first n. subst n. rewrite kept_by_offset by (assumption || lia).
  rewrite length_map. fold first.
  assert (Hf : 0 <= first <= 252).
  { subst first. unfold blockStart. change (2 ^ 2) with 4.
    change 256 with (4 * 64). rewrite Z.mul_mod_distr_l by lia.
    pose proof (Z.mod_pos_bound (ipValue ip / 4) 64 ltac:(lia)). lia. }
  change (seqZ 0 (2 ^ 2)) with [0; 1; 2; 3]. simpl List.filter.
  destruct (Z.eqb_spec (first + 0) 0), (Z.eqb_spec (first + 0) 255),
    (Z.eqb_spec (first + 1) 0), (Z.eqb_spec (first + 1) 255),
    (Z.eqb_spec (first + 2) 0), (Z.eqb_spec (first + 2) 255),
    (Z.eqb_spec (first + 3) 0), (Z.eqb_spec (first + 3) 255);
    simpl; try lia; (split; [auto | split; intros; try lia; try discriminate]).
Qed.

(** The text of addresses, as package [net] prints them. *)
Lemma IP_String_examples :
  map IP_String
    [ [192; 168; 1; 64];
      [0; 0; 0; 0; 0; 0; 0; 0; 0; 0; 255; 255; 10; 0; 0; 1];
      [32; 1; 13; 184; 0; 0; 0; 0; 0; 0; 0; 0; 0; 0; 0; 1];
      [0; 0; 0; 0; 0; 0; 0; 0; 0; 0; 0; 0; 0; 0; 0; 0];
      [254; 128; 0; 0; 0; 0; 0; 0; 2; 0; 0; 0; 0; 0; 171; 205];
      [32; 1; 0; 0; 0; 0; 0; 1; 0; 0; 0; 0; 0; 0; 0; 1] ]
  = [ "192.168.1.64"; "10.0.0.1"; "2001:db8::1"; "::"; "fe80::200:0:0:abcd";
      "2001:0:0:1::1" ].
Proof. vm_compute. reflexivity. Qed.

(** Two host bits of an IPv6 prefix: the first address ends in 0 and is
    passed over, the other three are returned. *)
Lemma ExpandCIDR_example6 :
  ExpandCIDR Fixtures.sixParser 10 "2001:db8::a00/126"
  = Some (Ok ["2001:db8::a01"; "2001:db8::a02"; "2001:db8::a03"]).
Proof. vm_compute. reflexivity. Qed.

(** C2, as the code has it.  For a prefix of either family, IPv4 in four
    bytes with a length of 1 to 32 or IPv6 in sixteen with a length of 0
    to 128, and with fuel for more turns than the prefix has addresses,
    [ExpandCIDR] returns.  When the host-bit count, the bits of the
    address minus the prefix length, is at most 8, the result is the
    addresses of the prefix in ascending order without exactly those whose
    last octet is 0 or 255.  So 8 host bits, an IPv4 /24 or an IPv6 /120,
    yield 254 results, all addresses but the first and the last; and 2
    host bits, an IPv4 /30 or an IPv6 /126, yield 3 results when the first
    address has 0 or 252 for its last octet, and 4 otherwise.  When the
    host-bit count is greater than 8, nothing is passed over: the result
    is every address of the prefix, unless the prefix is an IPv6 prefix
    shorter than /96 with the addresses ::ffff:a.b.c.d inside, for which
    [Contains] fails at ::ffff:0.0.0.0 and the result is the addresses of
    the prefix before that one. *)
Theorem ExpandCIDR_skips_last_octet_0_or_255 np cidr ip ones fuel :
  ParseCIDR np cidr = Ok (ip, ones) -> wfIP ip ->
  0 <= ones <= bitsOf ip -> (length ip = IPv4len -> 1 <= ones) ->
  2 ^ (bitsOf ip - ones) < Z.of_nat fuel ->
  exists ips,
    ExpandCIDR np fuel cidr = Some (Ok ips)
    /\ (bitsOf ip - ones <= 8 ->
        ips = map IP_String
                (List.filter
                   (fun a => negb ((lastOctet a =? 0) || (lastOctet a =? 255)))
                   (block ip (bitsOf ip - ones))))
    /\ (8 < bitsOf ip - ones -> holdsMapped ip (bitsOf ip - ones) = false ->
        ips = map IP_String (block ip (bitsOf ip - ones))
        /\ Z.of_nat (length ips) = 2 ^ (bitsOf ip - ones))
    /\ (holdsMapped ip (bitsOf ip - ones) = true ->
        ips = map IP_String
                (map (fun k => addrOf IPv6len (blockStart ip (bitsOf ip - ones) + k))
                   (seqZ 0 (mappedStart - blockStart ip (bitsOf ip - ones)))))
    /\ (bitsOf ip - ones = 8 ->
        length ips = 254%nat
        /\ ips = map IP_String
                  (map (fun k => addrOf (length ip) (blockStart ip 8 + k))
                     (seqZ 1 254)))
    /\ (bitsOf ip - ones = 2 ->
        (length ips = 3%nat \/ length ips = 4%nat)
        /\ (length ips = 3%nat <->
            blockStart ip 2 mod 256 = 0 \/ blockStart ip 2 mod 256 = 252)).
Proof.
  intros Hp W Ho H4 Hfuel. set (h := bitsOf ip - ones) in *.
  pose proof (visited_bounds ip h (proj2 W) ltac:(lia)) as Hv.
  eexists.
  split; [apply (ExpandCIDR_visits np cidr ip ones fuel Hp W Ho H4); fold h; lia|].
  fold h.
  assert (Hsmall : h <= 32 -> holdsMapped ip h = false).
  { intros Hh. destruct (holdsMapped ip h) eqn:E; [|reflexivity].
    apply holdsMapped_spec in E. lia. }
  split; [|split; [|split; [|split]]].
  - intros Hh. rewrite (Hsmall ltac:(lia)). fold (block ip h). f_equal.
    apply filter_ext. intros a. unfold kept.
    destruct (Z.leb_spec h 8); [reflexivity | lia].
  - intros Hh E. rewrite E. fold (block ip h).
    assert (F : List.filter (kept h) (block ip h) = block ip h).
    { apply filter_all. intros a _. unfold kept.
      destruct (Z.leb_spec h 8); [lia | reflexivity]. }
    rewrite F. split; [reflexivity|]. rewrite length_map. apply block_length. lia.
  - intros E. rewrite E. pose proof E as E'.
    apply holdsMapped_spec in E' as (H6 & H32 & _). rewrite H6. f_equal.
    apply filter_all. intros a _. unfold kept.
    destruct (Z.leb_spec h 8); [lia | reflexivity].
  - intros Hh. rewrite (Hsmall ltac:(lia)). fold (block ip h). rewrite Hh.
    rewrite length_map. split; [now apply slash24_count | f_equal; now apply slash24_kept].
  - intros Hh. rewrite (Hsmall ltac:(lia)). fold (block ip h). rewrite Hh.
    rewrite length_map. now apply slash30_count.
Qed.

Lemma ExpandCIDR_skips_last_octet_0_or_255_witness :
  (ParseCIDR Fixtures.toyParser "10.0.254.77/23" = Ok ([10; 0; 254; 77], 23)
   /\ wfIP [10; 0; 254; 77]
   /\ 2 ^ (bitsOf [10; 0; 254; 77] - 23) < Z.of_nat 600
   /\ exists ips,
       ExpandCIDR Fixtures.toyParser 600 "10.0.254.77/23" = Some (Ok ips)
       /\ Z.of_nat (length ips) = 2 ^ (32 - 23))
  /\ (ParseCIDR Fixtures.sixParser "2001:db8::a00/120" = Ok (Fixtures.docAddress6, 120)
      /\ wfIP Fixtures.docAddress6
      /\ 2 ^ (bitsOf Fixtures.docAddress6 - 120) < Z.of_nat 300
      /\ exists ips,
          ExpandCIDR Fixtures.sixParser 300 "2001:db8::a00/120" = Some (Ok ips)
          /\ length ips = 254%nat).
Proof.
  split.
  - assert (Hp : ParseCIDR Fixtures.toyParser "10.0.254.77/23"
                 = Ok ([10; 0; 254; 77], 23)) by reflexivity.
    assert (W : wfIP [10; 0; 254; 77]).
    { split; [left; reflexivity|]. repeat constructor; unfold isByte; lia. }
    assert (Hf : 2 ^ (bitsOf [10; 0; 254; 77] - 23) < Z.of_nat 600) by reflexivity.
    split; [exact Hp|]. split; [exact W|]. split; [exact Hf|].
    destruct (ExpandCIDR_skips_last_octet_0_or_255 Fixtures.toyParser
                "10.0.254.77/23" [10; 0; 254; 77] 23 600 Hp W
                ltac:(vm_compute; split; discriminate) ltac:(intros _; lia) Hf)
      as (ips & Hres & _ & Hbig & _).
    exists ips. split; [exact Hres|]. apply Hbig; reflexivity.
  - assert (Hp : ParseCIDR Fixtures.sixParser "2001:db8::a00/120"
                 = Ok (Fixtures.docAddress6, 120)) by reflexivity.
    assert (W : wfIP Fixtures.docAddress6).
    { split; [right; reflexivity|]. repeat constructor; unfold isByte; lia. }
    assert (Hf : 2 ^ (bitsOf Fixtures.docAddress6 - 120) < Z.of_nat 300)
      by reflexivity.
    split; [exact Hp|]. split; [exact W|]. split; [exact Hf|].
    destruct (ExpandCIDR_skips_last_octet_0_or_255 Fixtures.sixParser
                "2001:db8::a00/120" Fixtures.docAddress6 120 300 Hp W
                ltac:(vm_compute; split; discriminate)
                ltac:(intros E; discriminate E) Hf)
      as (ips & Hres & _ & _ & _ & H8 & _).
    exists ips. split; [exact Hres|]. apply H8. reflexivity.
Defined.

(** C2 as stated does not hold: the /30 at 192.168.1.0 yields three
    addresses, its broadcast address 192.168.1.3 among them, and the /30 at
    192.168.1.4 yields all four, its network and broadcast addresses
    included. *)
Lemma ExpandCIDR_slash30_not_two :
  ExpandCIDR Fixtures.toyParser 10 "192.168.1.0/30"
  = Some (Ok ["192.168.1.1"; "192.168.1.2"; "192.168.1.3"])
  /\ ExpandCIDR Fixtures.toyParser 10 "192.168.1.4/30"
     = Some (Ok ["192.168.1.4"; "192.168.1.5"; "192.168.1.6"; "192.168.1.7"])
  /\ ~ (forall cidr ip ips,
          ParseCIDR Fixtures.toyParser cidr = Ok (ip, 30) ->
          ExpandCIDR Fixtures.toyParser 10 cidr = Some (Ok ips) ->
          length ips = 2%nat).
Proof.
  split; [vm_compute; reflexivity|]. split; [vm_compute; reflexivity|].
  intros H.
  specialize (H "192.168.1.0/30" [192; 168; 1; 0]
                ["192.168.1.1"; "192.168.1.2"; "192.168.1.3"]).
  assert (E : length ["192.168.1.1"; "192.168.1.2"; "192.168.1.3"] = 2%nat).
  { apply H; vm_compute; reflexivity. }
  discriminate E.
Qed.

(** **** Further properties of incrementIP and ExpandCIDR *)

Lemma all255_value ip :
  Forall (fun b => b = 255) ip -> ipValue ip = 256 ^ Z.of_nat (length ip) - 1.
Proof.
  induction 1 as [|b ip -> _ IH]; [reflexivity|].
  simpl ipValue. simpl length. rewrite IH, Nat2Z.inj_succ, Z.pow_succ_r by lia. ring.
Qed.

Lemma zero_value_bytes ip :
  Forall isByte ip -> ipValue ip = 0 -> Forall (fun b => b = 0) ip.
Proof.
  induction 1 as [|b ip Hb Hip IH]; intros Hv; [constructor|].
  simpl in Hv. pose proof (ipValue_range _ Hip) as R. unfold isByte in Hb.
  assert (0 < 256 ^ Z.of_nat (length ip)) by (apply Z.pow_pos_nonneg; lia).
  assert (b = 0) by nia. subst b. constructor; [reflexivity|]. apply IH. lia.
Qed.

(** X1.  [incrementIP] adds one to the number the bytes stand for, big
    end first, modulo 256 to the number of bytes: the length is kept, every
    byte stays a byte, and the address of all 255 becomes the address of all
    zeros instead of growing. *)
Theorem incrementIP_adds_one_and_wraps (ip : list Z) :
  Forall isByte ip ->
  ipValue (incrementIP ip) = (ipValue ip + 1) mod 256 ^ Z.of_nat (length ip)
  /\ length (incrementIP ip) = length ip
  /\ Forall isByte (incrementIP ip)
  /\ (Forall (fun b => b = 255) ip -> Forall (fun b => b = 0) (incrementIP ip)).
Proof.
  intros Hb. destruct (incrementIP_spec ip Hb) as (Hv & Hl & Hb').
  repeat split; try assumption.
  intros Hall. apply zero_value_bytes; [exact Hb'|].
  rewrite Hv, (all255_value _ Hall).
  replace (256 ^ Z.of_nat (length ip) - 1 + 1) with (256 ^ Z.of_nat (length ip)) by ring.
  apply Z.mod_same.
  assert (0 < 256 ^ Z.of_nat (length ip)) by (apply Z.pow_pos_nonneg; lia). lia.
Qed.

Lemma incrementIP_adds_one_and_wraps_witness :
  Forall isByte [10; 0; 255; 255]
  /\ incrementIP [10; 0; 255; 255] = [10; 1; 0; 0]
  /\ ipValue (incrementIP [10; 0; 255; 255]) = ipValue [10; 0; 255; 255] + 1.
Proof.
  assert (Hb : Forall isByte [10; 0; 255; 255])
    by (repeat constructor; unfold isByte; lia).
  split; [exact Hb|]. split; [reflexivity|].
  destruct (incrementIP_adds_one_and_wraps [10; 0; 255; 255] Hb) as (Hv & _).
  rewrite Hv. reflexivity.
Defined.

(** X2.  A prefix of length 0 never comes back from [ExpandCIDR]: every
    address is inside the network and the address after
    255.255.255.255 is 0.0.0.0 again, so the loop uses up whatever fuel it
    is given. *)
Theorem ExpandCIDR_prefix_zero_never_returns np cidr (ip : list Z) :
  ParseCIDR np cidr = Ok (ip, 0) -> length ip = 4%nat ->
  forall fuel, ExpandCIDR np fuel cidr = None.
Proof. intros Hp Hl fuel. now apply (ExpandCIDR_slash0_never_returns np cidr ip). Qed.

Lemma ExpandCIDR_prefix_zero_never_returns_witness :
  ParseCIDR Fixtures.toyParser "0.0.0.0/0" = Ok ([0; 0; 0; 0], 0)
  /\ ExpandCIDR Fixtures.toyParser 1000 "0.0.0.0/0" = None.
Proof.
  assert (Hp : ParseCIDR Fixtures.toyParser "0.0.0.0/0" = Ok ([0; 0; 0; 0], 0))
    by reflexivity.
  split; [exact Hp|].
  exact (ExpandCIDR_prefix_zero_never_returns Fixtures.toyParser "0.0.0.0/0"
           [0; 0; 0; 0] Hp eq_refl 1000%nat).
Defined.

(** X3.  A host route, prefix length 32, yields its one address, unless
    that address ends in .0 or .255: then the result is the empty list,
    with no error. *)
Theorem ExpandCIDR_host_route np cidr (ip : list Z) fuel :
  ParseCIDR np cidr = Ok (ip, 32) -> wfIPv4 ip -> (2 <= fuel)%nat ->
  ExpandCIDR np fuel cidr
  = Some (Ok (if (lastOctet ip =? 0) || (lastOctet ip =? 255) then []
              else [IP_String ip])).
Proof.
  intros Hp W Hfuel.
  rewrite (ExpandCIDR_result np cidr ip 32 fuel Hp W ltac:(lia));
    [|change (2 ^ (32 - 32)) with 1; lia].
  destruct W as [Hl Hb].
  assert (E : block ip (32 - 32) = [ip]).
  { unfold block, blockStart. change (2 ^ (32 - 32)) with 1.
    change (seqZ 0 1) with [0]. cbn [map].
    rewrite Z.mul_1_l, Z.div_1_r, Z.add_0_r.
    now rewrite (addrOf_ipValue ip Hb). }
  rewrite E. simpl List.filter. unfold kept. change (32 - 32 <=? 8) with true.
  simpl andb. now destruct ((lastOctet ip =? 0) || (lastOctet ip =? 255)).
Qed.

Lemma ExpandCIDR_host_route_witness :
  ParseCIDR Fixtures.toyParser "10.1.2.255/32" = Ok ([10; 1; 2; 255], 32)
  /\ wfIPv4 [10; 1; 2; 255]
  /\ ExpandCIDR Fixtures.toyParser 2 "10.1.2.255/32" = Some (Ok []).
Proof.
  assert (Hp : ParseCIDR Fixtures.toyParser "10.1.2.255/32" = Ok ([10; 1; 2; 255], 32))
    by reflexivity.
  assert (W : wfIPv4 [10; 1; 2; 255]).
  { split; [reflexivity|]. repeat constructor; unfold isByte; lia. }
  split; [exact Hp|]. split; [exact W|].
  exact (ExpandCIDR_host_route Fixtures.toyParser "10.1.2.255/32" [10; 1; 2; 255] 2
           Hp W (le_n 2)).
Defined.

End CIDRFacts.

(** *** ToXML *)

Module ToXMLFacts.
Import GoStr GoStrFacts Sadp.

(** What [ToXML] itself contributes: the one value it hands to
    [xml.MarshalIndent] is the envelope with version 2.0 around the devices
    in input order, and on success the output is the XML declaration
    followed by the marshalled text.  What the marshalled text is, and
    what parsing it gives back, is decided by [encoding/xml]. *)
Lemma ToXML_envelope_and_header xc devs :
  (ToXML xc devs).2 = [EvMarshalIndent (mkDeviceList "2.0" devs)]
  /\ (forall output, xml_MarshalIndent xc (mkDeviceList "2.0" devs) = Ok output ->
        (ToXML xc devs).1 = Ok (xml_Header +:+ output)
        /\ String.prefix xml_Header (xml_Header +:+ output) = true)
  /\ (forall e, xml_MarshalIndent xc (mkDeviceList "2.0" devs) = Err e ->
        (ToXML xc devs).1 = Err e).
Proof.
  unfold ToXML. split; [|split].
  - now destruct (xml_MarshalIndent xc _).
  - intros output ->. split; [reflexivity | apply prefix_append].
  - now intros e ->.
Qed.

End ToXMLFacts.

(** *** IsValidMAC *)

Module MACFacts.
Import GoStr Network Hex GoStrFacts.

(** The groups [IsValidMAC] splits its argument into. *)
Lemma groups_cons c s :
  Split (ReplaceAll (String c s) "-" ":") ":"
  = if isSep c then EmptyString :: Split (ReplaceAll s "-" ":") ":"
    else match Split (ReplaceAll s "-" ":") ":" with
         | [] => [String c EmptyString]
         | p :: ps => String c p :: ps
         end.
Proof.
  unfold ReplaceAll, isSep. cbn [map_bytes Split].
  destruct (Ascii.eqb c "-") eqn:Hd; [reflexivity|].
  cbn [orb]. reflexivity.
Qed.

Lemma sep_not_hex c : isSep c = true -> isHexDigit c = false.
Proof.
  unfold isSep. intros H. apply orb_true_iff in H as [H|H];
    apply Ascii.eqb_eq in H; subst c; reflexivity.
Qed.

Lemma decodes_pair a b :
  decodes (String a (String b EmptyString)) = isHexDigit a && isHexDigit b.
Proof.
  unfold decodes, isHexDigit. cbn [DecodeString].
  destruct (hexVal a), (hexVal b); reflexivity.
Qed.

Lemma validParts_shape n : forall s,
  Nat.eqb (length (Split (ReplaceAll s "-" ":") ":")) n
  && validParts (Split (ReplaceAll s "-" ":") ":")
  = hexPairs n s.
Proof.
  induction n as [|n IH]; intros s.
  - pose proof (Split_nonempty (ReplaceAll s "-" ":") ":") as Hne.
    destruct (Split (ReplaceAll s "-" ":") ":"); [congruence|].
    destruct s; reflexivity.
  - destruct s as [|a s]; [now destruct n|].
    rewrite groups_cons. destruct (isSep a) eqn:Ha.
    { cbn [validParts]. change (len EmptyString =? 2) with false. cbn [negb].
      rewrite andb_false_r. apply sep_not_hex in Ha.
      destruct n as [|n], s as [|b [|c s]]; cbn [hexPairs]; now rewrite ?Ha. }
    destruct s as [|b s]; [now destruct n|].
    rewrite groups_cons. destruct (isSep b) eqn:Hb.
    { cbn [validParts]. change (len (String a EmptyString) =? 2) with false.
      cbn [negb]. rewrite andb_false_r. apply sep_not_hex in Hb.
      destruct n as [|n], s as [|c s]; cbn [hexPairs];
        now rewrite ?Hb, ?andb_false_r. }
    destruct s as [|c s].
    { cbn [ReplaceAll map_bytes Split validParts length].
      change (len (String a (String b EmptyString)) =? 2) with true. cbn [negb].
      rewrite decodes_pair.
      destruct n as [|n]; cbn [hexPairs Nat.eqb];
        destruct (isHexDigit a), (isHexDigit b); reflexivity. }
    rewrite groups_cons. destruct (isSep c) eqn:Hc.
    { cbn [validParts length Nat.eqb].
      change (len (String a (String b EmptyString)) =? 2) with true. cbn [negb].
      rewrite decodes_pair. specialize (IH s).
      assert (E : hexPairs (S n) (String a (String b (String c s)))
                  = isHexDigit a && isHexDigit b && isSep c && hexPairs n s)
        by (destruct n; reflexivity).
      rewrite E, Hc, <- IH.
      destruct (isHexDigit a), (isHexDigit b); cbn [negb andb]; try reflexivity.
      all: now rewrite ?andb_false_r. }
    pose proof (Split_nonempty (ReplaceAll s "-" ":") ":") as Hne.
    destruct (Split (ReplaceAll s "-" ":") ":") as [|g gs]; [congruence|].
    cbn [validParts].
    assert (L : (len (String a (String b (String c g))) =? 2) = false).
    { apply Z.eqb_neq. unfold len. cbn [String.length]. lia. }
    rewrite L. cbn [negb]. rewrite andb_false_r.
    destruct n; cbn [hexPairs]; now rewrite Hc, ?andb_false_r.
Qed.

Lemma hexPairs_length n : forall s,
  hexPairs n s = true -> String.length s = (3 * n - 1)%nat.
Proof.
  induction n as [|n IH]; intros s H; [destruct s; discriminate|].
  destruct s as [|a [|b [|c s]]]; try (destruct n; discriminate).
  - destruct n; [reflexivity | discriminate].
  - assert (E : hexPairs n s = true).
    { replace (hexPairs (S n) (String a (String b (String c s))))
        with (isHexDigit a && isHexDigit b && isSep c && hexPairs n s) in H
        by (destruct n; reflexivity).
      now apply andb_true_iff in H as [_ H]. }
    destruct n as [|n]; [destruct s; discriminate|].
    apply IH in E. cbn [String.length]. lia.
Qed.

Lemma hexPairs_map f n :
  (forall c, isHexDigit (f c) = isHexDigit c) ->
  (forall c, isSep (f c) = isSep c) ->
  forall s, hexPairs n (map_bytes f s) = hexPairs n s.
Proof.
  intros Hh Hs. induction n as [|n IH]; intros s; [destruct s; reflexivity|].
  destruct s as [|a [|b [|c s]]]; try (destruct n; reflexivity).
  - destruct n; cbn [map_bytes hexPairs]; now rewrite ?Hh.
  - destruct n as [|n]; cbn [map_bytes hexPairs].
    + now rewrite !andb_false_r.
    + rewrite !Hh, Hs. f_equal. apply (IH s).
Qed.

Ltac every_byte c :=
  destruct c as [[] [] [] [] [] [] [] []]; reflexivity.

Lemma lower_keeps_hex c : isHexDigit (lower_byte c) = isHexDigit c.
Proof. every_byte c. Qed.
Lemma lower_keeps_sep c : isSep (lower_byte c) = isSep c.
Proof. every_byte c. Qed.
Lemma upper_keeps_hex c : isHexDigit (upper_byte c) = isHexDigit c.
Proof. every_byte c. Qed.
Lemma upper_keeps_sep c : isSep (upper_byte c) = isSep c.
Proof. every_byte c. Qed.
Lemma colon_keeps_hex c :
  isHexDigit (if Ascii.eqb c "-" then ":"%char else c) = isHexDigit c.
Proof. every_byte c. Qed.
Lemma colon_keeps_sep c :
  isSep (if Ascii.eqb c "-" then ":"%char else c) = isSep c.
Proof. every_byte c. Qed.
Lemma dash_keeps_hex c :
  isHexDigit (if Ascii.eqb c ":" then "-"%char else c) = isHexDigit c.
Proof. every_byte c. Qed.
Lemma dash_keeps_sep c :
  isSep (if Ascii.eqb c ":" then "-"%char else c) = isSep c.
Proof. every_byte c. Qed.

Lemma IsValidMAC_hexPairs s : IsValidMAC s = hexPairs 6 s.
Proof.
  rewrite <- validParts_shape. unfold IsValidMAC.
  destruct (Nat.eqb_spec (length (Split (ReplaceAll s "-" ":") ":")) 6) as [E|E].
  - rewrite E. reflexivity.
  - assert ((Z.of_nat (length (Split (ReplaceAll s "-" ":") ":")) =? 6) = false)
      as -> by (apply Z.eqb_neq; lia).
    reflexivity.
Qed.

(** X4.  [IsValidMAC] accepts exactly the texts of six groups of two
    hexadecimal digits with one dash or colon between neighbours; such a
    text is 17 bytes long. *)
Theorem IsValidMAC_six_hex_pairs (s : string) :
  IsValidMAC s = hexPairs 6 s
  /\ (IsValidMAC s = true -> String.length s = 17%nat).
Proof.
  split; [apply IsValidMAC_hexPairs|].
  rewrite IsValidMAC_hexPairs. intros H. now apply hexPairs_length in H.
Qed.

(** X5.  The answer of [IsValidMAC] depends neither on the case of the
    letters nor on which of dash and colon separates the groups. *)
Theorem IsValidMAC_ignores_case_and_separator (s : string) :
  IsValidMAC (ToLower s) = IsValidMAC s
  /\ IsValidMAC (ToUpper s) = IsValidMAC s
  /\ IsValidMAC (ReplaceAll s "-" ":") = IsValidMAC s
  /\ IsValidMAC (ReplaceAll s ":" "-") = IsValidMAC s.
Proof.
  rewrite !IsValidMAC_hexPairs. unfold ToLower, ToUpper, ReplaceAll.
  repeat split; apply hexPairs_map;
    auto using lower_keeps_hex, lower_keeps_sep, upper_keeps_hex, upper_keeps_sep,
      colon_keeps_hex, colon_keeps_sep, dash_keeps_hex, dash_keeps_sep.
Qed.

End MACFacts.

(** *** ParseARPLine and the ARP table *)

Module ARPFacts.
Import GoStr Network Hex GoStrFacts MACFacts.

Lemma len_append s t : len (s +:+ t) = len s + len t.
Proof. unfold len. rewrite TruncateFacts.length_append. lia. Qed.

Lemma prefix_length p : forall s,
  String.prefix p s = true -> (String.length p <= String.length s)%nat.
Proof.
  induction p as [|a p IH]; intros s H; [simpl; lia|].
  destruct s as [|b s]; [discriminate|]. simpl in H.
  destruct (ascii_dec a b); [|discriminate]. apply IH in H. simpl. lia.
Qed.

Lemma Index_unfold s sub :
  Index s sub =
    if String.prefix sub s then 0
    else match s with
         | EmptyString => -1
         | String _ s' => let i := Index s' sub in if i <? 0 then -1 else i + 1
         end.
Proof. destruct s; reflexivity. Qed.

(** Where [Index] finds the text, the text fits. *)
Lemma Index_bounds sub : forall s,
  Index s sub = -1 \/ (0 <= Index s sub /\ Index s sub + len sub <= len s).
Proof.
  induction s as [|c s IH]; rewrite Index_unfold.
  - destruct (String.prefix sub EmptyString) eqn:Hp; [right|now left].
    apply prefix_length in Hp. unfold len. simpl in *. lia.
  - destruct (String.prefix sub (String c s)) eqn:Hp.
    + right. apply prefix_length in Hp. unfold len. lia.
    + cbv zeta. destruct (Z.ltb_spec (Index s sub) 0) as [Hlt|Hge]; [now left|].
      right. destruct IH as [IH|IH]; [lia|]. unfold len in *. simpl String.length. lia.
Qed.

(** The first place of a text whose first byte does not occur before. *)
Lemma Index_at c p u w :
  lacks c u = true -> String.prefix p w = true ->
  Index (u +:+ String c w) (String c p) = len u.
Proof.
  intros Hu Hp. induction u as [|a u IH].
  - rewrite append_empty_l, Index_unfold. simpl String.prefix.
    destruct (ascii_dec c c); [|congruence]. now rewrite Hp.
  - unfold lacks in Hu. cbn [allBytes] in Hu. apply andb_true_iff in Hu as [Ha Hu].
    specialize (IH Hu). rewrite append_cons, Index_unfold.
    assert (Hn : String.prefix (String c p) (String a (u +:+ String c w)) = false).
    { simpl. destruct (ascii_dec c a) as [->|]; [|reflexivity].
      rewrite Ascii.eqb_refl in Ha. discriminate. }
    rewrite Hn, IH. cbv zeta.
    assert (0 <= len u) by (unfold len; lia).
    destruct (Z.ltb_spec (len u) 0); [lia|]. unfold len. simpl String.length. lia.
Qed.

Lemma lacks_append c s t : lacks c (s +:+ t) = lacks c s && lacks c t.
Proof.
  unfold lacks. induction s as [|a s IH]; [reflexivity|].
  rewrite append_cons. cbn [allBytes]. now rewrite IH, andb_assoc.
Qed.

Lemma substring_skip u : forall n k s,
  substring (String.length u + n) k (u +:+ s) = substring n k s.
Proof. induction u as [|a u IH]; intros n k s; [reflexivity|]. apply IH. Qed.

Lemma substring_take m : forall v, substring 0 (String.length m) (m +:+ v) = m.
Proof.
  induction m as [|a m IH]; intros v; [destruct v; reflexivity|].
  rewrite append_cons. simpl. now rewrite IH.
Qed.

Lemma substring_middle u m v :
  substring (String.length u) (String.length m) (u +:+ m +:+ v) = m.
Proof.
  rewrite <- (Nat.add_0_r (String.length u)), substring_skip. apply substring_take.
Qed.

Lemma substring_rest u m :
  substring (String.length u) (String.length m) (u +:+ m) = m.
Proof.
  rewrite <- (append_empty_r m) at 2. apply substring_middle.
Qed.

(** **** Fields *)

Lemma fieldsFrom_nonempty : forall s cur,
  Forall (fun f => f <> EmptyString) (fieldsFrom s cur).
Proof.
  induction s as [|c s IH]; intros cur; cbn [fieldsFrom].
  - destruct (String.eqb_spec cur EmptyString); [constructor|].
    constructor; [assumption | constructor].
  - destruct (isSpace c); [|apply IH].
    destruct (String.eqb_spec cur EmptyString); [apply IH|].
    constructor; [assumption | apply IH].
Qed.

Lemma fieldsFrom_word m : forall t cur,
  noSpace m = true -> fieldsFrom (m +:+ t) cur = fieldsFrom t (cur +:+ m).
Proof.
  induction m as [|a m IH]; intros t cur H.
  - now rewrite append_empty_l, append_empty_r.
  - unfold noSpace in H. cbn [allBytes] in H. apply andb_true_iff in H as [Ha Hm].
    rewrite append_cons. cbn [fieldsFrom].
    destruct (isSpace a); [discriminate|].
    rewrite (IH t _ Hm), append_assoc. reflexivity.
Qed.

(** A word followed by nothing or by white space is the first field. *)
Lemma Fields_first_word m tail :
  m <> EmptyString -> noSpace m = true ->
  tail = EmptyString \/ (exists c t, tail = String c t /\ isSpace c = true) ->
  exists fs, Fields (m +:+ tail) = m :: fs.
Proof.
  intros Hne Hm Ht. unfold Fields. rewrite (fieldsFrom_word m tail _ Hm), append_empty_l.
  destruct Ht as [->|(c & t & -> & Hc)]; cbn [fieldsFrom]; rewrite ?Hc;
    destruct (String.eqb_spec m EmptyString); try congruence; eauto.
Qed.

(** **** The bytes of a MAC that was accepted *)

Lemma map_bytes_compose f g s :
  map_bytes f (map_bytes g s) = map_bytes (fun c => f (g c)) s.
Proof. induction s as [|c s IH]; [reflexivity|]. cbn [map_bytes]. now rewrite IH. Qed.

Lemma IsValidMAC_ToLower s : IsValidMAC (ToLower s) = IsValidMAC s.
Proof.
  rewrite !IsValidMAC_hexPairs. apply hexPairs_map;
    auto using lower_keeps_hex, lower_keeps_sep.
Qed.

Lemma normal_byte c :
  (fun c => (fun x => if Ascii.eqb x "-" then ":"%char else x) (lower_byte c))
    (lower_byte (if Ascii.eqb c "-" then ":"%char else c))
  = lower_byte (if Ascii.eqb c "-" then ":"%char else c).
Proof. destruct c as [[] [] [] [] [] [] [] []]; reflexivity. Qed.

Lemma normalizeMAC_fixed f :
  normalizeMAC (ToLower (ReplaceAll f "-" ":")) = ToLower (ReplaceAll f "-" ":").
Proof.
  unfold normalizeMAC, ToLower, ReplaceAll. rewrite !map_bytes_compose.
  apply ParseFacts.map_bytes_ext. intros c. apply normal_byte.
Qed.

Lemma firstMAC_valid fs :
  firstMAC fs <> EmptyString ->
  IsValidMAC (firstMAC fs) = true /\ normalizeMAC (firstMAC fs) = firstMAC fs.
Proof.
  induction fs as [|f fs IH]; cbn [firstMAC]; [congruence|].
  cbv zeta. destruct (IsValidMAC (ReplaceAll f "-" ":")) eqn:E; [|exact IH].
  intros _. split; [now rewrite IsValidMAC_ToLower | apply normalizeMAC_fixed].
Qed.

Lemma ParseARPLine_total np line : exists ip mac, ParseARPLine np line = Some (ip, mac).
Proof.
  unfold ParseARPLine. set (l := TrimSpace line). cbv zeta.
  destruct (String.eqb l EmptyString); [eauto|].
  destruct (Contains l ") at ").
  2:{ match goal with |- context [Some ?p] => destruct p as [ip mac] end. eauto. }
  assert (Hip : exists ip,
    (if negb (Index l "(" =? -1) && negb (Index l ")" =? -1) && (Index l "(" <? Index l ")")
     then slice l (Index l "(" + 1) (Index l ")") else Some EmptyString) = Some ip).
  { destruct (negb (Index l "(" =? -1) && negb (Index l ")" =? -1)
              && (Index l "(" <? Index l ")")) eqn:C; [|eauto].
    apply andb_true_iff in C as [C C3]. apply andb_true_iff in C as [C1 C2].
    apply negb_true_iff, Z.eqb_neq in C1. apply negb_true_iff, Z.eqb_neq in C2.
    apply Z.ltb_lt in C3.
    destruct (Index_bounds "(" l) as [?|[? _]]; [congruence|].
    destruct (Index_bounds ")" l) as [?|[_ B]]; [congruence|].
    change (len ")") with 1 in B. unfold slice.
    replace ((0 <=? Index l "(" + 1) && (Index l "(" + 1 <=? Index l ")")
             && (Index l ")" <=? len l)) with true; [eauto|].
    symmetry. rewrite !andb_true_iff, !Z.leb_le. lia. }
  destruct Hip as [ip ->].
  assert (Hmac : exists mac,
    (if negb (Index l ") at " =? -1)
     then match slice_from l (Index l ") at " + 5) with
          | Some rest =>
              Some match Fields rest with
                   | [] => EmptyString
                   | p :: _ => if Contains p ":" then ToLower p else EmptyString
                   end
          | None => None
          end
     else Some EmptyString) = Some mac).
  { destruct (negb (Index l ") at " =? -1)) eqn:C; [|eauto].
    apply negb_true_iff, Z.eqb_neq in C.
    destruct (Index_bounds ") at " l) as [?|[? B]]; [congruence|].
    change (len ") at ") with 5 in B. unfold slice_from, slice.
    replace ((0 <=? Index l ") at " + 5) && (Index l ") at " + 5 <=? len l)
             && (len l <=? len l)) with true; [eauto|].
    symmetry. rewrite !andb_true_iff, !Z.leb_le. lia. }
  destruct Hmac as [mac ->]. eauto.
Qed.

(** X6.  [ParseARPLine] never panics: whatever the line, the two slices
    it takes at computed places are within the line, and it returns a
    pair. *)
Theorem ParseARPLine_never_panics (np : NetParser) (line : string) :
  exists ip mac, ParseARPLine np line = Some (ip, mac).
Proof. apply ParseARPLine_total. Qed.

(** X7.  On a line without the macOS marker, a MAC is returned only in
    company of an address that [net.ParseIP] accepts, and it is a valid MAC
    in the normal form of [IsHikvisionMAC]: lower case, colons. *)
Theorem ParseARPLine_linux_pattern_valid (np : NetParser) (line ip mac : string) :
  Contains (TrimSpace line) ") at " = false ->
  ParseARPLine np line = Some (ip, mac) ->
  mac <> EmptyString ->
  IsValidMAC mac = true /\ normalizeMAC mac = mac
  /\ ip <> EmptyString /\ ParseIP np ip <> None.
Proof.
  intros Hc H Hmac. unfold ParseARPLine in H. cbv zeta in H. rewrite Hc in H.
  destruct (String.eqb (TrimSpace line) EmptyString); [congruence|].
  pose proof (fieldsFrom_nonempty (TrimSpace line) EmptyString) as Hf.
  change (fieldsFrom (TrimSpace line) EmptyString) with (Fields (TrimSpace line)) in Hf.
  destruct (2 <=? Z.of_nat (length (Fields (TrimSpace line)))); [|congruence].
  destruct (Fields (TrimSpace line)) as [|f0 rest]; [congruence|].
  destruct (ParseIP np f0) eqn:Hp; [|congruence].
  injection H as <- <-. inversion Hf as [|? ? Hf0 _]; subst.
  destruct (firstMAC_valid rest Hmac) as [V N].
  repeat split; try assumption. congruence.
Qed.

Lemma ParseARPLine_linux_pattern_valid_witness :
  ParseARPLine Fixtures.toyParser "192.168.1.1    AA-BB-CC-DD-EE-FF    dynamic"
  = Some ("192.168.1.1", "aa:bb:cc:dd:ee:ff")
  /\ IsValidMAC "aa:bb:cc:dd:ee:ff" = true
  /\ normalizeMAC "aa:bb:cc:dd:ee:ff" = "aa:bb:cc:dd:ee:ff".
Proof.
  assert (H : ParseARPLine Fixtures.toyParser
                "192.168.1.1    AA-BB-CC-DD-EE-FF    dynamic"
              = Some ("192.168.1.1", "aa:bb:cc:dd:ee:ff")) by reflexivity.
  split; [exact H|].
  destruct (ParseARPLine_linux_pattern_valid Fixtures.toyParser
              "192.168.1.1    AA-BB-CC-DD-EE-FF    dynamic"
              "192.168.1.1" "aa:bb:cc:dd:ee:ff"
              eq_refl H ltac:(discriminate)) as (V & N & _).
  split; [exact V | exact N].
Defined.

(** X8.  What [arp -an] prints on macOS is read back: from a line of
    ASCII text that is, white space at the ends apart,
    [pre(ip) at mac tail], where [pre] holds no parenthesis, [ip] no
    closing one, and [mac] is a word with a colon in it, [ParseARPLine]
    returns [ip] as it stands and [mac] in lower case.  Neither is checked
    any further.  On ASCII text [TrimSpace], [Fields] and [ToLower] are
    Go's. *)
Theorem ParseARPLine_macos_pattern (np : NetParser) (line pre ip mac tail : string) :
  isASCII line = true ->
  TrimSpace line = pre +:+ "(" +:+ ip +:+ ") at " +:+ mac +:+ tail ->
  lacks "(" pre = true -> lacks ")" pre = true -> lacks ")" ip = true ->
  mac <> EmptyString -> noSpace mac = true -> Contains mac ":" = true ->
  tail = EmptyString \/ (exists c t, tail = String c t /\ isSpace c = true) ->
  ParseARPLine np line = Some (ip, ToLower mac).
Proof.
  intros _ Hl Hpre1 Hpre2 Hip Hne Hsp Hcolon Htail.
  unfold ParseARPLine. cbv zeta. set (l := TrimSpace line) in *.
  set (u := pre +:+ "(" +:+ ip).
  assert (El : l = u +:+ ") at " +:+ (mac +:+ tail)).
  { rewrite Hl. unfold u. now rewrite !append_assoc. }
  assert (Hnonempty : String.eqb l EmptyString = false).
  { apply String.eqb_neq. intros E. apply (f_equal String.length) in E.
    rewrite Hl, !TruncateFacts.length_append in E. simpl in E. lia. }
  rewrite Hnonempty.
  assert (Hc : Contains l ") at " = true) by (rewrite El; apply Contains_middle).
  rewrite Hc.
  assert (Hstart : Index l "(" = len pre).
  { rewrite Hl. apply (Index_at "(" EmptyString pre); [exact Hpre1|].
    now destruct (ip +:+ ") at " +:+ mac +:+ tail). }
  assert (Hu : lacks ")" u = true).
  { unfold u. rewrite !lacks_append, Hpre2, Hip. reflexivity. }
  assert (Hend : Index l ")" = len u).
  { rewrite El. apply (Index_at ")" EmptyString u); [exact Hu|]. reflexivity. }
  assert (Hat : Index l ") at " = len u).
  { rewrite El. apply (Index_at ")" " at " u); [exact Hu|].
    apply (prefix_append " at " (mac +:+ tail)). }
  assert (Lu : len u = len pre + 1 + len ip).
  { unfold u. rewrite !len_append. change (len "(") with 1. ring. }
  assert (Lp : 0 <= len pre) by (unfold len; lia).
  assert (Li : 0 <= len ip) by (unfold len; lia).
  rewrite Hstart, Hend, Hat.
  replace (negb (len pre =? -1) && negb (len u =? -1) && (len pre <? len u)) with true.
  2:{ symmetry. rewrite !andb_true_iff, !negb_true_iff, !Z.eqb_neq, Z.ltb_lt. lia. }
  assert (S1 : slice l (len pre + 1) (len u) = Some ip).
  { unfold slice.
    replace ((0 <=? len pre + 1) && (len pre + 1 <=? len u) && (len u <=? len l)) with true.
    2:{ symmetry. rewrite !andb_true_iff, !Z.leb_le. rewrite El, !len_append.
        change (len ") at ") with 5.
        assert (0 <= len mac /\ 0 <= len tail) by (unfold len; lia). lia. }
    f_equal. replace (Z.to_nat (len pre + 1)) with (String.length (pre +:+ "("))
      by (rewrite TruncateFacts.length_append; unfold len; simpl; lia).
    replace (Z.to_nat (len u - (len pre + 1))) with (String.length ip)
      by (unfold len in *; lia).
    rewrite Hl.
    replace (pre +:+ "(" +:+ ip +:+ ") at " +:+ mac +:+ tail)
      with ((pre +:+ "(") +:+ ip +:+ (") at " +:+ mac +:+ tail))
      by (now rewrite !append_assoc).
    apply substring_middle. }
  rewrite S1.
  replace (negb (len u =? -1)) with true
    by (symmetry; rewrite negb_true_iff, Z.eqb_neq; lia).
  assert (S2 : slice_from l (len u + 5) = Some (mac +:+ tail)).
  { unfold slice_from, slice.
    assert (Ll : len l = len u + 5 + len (mac +:+ tail)).
    { rewrite El, !len_append. change (len ") at ") with 5. ring. }
    assert (0 <= len (mac +:+ tail)) by (unfold len; lia).
    replace ((0 <=? len u + 5) && (len u + 5 <=? len l) && (len l <=? len l)) with true.
    2:{ symmetry. rewrite !andb_true_iff, !Z.leb_le. lia. }
    f_equal. replace (Z.to_nat (len u + 5)) with (String.length (u +:+ ") at "))
      by (rewrite TruncateFacts.length_append; unfold len; simpl; lia).
    replace (Z.to_nat (len l - (len u + 5))) with (String.length (mac +:+ tail))
      by (unfold len in *; lia).
    rewrite El, <- append_assoc. apply substring_rest. }
  rewrite S2.
  destruct (Fields_first_word mac tail Hne Hsp Htail) as [fs ->].
  now rewrite Hcolon.
Qed.

Lemma ParseARPLine_macos_pattern_witness :
  ParseARPLine Fixtures.toyParser
    "? (192.168.1.1) at AA:bb:cc:dd:ee:ff on en0 ifscope [ethernet]"
  = Some ("192.168.1.1", "aa:bb:cc:dd:ee:ff").
Proof.
  apply (ParseARPLine_macos_pattern Fixtures.toyParser _ "? " "192.168.1.1"
           "AA:bb:cc:dd:ee:ff" " on en0 ifscope [ethernet]");
    try reflexivity; [discriminate|].
  right. exists " "%char, "on en0 ifscope [ethernet]". split; reflexivity.
Defined.

(** **** The table *)

Lemma scanLines_app np l1 : forall l2 t,
  scanLines np (l1 ++ l2) t
  = match scanLines np l1 t with
    | Some t1 => scanLines np l2 t1
    | None => None
    end.
Proof.
  induction l1 as [|line l1 IH]; intros l2 t; [reflexivity|].
  cbn [app scanLines]. destruct (ParseARPLine np line) as [[ip mac]|]; [|reflexivity].
  destruct (negb (String.eqb ip EmptyString) && negb (String.eqb mac EmptyString));
    apply IH.
Qed.

Lemma scanLines_total np lines : forall t, exists t', scanLines np lines t = Some t'.
Proof.
  induction lines as [|line lines IH]; intros t; cbn [scanLines]; [eauto|].
  destruct (ParseARPLine_total np line) as (ip & mac & ->).
  destruct (negb (String.eqb ip EmptyString) && negb (String.eqb mac EmptyString));
    apply IH.
Qed.

Lemma both_present ip mac :
  negb (String.eqb ip EmptyString) && negb (String.eqb mac EmptyString) = true
  <-> ip <> EmptyString /\ mac <> EmptyString.
Proof.
  rewrite andb_true_iff, !negb_true_iff, !String.eqb_neq. reflexivity.
Qed.

(** An entry that is in the table after the loop was there before or was
    read from a line. *)
Lemma scanLines_sound np lines : forall t t' ip mac,
  scanLines np lines t = Some t' -> t' !! ip = Some mac ->
  t !! ip = Some mac
  \/ (ip <> EmptyString /\ mac <> EmptyString
      /\ exists line, In line lines /\ ParseARPLine np line = Some (ip, mac)).
Proof.
  induction lines as [|line lines IH]; intros t t' ip mac H Hin; cbn [scanLines] in H.
  - injection H as <-. now left.
  - destruct (ParseARPLine np line) as [[ip0 mac0]|] eqn:Hp; [|discriminate].
    destruct (negb (String.eqb ip0 EmptyString) && negb (String.eqb mac0 EmptyString))
      eqn:Hb.
    + apply both_present in Hb as [Hi Hm].
      destruct (IH _ _ _ _ H Hin) as [Hold|(? & ? & l' & ? & ?)].
      * destruct (decide (ip0 = ip)) as [->|Hne].
        -- rewrite lookup_insert_eq in Hold. injection Hold as ->.
           right. repeat split; try assumption. exists line. split; [now left | exact Hp].
        -- rewrite lookup_insert_ne in Hold by exact Hne. now left.
      * right. repeat split; try assumption. exists l'. split; [now right | assumption].
    + destruct (IH _ _ _ _ H Hin) as [Hold|(? & ? & l' & ? & ?)]; [now left|].
      right. repeat split; try assumption. exists l'. split; [now right | assumption].
Qed.

(** Lines that bring no MAC for an address leave its entry alone. *)
Lemma scanLines_keeps np lines ip : forall t t',
  (forall line mac, In line lines -> ParseARPLine np line = Some (ip, mac) ->
                    mac = EmptyString) ->
  scanLines np lines t = Some t' -> t' !! ip = t !! ip.
Proof.
  induction lines as [|line lines IH]; intros t t' Hno H; cbn [scanLines] in H.
  - now injection H as <-.
  - destruct (ParseARPLine np line) as [[ip0 mac0]|] eqn:Hp; [|discriminate].
    assert (Hno' : forall line' mac, In line' lines ->
                     ParseARPLine np line' = Some (ip, mac) -> mac = EmptyString)
      by (intros l' m' Hin' Hp'; exact (Hno l' m' (or_intror Hin') Hp')).
    destruct (negb (String.eqb ip0 EmptyString) && negb (String.eqb mac0 EmptyString))
      eqn:Hb.
    + apply both_present in Hb as [Hi Hm].
      rewrite (IH _ _ Hno' H). apply lookup_insert_ne. intros ->.
      apply Hm. apply (Hno line mac0); [now left | exact Hp].
    + apply (IH _ _ Hno' H).
Qed.

(** X9.  On a system it knows, when the command succeeds,
    [getARPTableOS] returns a table in which every entry was read from a
    line of the output, with an address and a MAC that are both non-empty;
    and of several lines for one address the last one that has a MAC
    decides the entry. *)
Theorem getARPTableOS_last_line_wins (np : NetParser) (env : ArpEnv)
    (argv lines : list string) :
  (GOOS env = "darwin" /\ argv = ["arp"; "-an"])
  \/ (GOOS env = "linux" /\ argv = ["arp"; "-n"])
  \/ (GOOS env = "windows" /\ argv = ["arp"; "-a"]) ->
  cmdOutput env argv = Ok lines ->
  exists t,
    getARPTableOS np env = Some (Ok t)
    /\ (forall ip mac, t !! ip = Some mac ->
          ip <> EmptyString /\ mac <> EmptyString
          /\ exists line, In line lines /\ ParseARPLine np line = Some (ip, mac))
    /\ (forall before line after ip mac,
          lines = before ++ line :: after ->
          ParseARPLine np line = Some (ip, mac) ->
          ip <> EmptyString -> mac <> EmptyString ->
          (forall line' mac', In line' after ->
             ParseARPLine np line' = Some (ip, mac') -> mac' = EmptyString) ->
          t !! ip = Some mac).
Proof.
  intros Hos Hout.
  destruct (scanLines_total np lines ∅) as [t Ht].
  assert (E : getARPTableOS np env = Some (Ok t)).
  { unfold getARPTableOS. cbv zeta.
    destruct Hos as [[-> ->]|[[-> ->]|[-> ->]]]; cbn [String.eqb Ascii.eqb];
      simpl; now rewrite Hout, Ht. }
  exists t. split; [exact E|]. split.
  - intros ip mac Hin.
    destruct (scanLines_sound np lines _ _ _ _ Ht Hin) as [Hold|?]; [|assumption].
    rewrite lookup_empty in Hold. discriminate.
  - intros before line after ip mac -> Hp Hi Hm Hlast.
    rewrite scanLines_app in Ht.
    destruct (scanLines np before ∅) as [t1|]; [|discriminate].
    cbn [scanLines] in Ht. rewrite Hp in Ht.
    assert (Hb : negb (String.eqb ip EmptyString) && negb (String.eqb mac EmptyString)
                 = true) by now apply both_present.
    rewrite Hb in Ht. rewrite (scanLines_keeps np after ip _ _ Hlast Ht).
    apply lookup_insert_eq.
Qed.

Lemma getARPTableOS_last_line_wins_witness :
  exists t,
    getARPTableOS Fixtures.toyParser Fixtures.linuxHost = Some (Ok t)
    /\ t !! "192.168.1.64" = Some "44:19:b6:00:00:02".
Proof.
  destruct (getARPTableOS_last_line_wins Fixtures.toyParser Fixtures.linuxHost
              ["arp"; "-n"] Fixtures.arpLines
              (or_intror (or_introl (conj eq_refl eq_refl))) eq_refl)
    as (t & Ht & _ & Hlast).
  exists t. split; [exact Ht|].
  apply (Hlast (firstn 2 Fixtures.arpLines)
           "192.168.1.64 ether   44:19:b6:00:00:02   C           eth1" []);
    try reflexivity; try discriminate.
  intros line' mac' [].
Defined.

End ARPFacts.

(** *** ToCSV *)

Module CSVFacts.
Import GoStr Fmt Sadp SadpCSV GoStrFacts.

(** **** Splitting at a byte *)

Lemma Split_last c s : lacks c s = true -> Split s c = [s].
Proof.
  unfold lacks. induction s as [|a s IH]; intros H; [reflexivity|].
  cbn [allBytes] in H. apply andb_true_iff in H as [Ha Hs].
  cbn [Split]. apply negb_true_iff in Ha. now rewrite Ha, (IH Hs).
Qed.

Lemma Split_cell c s t : lacks c s = true -> Split (s +:+ String c t) c = s :: Split t c.
Proof.
  unfold lacks. induction s as [|a s IH]; intros H.
  - rewrite append_empty_l. cbn [Split]. now rewrite Ascii.eqb_refl.
  - cbn [allBytes] in H. apply andb_true_iff in H as [Ha Hs].
    rewrite append_cons. cbn [Split]. apply negb_true_iff in Ha.
    now rewrite Ha, (IH Hs).
Qed.

Lemma concat_cons sep x y r :
  String.concat sep (x :: y :: r) = x +:+ sep +:+ String.concat sep (y :: r).
Proof. reflexivity. Qed.

(** Cells without the separator, joined by it, split into themselves. *)
Lemma Split_concat c cells :
  cells <> [] -> Forall (fun s => lacks c s = true) cells ->
  Split (String.concat (String c EmptyString) cells) c = cells.
Proof.
  induction cells as [|x [|y r] IH]; intros Hne H; [congruence| |].
  - inversion H; subst. now apply Split_last.
  - inversion H as [|? ? Hx Hr]; subst. rewrite concat_cons.
    change (String c EmptyString +:+ String.concat (String c EmptyString) (y :: r))
      with (String c (String.concat (String c EmptyString) (y :: r))).
    rewrite (Split_cell _ _ _ Hx). f_equal. apply IH; [discriminate | exact Hr].
Qed.

Lemma lacks_concat c sep cells :
  lacks c sep = true -> Forall (fun s => lacks c s = true) cells ->
  lacks c (String.concat sep cells) = true.
Proof.
  intros Hsep. induction cells as [|x [|y r] IH]; intros H; [reflexivity| |].
  - now inversion H.
  - inversion H as [|? ? Hx Hr]; subst.
    rewrite concat_cons, !ARPFacts.lacks_append, Hx, Hsep. exact (IH Hr).
Qed.

(** **** The digits of a number *)

Lemma pretty_N_go_bytes (P : ascii -> bool) x :
  (forall d, P (pretty_N_char d) = true) ->
  forall s, allBytes P s = true -> allBytes P (pretty_N_go x s) = true.
Proof.
  intros Hd. induction (N.lt_wf_0 x) as [x _ IH]; intros s Hs.
  assert (x = 0 \/ 0 < x)%N as [->|Hx] by lia; [now rewrite pretty_N_go_0|].
  rewrite pretty_N_go_step by exact Hx. apply IH.
  - now apply N.div_lt.
  - cbn [allBytes]. now rewrite Hd, Hs.
Qed.

Lemma pretty_Z_bytes (P : ascii -> bool) (z : Z) :
  P "-"%char = true -> (forall d, P (pretty_N_char d) = true) ->
  allBytes P (pretty z) = true.
Proof.
  intros Hm Hd.
  assert (H0 : P "0"%char = true) by exact (Hd 0%N).
  assert (Hpos : forall p : positive, allBytes P (pretty p) = true).
  { intros p. unfold pretty, pretty_positive, pretty, pretty_N.
    destruct (decide (N.pos p = 0%N)); [discriminate|].
    now apply pretty_N_go_bytes. }
  destruct z as [|p|p]; unfold pretty, pretty_Z.
  - cbn [allBytes]. now rewrite H0.
  - apply Hpos.
  - change ("-" +:+ pretty p) with (String "-" (pretty p)).
    cbn [allBytes]. now rewrite Hm, Hpos.
Qed.

Lemma digit_not c d :
  Ascii.eqb "-" c = false -> (forall k, (k < 10)%N -> Ascii.eqb (pretty_N_char k) c = false) ->
  negb (Ascii.eqb (pretty_N_char d) c) = true.
Proof.
  intros _ H. apply negb_true_iff.
  assert (d < 10 \/ pretty_N_char d = pretty_N_char 9)%N as [Hd| ->].
  { destruct d as [|p]; [left; lia|].
    assert (N.pos p < 10 \/ 10 <= N.pos p)%N as [?|?] by lia; [now left | right].
    unfold pretty_N_char. do 4 (destruct p as [p|p|]; try reflexivity; try lia). }
  - now apply H.
  - apply H. lia.
Qed.

Lemma small_digits c :
  forallb (fun k => negb (Ascii.eqb (pretty_N_char k) c))
    [0; 1; 2; 3; 4; 5; 6; 7; 8; 9]%N = true ->
  forall k, (k < 10)%N -> Ascii.eqb (pretty_N_char k) c = false.
Proof.
  intros H k Hk. rewrite forallb_forall in H. apply negb_true_iff, H.
  assert (k = 0 \/ k = 1 \/ k = 2 \/ k = 3 \/ k = 4 \/ k = 5 \/ k = 6 \/ k = 7
          \/ k = 8 \/ k = 9)%N as Hc by lia.
  repeat (destruct Hc as [->|Hc]; [simpl; tauto|]). subst k. simpl; tauto.
Qed.

(** A number in decimal holds neither a comma nor a line feed. *)
Lemma pretty_plain (z : Z) : plainText (pretty z) = true.
Proof.
  unfold plainText, lacks. apply andb_true_iff. split.
  - apply (pretty_Z_bytes (fun x => negb (Ascii.eqb x ","))); [reflexivity|].
    intros d. apply digit_not; [reflexivity|]. now apply small_digits.
  - apply (pretty_Z_bytes (fun x => negb (Ascii.eqb x (ascii_of_N 10)))); [reflexivity|].
    intros d. apply digit_not; [reflexivity|]. now apply small_digits.
Qed.

(** **** The lines of the output *)

Lemma csvLoop_unfold i dev rest sb :
  csvLoop i (dev :: rest) sb = csvLoop (i + 1) rest (sb +:+ csvRow i dev).
Proof. reflexivity. Qed.

Lemma rowsFrom_unfold i dev rest :
  rowsFrom i (dev :: rest) = cells i dev :: rowsFrom (i + 1) rest.
Proof. reflexivity. Qed.

Lemma csvLoop_app devices : forall i sb,
  csvLoop i devices sb = sb +:+ csvLoop i devices EmptyString.
Proof.
  induction devices as [|dev rest IH]; intros i sb.
  - apply eq_sym, append_empty_r.
  - rewrite !csvLoop_unfold. generalize (csvRow i dev). intros row.
    rewrite (IH _ (sb +:+ row)), (IH _ (EmptyString +:+ row)).
    rewrite append_empty_l. apply append_assoc.
Qed.

Lemma csvRow_cells i dev :
  csvRow i dev = String.concat "," (cells i dev) +:+ newline.
Proof.
  unfold cells, String.concat. rewrite !append_assoc. reflexivity.
Qed.

Lemma cells_plain i dev :
  plainDevice dev = true -> Forall (fun s => plainText s = true) (cells i dev).
Proof.
  unfold plainDevice, printedTexts. cbn [forallb]. rewrite !andb_true_iff.
  intros (? & ? & ? & ? & ? & ? & ? & ? & ? & ? & ? & _).
  unfold cells. repeat constructor; try assumption; apply pretty_plain.
Qed.

Lemma plain_lacks cellsOf :
  Forall (fun s => plainText s = true) cellsOf ->
  Forall (fun s => lacks "," s = true) cellsOf
  /\ Forall (fun s => lacks (ascii_of_N 10) s = true) cellsOf.
Proof.
  intros H. split; eapply Forall_impl; try exact H; intros s Hs;
    unfold plainText in Hs; apply andb_true_iff in Hs; tauto.
Qed.

Lemma rows_lines devices : forall i,
  forallb plainDevice devices = true ->
  Split (csvLoop i devices EmptyString) (ascii_of_N 10)
  = map (String.concat ",") (rowsFrom i devices) ++ [EmptyString].
Proof.
  induction devices as [|dev rest IH]; intros i H; [reflexivity|].
  cbn [forallb] in H. apply andb_true_iff in H as [Hd Hr].
  rewrite csvLoop_unfold, rowsFrom_unfold, csvLoop_app, append_empty_l, csvRow_cells.
  cbn [map app]. rewrite append_assoc.
  change (newline +:+ csvLoop (i + 1) rest EmptyString)
    with (String (ascii_of_N 10) (csvLoop (i + 1) rest EmptyString)).
  rewrite Split_cell; [now rewrite (IH _ Hr)|].
  apply lacks_concat; [reflexivity|]. now apply plain_lacks, cells_plain.
Qed.

Lemma rows_cells devices : forall i,
  forallb plainDevice devices = true ->
  map (fun line => Split line ",") (map (String.concat ",") (rowsFrom i devices))
  = rowsFrom i devices.
Proof.
  induction devices as [|dev rest IH]; intros i H; [reflexivity|].
  cbn [forallb] in H. apply andb_true_iff in H as [Hd Hr].
  rewrite rowsFrom_unfold. cbn [map]. rewrite (IH _ Hr). f_equal.
  apply Split_concat; [discriminate|]. now apply plain_lacks, cells_plain.
Qed.

(** X10.  The output of [ToCSV] reads back: when the texts of the
    devices hold neither a comma nor a line feed, cutting the output into
    lines and the lines at the commas gives the fifteen headings, then for
    the device at index [i] its fifteen cells, the first being [i+1] and
    the twelfth the sum of the two channel counts, and last one empty line,
    the output ending in a line feed.  Nothing is quoted or escaped. *)
Theorem ToCSV_reads_back (devices : list Device) :
  forallb plainDevice devices = true ->
  map (fun line => Split line ",") (Split (ToCSV devices) (ascii_of_N 10))
  = headerCells :: rowsFrom 0 devices ++ [[EmptyString]].
Proof.
  intros H. unfold ToCSV. rewrite csvLoop_app.
  change csvHeader with
    (String.concat "," headerCells +:+ String (ascii_of_N 10) EmptyString).
  rewrite append_assoc.
  change (String (ascii_of_N 10) EmptyString +:+ csvLoop 0 devices EmptyString)
    with (String (ascii_of_N 10) (csvLoop 0 devices EmptyString)).
  rewrite Split_cell by reflexivity. rewrite (rows_lines _ _ H).
  cbn [map]. rewrite map_app, (rows_cells _ _ H). reflexivity.
Qed.

Lemma ToCSV_reads_back_witness :
  forallb plainDevice [Fixtures.camera; Fixtures.camera] = true
  /\ map (fun line => Split line ",")
       (Split (ToCSV [Fixtures.camera; Fixtures.camera]) (ascii_of_N 10))
     = [headerCells; cells 0 Fixtures.camera; cells 1 Fixtures.camera; [EmptyString]].
Proof.
  split; [reflexivity|].
  exact (ToCSV_reads_back [Fixtures.camera; Fixtures.camera] eq_refl).
Defined.

End CSVFacts.

(** *** ListCommands and the switch of BuildCommandXML *)

Module CatalogFacts.
Import GoStr Fmt SadpCmd GoStrFacts CommandFacts.

Lemma listLoop_intact :
  listLoop listOrder (list_to_map commandTable) []
  = map (fun name => default (mkCommand "" "" "" false false)
                       ((list_to_map commandTable : gmap string Command) !! name))
        listOrder.
Proof. reflexivity. Qed.

(** X11.  With the catalog of the map literal, [ListCommands] lists the
    fifteen commands in the order it spells out and leaves the state alone;
    the listing is the catalog: a name has an entry, so that
    [BuildCommandXML] knows it, exactly when a listed command carries that
    name, and that command is the entry. *)
Theorem ListCommands_lists_the_catalog (w : World) :
  catalogIntact w ->
  map Name (ListCommands w).1 = listOrder
  /\ (ListCommands w).2 = w
  /\ (forall name cmd,
        Commands w !! name = Some cmd <-> In cmd (ListCommands w).1 /\ Name cmd = name).
Proof.
  intros Hcat. unfold ListCommands. cbn [fst snd].
  assert (E : listLoop listOrder (Commands w) []
              = map (fun name => default (mkCommand "" "" "" false false)
                       ((list_to_map commandTable : gmap string Command) !! name))
                    listOrder)
    by (rewrite Hcat; apply listLoop_intact).
  rewrite E. split; [reflexivity|]. split; [reflexivity|].
  intros name cmd. rewrite (catalog_lookup _ _ _ Hcat), in_map_iff. split.
  - intros H. split; [exists name|]; each_command H; try reflexivity;
      (split; [vm_compute; reflexivity | simpl; tauto]).
  - intros [(n & <- & Hn) <-]. simpl in Hn.
    repeat (destruct Hn as [<-|Hn];
            [apply list_elem_of_In; vm_compute; tauto|]).
    destruct Hn.
Qed.

Lemma ListCommands_lists_the_catalog_witness :
  map Name (ListCommands Fixtures.demoWorld).1 = listOrder
  /\ length (ListCommands Fixtures.demoWorld).1 = 15%nat.
Proof.
  destruct (ListCommands_lists_the_catalog Fixtures.demoWorld
              (initialWorld_intact _ _)) as (H & _).
  split; [exact H|]. rewrite <- (length_map Name), H. reflexivity.
Defined.

Lemma known_implemented cmdName cmd uuid opts :
  (cmdName, cmd) ∈ commandTable ->
  fillTemplate cmd uuid cmdName opts
  <> Errorf "command %s not implemented" [AStr cmdName].
Proof.
  intros H. destruct opts as [tip mac pw code nip nmask ngw nport dhcp email tmo].
  each_command H; empty_or_not mac; empty_or_not pw; empty_or_not code;
    empty_or_not email; intros He; lazy -[pretty] in He; discriminate He.
Qed.

(** X12.  With the catalog of the map literal the last branch of the
    switch of [BuildCommandXML] is never taken: whatever the name and the
    options, the result is not the error [command ... not implemented];
    every entry of the catalog has its case. *)
Theorem BuildCommandXML_never_not_implemented (w : World) (cmdName : string)
    (opts : SendOptions) :
  catalogIntact w ->
  (BuildCommandXML cmdName opts w).1
  <> Errorf "command %s not implemented" [AStr cmdName].
Proof.
  intros Hcat. destruct (Commands w !! cmdName) as [cmd|] eqn:Hl.
  - rewrite (BuildCommandXML_known _ _ _ _ Hl). cbn [fst].
    apply known_implemented. now apply (catalog_lookup w).
  - rewrite (BuildCommandXML_unknown _ _ _ Hl). cbn [fst].
    unfold Errorf. intros He. injection He as He. discriminate He.
Qed.

Lemma BuildCommandXML_never_not_implemented_witness :
  (BuildCommandXML "reboot" noOptions Fixtures.demoWorld).1
  <> Errorf "command %s not implemented" [AStr "reboot"].
Proof.
  exact (BuildCommandXML_never_not_implemented Fixtures.demoWorld "reboot" noOptions
           (initialWorld_intact _ _)).
Defined.

End CatalogFacts.

(** *** Package crypto *)

Module CryptoFacts.
Import GoStr Fmt Hex Network Crypto GoStrFacts.

(** **** hex.DecodeString *)

Lemma DecodeString_length l : forall s,
  DecodeString s = inr l -> String.length s = (2 * length l)%nat.
Proof.
  induction l as [|v l IH]; intros s H.
  - destruct s as [|p [|q rest]]; [reflexivity| |]; cbn [DecodeString] in H.
    + destruct (hexVal p); discriminate.
    + destruct (hexVal p); [|discriminate]. destruct (hexVal q); [|discriminate].
      destruct (DecodeString rest); discriminate.
  - destruct s as [|p [|q rest]]; cbn [DecodeString] in H; [discriminate| |].
    + destruct (hexVal p); discriminate.
    + destruct (hexVal p); [|discriminate]. destruct (hexVal q); [|discriminate].
      destruct (DecodeString rest) as [|l'] eqn:E; [discriminate|].
      injection H as _ ->. cbn [String.length length]. rewrite (IH rest E). lia.
Qed.

Lemma hexVal_range c a : hexVal c = Some a -> 0 <= a < 16.
Proof.
  unfold hexVal. cbv zeta.
  destruct ((48 <=? Z.of_N (byte_val c)) && (Z.of_N (byte_val c) <=? 57)) eqn:E1.
  { intros [= <-]. apply andb_true_iff in E1 as [? ?]. lia. }
  destruct ((97 <=? Z.of_N (byte_val c)) && (Z.of_N (byte_val c) <=? 102)) eqn:E2.
  { intros [= <-]. apply andb_true_iff in E2 as [? ?]. lia. }
  destruct ((65 <=? Z.of_N (byte_val c)) && (Z.of_N (byte_val c) <=? 70)) eqn:E3.
  { intros [= <-]. apply andb_true_iff in E3 as [? ?]. lia. }
  discriminate.
Qed.

Lemma lxor_byte d k : isByte d -> isByte k -> isByte (Z.lxor d k).
Proof.
  unfold isByte. intros Hd Hk.
  assert (0 <= Z.lxor d k) by (apply Z.lxor_nonneg; lia).
  split; [assumption|].
  destruct (Z.eq_dec (Z.lxor d k) 0) as [->|Hz]; [lia|].
  apply (Z.log2_lt_pow2 _ 8); [lia|].
  pose proof (Z.log2_lxor d k ltac:(lia) ltac:(lia)) as Hl.
  assert (Z.log2 d < 8).
  { destruct (Z.eq_dec d 0) as [->|]; [simpl; lia|]. apply Z.log2_lt_pow2; lia. }
  assert (Z.log2 k < 8).
  { destruct (Z.eq_dec k 0) as [->|]; [simpl; lia|]. apply Z.log2_lt_pow2; lia. }
  lia.
Qed.

Lemma nibbles_byte a b : 0 <= a < 16 -> 0 <= b < 16 -> isByte (Z.lor (Z.shiftl a 4) b).
Proof.
  intros Ha Hb. unfold isByte.
  assert (0 <= Z.lor (Z.shiftl a 4) b).
  { apply Z.lor_nonneg. split; [apply Z.shiftl_nonneg|]; lia. }
  split; [assumption|].
  destruct (Z.eq_dec (Z.lor (Z.shiftl a 4) b) 0) as [->|Hz]; [lia|].
  apply (Z.log2_lt_pow2 _ 8); [lia|].
  assert (Hs : 0 <= Z.shiftl a 4 < 256) by (rewrite Z.shiftl_mul_pow2 by lia; lia).
  pose proof (Z.log2_lor (Z.shiftl a 4) b ltac:(lia) ltac:(lia)) as Hl.
  assert (Z.log2 (Z.shiftl a 4) < 8).
  { destruct (Z.eq_dec (Z.shiftl a 4) 0) as [->|]; [simpl; lia|].
    apply Z.log2_lt_pow2; lia. }
  assert (Z.log2 b < 8).
  { destruct (Z.eq_dec b 0) as [->|]; [simpl; lia|]. apply Z.log2_lt_pow2; lia. }
  lia.
Qed.

Lemma DecodeString_bytes l : forall s, DecodeString s = inr l -> Forall isByte l.
Proof.
  induction l as [|v l IH]; intros s H; [constructor|].
  destruct s as [|p [|q rest]]; cbn [DecodeString] in H; [discriminate| |].
  - destruct (hexVal p); discriminate.
  - destruct (hexVal p) as [a|] eqn:Ea; [|discriminate].
    destruct (hexVal q) as [b|] eqn:Eb; [|discriminate].
    destruct (DecodeString rest) as [|l'] eqn:E; [discriminate|].
    injection H as <- ->. constructor; [|exact (IH rest E)].
    apply nibbles_byte; eapply hexVal_range; eassumption.
Qed.

(** **** DecryptXOR *)

Lemma lxor_twice d k : Z.lxor (Z.lxor d k) k = d.
Proof. now rewrite Z.lxor_assoc, Z.lxor_nilpotent, Z.lxor_0_r. Qed.

Lemma xorLoop_round_trip key :
  key <> [] ->
  forall data i, exists out,
    xorLoop data key i = Some out
    /\ length out = length data
    /\ xorLoop out key i = Some data
    /\ (Forall isByte key -> Forall isByte data -> Forall isByte out).
Proof.
  intros Hk. assert (Hlen : (length key =? 0)%nat = false).
  { apply Nat.eqb_neq. destruct key; [congruence | simpl; lia]. }
  induction data as [|d rest IH]; intros i.
  - exists []. repeat split; try reflexivity; try (intros; constructor).
  - destruct (IH (S i)) as (out & Ho & Hl & Hback & Hb).
    assert (Hi : (i mod length key < length key)%nat).
    { apply Nat.mod_upper_bound. destruct key; [congruence | simpl; lia]. }
    destruct (lookup_lt_is_Some_2 key _ Hi) as [k Hkk].
    exists (Z.lxor d k :: out). cbn [xorLoop]. rewrite Hlen, Hkk, Ho, Hback, lxor_twice.
    repeat split; [simpl; lia|].
    intros Hkey Hdata. inversion Hdata; subst. constructor; [|now apply Hb].
    apply lxor_byte; [assumption|]. exact (Forall_lookup_1 isByte key _ k Hkey Hkk).
Qed.

Lemma decoded_key keyHex :
  decodes keyHex = true -> exists key, DecodeString keyHex = inr key
    /\ Forall isByte key /\ (key = [] <-> keyHex = EmptyString).
Proof.
  unfold decodes. destruct (DecodeString keyHex) as [|key] eqn:E; [discriminate|].
  intros _. exists key. split; [reflexivity|]. split; [exact (DecodeString_bytes _ _ E)|].
  pose proof (DecodeString_length _ _ E) as L. split.
  - intros ->. destruct keyHex; [reflexivity | discriminate].
  - intros ->. destruct key; [reflexivity | discriminate].
Qed.

(** X13.  With a key of hexadecimal digits that is not empty,
    [DecryptXOR] returns as many bytes as it is given, bytes for bytes, and
    applied again with the same key it gives the data back: decoding and
    encoding are one operation. *)
Theorem DecryptXOR_round_trip (data : list Z) (keyHex : string) :
  decodes keyHex = true -> keyHex <> EmptyString ->
  exists out,
    DecryptXOR data keyHex = Some (inr out)
    /\ length out = length data
    /\ DecryptXOR out keyHex = Some (inr data)
    /\ (Forall isByte data -> Forall isByte out).
Proof.
  intros Hd Hne. destruct (decoded_key keyHex Hd) as (key & E & Hb & Hemp).
  assert (Hk : key <> []) by (intros ->; apply Hne, Hemp; reflexivity).
  destruct (xorLoop_round_trip key Hk data 0%nat) as (out & Ho & Hl & Hback & Hbytes).
  exists out. unfold DecryptXOR. rewrite E, Ho, Hback. auto.
Qed.

Lemma DecryptXOR_round_trip_witness :
  exists out,
    DecryptXOR [72; 105; 33; 0; 255] "738B5544" = Some (inr out)
    /\ DecryptXOR out "738B5544" = Some (inr [72; 105; 33; 0; 255]).
Proof.
  destruct (DecryptXOR_round_trip [72; 105; 33; 0; 255] "738B5544" eq_refl
              ltac:(discriminate)) as (out & H1 & _ & H2 & _).
  exists out. split; assumption.
Defined.

(** X14.  [DecryptXOR] fails in two ways only.  It returns the error
    for the key exactly when the key is no text of hexadecimal digit
    pairs, whatever the data; and it panics, dividing by zero, exactly when
    the key is the empty text and there is data. *)
Theorem DecryptXOR_failures (data : list Z) (keyHex : string) :
  (DecryptXOR data keyHex = None <-> keyHex = EmptyString /\ data <> [])
  /\ ((exists e, DecryptXOR data keyHex = Some (inl e)) <-> decodes keyHex = false)
  /\ (decodes keyHex = false ->
      exists e, DecodeString keyHex = inl e
                /\ DecryptXOR data keyHex = Some (inl (InvalidXORKeyHex e))).
Proof.
  destruct (decodes keyHex) eqn:Hd.
  - destruct (decoded_key keyHex Hd) as (key & E & Hb & Hemp).
    unfold DecryptXOR. rewrite E. split; [|split].
    + destruct key as [|k0 key].
      * destruct data as [|d data]; cbn [xorLoop length Nat.eqb].
        -- split; [discriminate | intros [_ H]; congruence].
        -- split; [intros _; split; [now apply Hemp | discriminate] | reflexivity].
      * destruct (xorLoop_round_trip (k0 :: key) ltac:(discriminate) data 0%nat)
          as (out & -> & _).
        split; [discriminate|]. intros [H _]. apply Hemp in H. discriminate.
    + split; [|discriminate]. intros [e H].
      destruct (xorLoop data key 0); discriminate.
    + discriminate.
  - unfold decodes in Hd. unfold DecryptXOR.
    destruct (DecodeString keyHex) as [e|] eqn:E; [|discriminate].
    split; [|split].
    + split; [discriminate|]. intros [-> _]. discriminate.
    + split; [reflexivity | eauto].
    + eauto.
Qed.

Lemma pretty_N_go_length_ge x : forall s,
  (String.length s <= String.length (pretty_N_go x s))%nat.
Proof.
  induction (N.lt_wf_0 x) as [x _ IH]; intros s.
  assert (x = 0 \/ 0 < x)%N as [->|Hx] by lia; [now rewrite pretty_N_go_0|].
  rewrite pretty_N_go_step by exact Hx.
  etransitivity; [|apply IH; now apply N.div_lt]. simpl. lia.
Qed.

Lemma pretty_N_go_length_le k : forall x s,
  (x < 10 ^ N.of_nat k)%N ->
  (String.length (pretty_N_go x s) <= String.length s + k)%nat.
Proof.
  induction k as [|k IH]; intros x s Hx.
  - assert (x = 0%N) as -> by (simpl in Hx; lia). rewrite pretty_N_go_0. lia.
  - assert (x = 0 \/ 0 < x)%N as [->|Hpos] by lia; [rewrite pretty_N_go_0; lia|].
    rewrite pretty_N_go_step by exact Hpos.
    etransitivity; [apply IH|simpl; lia].
    rewrite Nat2N.inj_succ, N.pow_succ_r' in Hx.
    apply N.Div0.div_lt_upper_bound. lia.
Qed.

(** The decimal text of a [uint32]: one to ten digits. *)
Lemma pretty_u32 (z : Z) :
  0 <= z < 2 ^ 32 ->
  allBytes isDigit (pretty z) = true
  /\ (1 <= String.length (pretty z) <= 10)%nat.
Proof.
  intros Hz. destruct z as [|p|p]; [split; [reflexivity | simpl; lia]| |lia].
  unfold pretty, pretty_Z, pretty, pretty_positive, pretty, pretty_N.
  destruct (decide (N.pos p = 0%N)); [discriminate|]. split.
  - apply CSVFacts.pretty_N_go_bytes; [|reflexivity].
    intros d. unfold pretty_N_char. repeat case_match; reflexivity.
  - split.
    + rewrite pretty_N_go_step by lia.
      etransitivity; [|apply pretty_N_go_length_ge]. simpl. lia.
    + apply (pretty_N_go_length_le 10 (N.pos p) EmptyString).
      change (10 ^ N.of_nat 10)%N with 10000000000%N. lia.
Qed.

Lemma substitute_digit c : isDigit c = true -> codeLetter (substitute c) = true.
Proof. destruct c as [[] [] [] [] [] [] [] []]; intros H; try discriminate H; reflexivity. Qed.

Lemma substitute_all s :
  allBytes isDigit s = true -> allBytes codeLetter (map_bytes substitute s) = true.
Proof.
  induction s as [|c s IH]; [reflexivity|]. cbn [allBytes map_bytes].
  intros H. apply andb_true_iff in H as [Hc Hs].
  now rewrite (substitute_digit c Hc), (IH Hs).
Qed.

Lemma GenerateResetCode_unfold serial date :
  GenerateResetCode serial date
  = map_bytes substitute
      (pretty (u32 (u64 (magicLoop (serial +:+ date) 0 0 * multiplier)))).
Proof.
  unfold GenerateResetCode. cbv zeta. f_equal. cbn [Sprintf Ascii.eqb Bool.eqb].
  unfold verb. cbn [Ascii.eqb Bool.eqb extra]. apply append_empty_r.
Qed.

(** X15.  A reset code is never empty, is at most ten letters long, and
    is written with the letters Q R S q r d e y z and the digit 9 only:
    it is the decimal text of a 32-bit number in which the digits 0 to 8
    are replaced. *)
Theorem GenerateResetCode_alphabet (serial date : string) :
  isASCII (serial +:+ date) = true ->
  allBytes codeLetter (GenerateResetCode serial date) = true
  /\ (1 <= String.length (GenerateResetCode serial date) <= 10)%nat.
Proof.
  intros _. rewrite GenerateResetCode_unfold.
  set (secret := u32 (u64 (magicLoop (serial +:+ date) 0 0 * multiplier))).
  assert (Hs : 0 <= secret < 2 ^ 32) by (apply Z.mod_pos_bound; lia).
  destruct (pretty_u32 secret Hs) as [Hd Hl].
  split; [now apply substitute_all | now rewrite length_map_bytes].
Qed.

Lemma GenerateResetCode_alphabet_witness :
  GenerateResetCode "0123456789" "20231215" = "RRRrdy9yRd"
  /\ allBytes codeLetter (GenerateResetCode "0123456789" "20231215") = true.
Proof.
  split; [reflexivity|].
  exact (proj1 (GenerateResetCode_alphabet "0123456789" "20231215" eq_refl)).
Defined.

(** **** DecryptAES *)

Lemma ecbLoop_unfold c key p count i :
  ecbLoop c key p (S count) i
  = resize BlockSize 0 (aes_Decrypt c key (take BlockSize (drop i p)))
    ++ ecbLoop c key p count (i + BlockSize).
Proof. reflexivity. Qed.

Lemma ecbLoop_length c key p count : forall i,
  length (ecbLoop c key p count i) = (count * 16)%nat.
Proof.
  induction count as [|count IH]; intros i; [reflexivity|].
  rewrite ecbLoop_unfold, length_app, length_resize, IH. unfold BlockSize. lia.
Qed.

Lemma padToBlock_length data :
  (length (padToBlock data) mod 16 = 0)%nat
  /\ (length data <= length (padToBlock data) < length data + 16)%nat.
Proof.
  unfold padToBlock, BlockSize.
  pose proof (Nat.mod_upper_bound (length data) 16 ltac:(lia)) as Hm.
  pose proof (Nat.div_mod_eq (length data) 16) as Hd.
  destruct (Nat.eqb_spec (length data mod 16) 0) as [E|E]; cbn [negb].
  - split; [exact E | lia].
  - rewrite length_app, length_replicate. split; [|lia].
    replace (length data + (16 - length data mod 16))%nat
      with ((length data / 16 + 1) * 16)%nat by lia.
    apply Nat.Div0.mod_mul.
Qed.

Lemma aes_NewCipher_sizes key :
  (aes_NewCipher key = inr key
   /\ (length key = 16 \/ length key = 24 \/ length key = 32)%nat)
  \/ (aes_NewCipher key = inl (CipherCreation (Z.of_nat (length key)))
      /\ ~ (length key = 16 \/ length key = 24 \/ length key = 32)%nat).
Proof.
  unfold aes_NewCipher. cbv zeta.
  destruct (Z.eqb_spec (Z.of_nat (length key)) 16);
    [left; split; [reflexivity | lia]|].
  destruct (Z.eqb_spec (Z.of_nat (length key)) 24);
    [left; split; [reflexivity | lia]|].
  destruct (Z.eqb_spec (Z.of_nat (length key)) 32);
    [left; split; [reflexivity | lia]|].
  right. split; [reflexivity | lia].
Qed.

Lemma DecryptAES_ok c data keyHex key :
  DecodeString keyHex = inr key ->
  (length key = 16 \/ length key = 24 \/ length key = 32)%nat ->
  DecryptAES c data keyHex
  = inr (ecbLoop c key (padToBlock data) (length (padToBlock data) / 16) 0).
Proof.
  intros E Hk. unfold DecryptAES. rewrite E.
  destruct (aes_NewCipher_sizes key) as [[-> _]|[_ Hn]]; [reflexivity | tauto].
Qed.

Lemma DecryptAES_inr c data keyHex out :
  DecryptAES c data keyHex = inr out ->
  exists key,
    DecodeString keyHex = inr key
    /\ (length key = 16 \/ length key = 24 \/ length key = 32)%nat
    /\ out = ecbLoop c key (padToBlock data) (length (padToBlock data) / 16) 0.
Proof.
  unfold DecryptAES. destruct (DecodeString keyHex) as [e|key]; [discriminate|].
  destruct (aes_NewCipher_sizes key) as [[-> Hk]|[-> _]]; [|discriminate].
  intros H. injection H as <-. exists key.
  split; [reflexivity|]. split; [exact Hk | reflexivity].
Qed.

(** X16.  [DecryptAES] accepts a key exactly when it is 32, 48 or 64
    hexadecimal digits, whatever the data and the cipher do; the bytes it
    then returns are the data rounded up to whole blocks of 16: never
    fewer than the data, and the padding it adds is not taken off
    again. *)
Theorem DecryptAES_key_and_length (c : AES) (data : list Z) (keyHex : string) :
  ((exists out, DecryptAES c data keyHex = inr out)
   <-> decodes keyHex = true
       /\ (String.length keyHex = 32 \/ String.length keyHex = 48
           \/ String.length keyHex = 64)%nat)
  /\ (forall out, DecryptAES c data keyHex = inr out ->
        (length out mod 16 = 0)%nat
        /\ (length data <= length out < length data + 16)%nat).
Proof.
  split; [split|].
  - intros [out H]. destruct (DecryptAES_inr _ _ _ _ H) as (key & E & Hk & _).
    pose proof (DecodeString_length _ _ E) as L.
    unfold decodes. rewrite E. split; [reflexivity | lia].
  - intros [Hd Hl]. unfold decodes in Hd.
    destruct (DecodeString keyHex) as [e|key] eqn:E; [discriminate|].
    pose proof (DecodeString_length _ _ E) as L.
    eexists. apply (DecryptAES_ok c data keyHex key E). lia.
  - intros out H. destruct (DecryptAES_inr _ _ _ _ H) as (key & _ & _ & ->).
    rewrite ecbLoop_length.
    destruct (padToBlock_length data) as [Hm Hb].
    pose proof (Nat.div_mod_eq (length (padToBlock data)) 16) as Hd.
    split; [apply Nat.Div0.mod_mul | lia].
Qed.

Lemma ecbLoop_add c key p n : forall m i,
  ecbLoop c key p (n + m) i
  = ecbLoop c key p n i ++ ecbLoop c key p m (i + n * 16).
Proof.
  induction n as [|n IH]; intros m i.
  - cbn [Nat.add ecbLoop app]. f_equal. lia.
  - change (S n + m)%nat with (S (n + m)). rewrite !ecbLoop_unfold, IH, <- app_assoc.
    do 3 f_equal. unfold BlockSize. lia.
Qed.

Lemma ecbLoop_prefix c key d1 p2 n : forall i,
  (i + n * 16 <= length d1)%nat ->
  ecbLoop c key (d1 ++ p2) n i = ecbLoop c key d1 n i.
Proof.
  induction n as [|n IH]; intros i Hi; [reflexivity|].
  rewrite !ecbLoop_unfold, IH by (unfold BlockSize; lia). f_equal. f_equal. f_equal.
  rewrite drop_app_le by lia. apply take_app_le.
  rewrite length_drop. unfold BlockSize. lia.
Qed.

Lemma ecbLoop_suffix c key d1 p2 m : forall j,
  ecbLoop c key (d1 ++ p2) m (length d1 + j) = ecbLoop c key p2 m j.
Proof.
  induction m as [|m IH]; intros j; [reflexivity|].
  rewrite !ecbLoop_unfold, drop_app_add. f_equal.
  rewrite <- Nat.add_assoc. apply IH.
Qed.

Lemma ecbLoop_suffix0 c key d1 p2 m :
  ecbLoop c key (d1 ++ p2) m (length d1) = ecbLoop c key p2 m 0.
Proof.
  pose proof (ecbLoop_suffix c key d1 p2 m 0) as H.
  now rewrite Nat.add_0_r in H.
Qed.

Lemma padToBlock_whole d : (length d mod 16 = 0)%nat -> padToBlock d = d.
Proof. intros H. unfold padToBlock, BlockSize. now rewrite H. Qed.

Lemma padToBlock_app d1 d2 :
  (length d1 mod 16 = 0)%nat -> padToBlock (d1 ++ d2) = d1 ++ padToBlock d2.
Proof.
  intros H. unfold padToBlock, BlockSize. rewrite length_app.
  assert (E : ((length d1 + length d2) mod 16 = length d2 mod 16)%nat).
  { rewrite Nat.Div0.add_mod, H, Nat.add_0_l. apply Nat.Div0.mod_mod. }
  rewrite E. destruct (negb (length d2 mod 16 =? 0)%nat); [|reflexivity].
  now rewrite app_assoc.
Qed.

(** X17.  [DecryptAES] works block by block: data that is whole blocks
    followed by more data is decrypted as the two pieces are, one after
    the other, and the first piece keeps its length.  So equal blocks of
    input give equal blocks of output, wherever they stand. *)
Theorem DecryptAES_block_by_block (c : AES) (d1 d2 : list Z) (keyHex : string)
    (out : list Z) :
  (length d1 mod 16 = 0)%nat ->
  DecryptAES c (d1 ++ d2) keyHex = inr out ->
  exists o1 o2,
    DecryptAES c d1 keyHex = inr o1 /\ DecryptAES c d2 keyHex = inr o2
    /\ out = o1 ++ o2 /\ length o1 = length d1.
Proof.
  intros H1 H. destruct (DecryptAES_inr _ _ _ _ H) as (key & E & Hk & ->).
  exists (ecbLoop c key d1 (length d1 / 16) 0),
         (ecbLoop c key (padToBlock d2) (length (padToBlock d2) / 16) 0).
  split; [rewrite <- (padToBlock_whole d1 H1) at 2 3; now apply DecryptAES_ok|].
  split; [now apply DecryptAES_ok|].
  rewrite (padToBlock_app _ _ H1), length_app.
  pose proof (Nat.div_mod_eq (length d1) 16) as Hd. rewrite H1 in Hd.
  assert (Hq : length d1 = (length d1 / 16 * 16)%nat) by lia.
  replace ((length d1 + length (padToBlock d2)) / 16)%nat
    with (length d1 / 16 + length (padToBlock d2) / 16)%nat.
  2:{ rewrite Hq at 2. now rewrite Nat.div_add_l by lia. }
  rewrite ecbLoop_add, ecbLoop_prefix by lia. cbn [Nat.add].
  rewrite <- Hq, ecbLoop_suffix0.
  split; [reflexivity|]. rewrite ecbLoop_length. lia.
Qed.

Lemma DecryptAES_block_by_block_witness :
  exists o1 o2,
    DecryptAES Fixtures.toyAES (Fixtures.oneBlock ++ [17; 18]) Fixtures.aesKey
    = inr (o1 ++ o2)
    /\ DecryptAES Fixtures.toyAES Fixtures.oneBlock Fixtures.aesKey = inr o1
    /\ DecryptAES Fixtures.toyAES [17; 18] Fixtures.aesKey = inr o2
    /\ length o1 = 16%nat.
Proof.
  assert (H : DecryptAES Fixtures.toyAES (Fixtures.oneBlock ++ [17; 18]) Fixtures.aesKey
              = inr ([16; 15; 14; 13; 12; 11; 10; 9; 8; 7; 6; 5; 4; 3; 2; 1]
                     ++ [0; 0; 0; 0; 0; 0; 0; 0; 0; 0; 0; 0; 0; 0; 18; 17]))
    by reflexivity.
  destruct (DecryptAES_block_by_block Fixtures.toyAES Fixtures.oneBlock [17; 18]
              Fixtures.aesKey _ eq_refl H) as (o1 & o2 & H1 & H2 & Ho & Hl).
  exists o1, o2. rewrite H, Ho. repeat split; assumption.
Defined.

End CryptoFacts.

(** *** The broadcast path and the order of SendCommand *)

Module BroadcastFacts.
Import GoStr Fmt Network SadpCmd GoStrFacts CommandFacts SendFacts CIDRFacts.

(** X18.  [SendCommand] validates before it touches the network: when
    the command cannot be built, because the name is unknown or a field it
    requires is missing, the call returns the error of [BuildCommandXML] as
    it is and no network event has happened. *)
Theorem SendCommand_validates_before_network (env : NetEnv) (cmdName : string)
    (opts : SendOptions) (w : World) (e : string) :
  (BuildCommandXML cmdName opts w).1 = Err e ->
  (SendCommand env cmdName opts w).1 = Err e
  /\ trace (SendCommand env cmdName opts w).2 = trace w.
Proof.
  intros H. rewrite (SendCommand_build_error env _ _ _ _ H). cbn [fst snd].
  split; [reflexivity | apply BuildCommandXML_trace].
Qed.

Lemma SendCommand_validates_before_network_witness :
  (SendCommand Fixtures.promptNet "reboot" Fixtures.toCamera Fixtures.demoWorld).1
  = Err "MAC address required for reboot command"
  /\ trace (SendCommand Fixtures.promptNet "reboot" Fixtures.toCamera
              Fixtures.demoWorld).2 = [].
Proof.
  exact (SendCommand_validates_before_network Fixtures.promptNet "reboot"
           Fixtures.toCamera Fixtures.demoWorld
           "MAC address required for reboot command" eq_refl).
Defined.

Lemma broadcast_answer env xml opts w response :
  (sendCommandBroadcastWithMAC env xml opts w).1 = Ok response ->
  mentionsMAC (ToUpper (ReplaceAll (TargetMAC opts) "-" ":")) response = true
  /\ In response (heard env xml (effectiveTimeout opts)).
Proof.
  unfold sendCommandBroadcastWithMAC, bind, emit, ret. cbn [fst snd].
  destruct (interfacesError env); [discriminate|]. cbn [fst snd].
  destruct (List.find _ _) as [r|] eqn:F; cbn [fst]; [|discriminate].
  intros [= <-]. apply find_some in F. tauto.
Qed.

(** X19.  An answer that [SendCommand] returns on the broadcast route,
    the target IP being empty or 0.0.0.0, is one of the datagrams heard
    for the command that was built, and its text in upper case holds the
    target MAC, in upper case with colons or with dashes, however the
    caller wrote it.  The target MAC and the answer are ASCII text, on
    which [ToUpper] is Go's.  The filter looks for the MAC anywhere in the
    text, so the answer need not come from the target device. *)
Theorem SendCommand_broadcast_answer_names_target (env : NetEnv) (cmdName : string)
    (opts : SendOptions) (w : World) (response : string) :
  TargetIP opts = "0.0.0.0" \/ TargetIP opts = EmptyString ->
  isASCII (TargetMAC opts) = true -> isASCII response = true ->
  (SendCommand env cmdName opts w).1 = Ok response ->
  let target := ToUpper (ReplaceAll (TargetMAC opts) "-" ":") in
  TargetMAC opts <> EmptyString
  /\ (Contains (ToUpper response) target = true
      \/ Contains (ToUpper response) (ReplaceAll target ":" "-") = true)
  /\ exists xml,
       (BuildCommandXML cmdName opts w).1 = Ok xml
       /\ In response (heard env xml (effectiveTimeout opts)).
Proof.
  intros Hany _ _ Hok target. apply anyAddress_true in Hany.
  destruct (BuildCommandXML cmdName opts w).1 as [xml|e] eqn:Hb.
  2:{ rewrite (SendCommand_build_error env _ _ _ _ Hb) in Hok. discriminate. }
  destruct (String.eqb_spec (TargetMAC opts) EmptyString) as [Hm|Hm].
  { rewrite (SendCommand_no_route env _ _ _ _ Hb Hany Hm) in Hok. discriminate. }
  rewrite (SendCommand_broadcast env _ _ _ _ Hb Hany Hm) in Hok.
  apply broadcast_answer in Hok as [Hf Hin].
  split; [exact Hm|]. split; [|exists xml; split; [reflexivity | exact Hin]].
  unfold mentionsMAC in Hf. now apply orb_true_iff in Hf.
Qed.

Lemma SendCommand_broadcast_answer_names_target_witness :
  (SendCommand Fixtures.busyNet "inquiry" Fixtures.byMAC Fixtures.demoWorld).1
  = Ok "<ProbeMatch><MAC>aa-bb-cc-dd-ee-ff</MAC></ProbeMatch>"
  /\ Contains (ToUpper "<ProbeMatch><MAC>aa-bb-cc-dd-ee-ff</MAC></ProbeMatch>")
       (ReplaceAll (ToUpper (ReplaceAll "aa-bb-cc-dd-ee-ff" "-" ":")) ":" "-") = true.
Proof.
  assert (H : (SendCommand Fixtures.busyNet "inquiry" Fixtures.byMAC
                 Fixtures.demoWorld).1
              = Ok "<ProbeMatch><MAC>aa-bb-cc-dd-ee-ff</MAC></ProbeMatch>")
    by reflexivity.
  split; [exact H|].
  destruct (SendCommand_broadcast_answer_names_target Fixtures.busyNet "inquiry"
              Fixtures.byMAC Fixtures.demoWorld
              "<ProbeMatch><MAC>aa-bb-cc-dd-ee-ff</MAC></ProbeMatch>"
              (or_intror eq_refl) eq_refl eq_refl H)
    as (_ & [Hc|Hc] & _); [discriminate Hc | exact Hc].
Defined.

(** **** The directed broadcast address *)

Lemma lor_below a b n : 0 <= n -> 0 <= a < 2 ^ n -> 0 <= b < 2 ^ n -> 0 <= Z.lor a b < 2 ^ n.
Proof.
  intros Hn Ha Hb.
  assert (0 <= Z.lor a b) by (apply Z.lor_nonneg; lia). split; [assumption|].
  destruct (Z.eq_dec (Z.lor a b) 0) as [->|Hz]; [lia|].
  assert (0 < n).
  { destruct (Z.eq_dec n 0) as [->|]; [|lia]. exfalso. apply Hz.
    assert (a = 0) as -> by (simpl in Ha; lia).
    assert (b = 0) as -> by (simpl in Hb; lia). reflexivity. }
  apply Z.log2_lt_pow2; [lia|].
  pose proof (Z.log2_lor a b ltac:(lia) ltac:(lia)) as Hl.
  assert (Z.log2 a < n).
  { destruct (Z.eq_dec a 0) as [->|]; [simpl; lia|]. apply Z.log2_lt_pow2; lia. }
  assert (Z.log2 b < n).
  { destruct (Z.eq_dec b 0) as [->|]; [simpl; lia|]. apply Z.log2_lt_pow2; lia. }
  lia.
Qed.

Lemma lor_concat a b c d n :
  0 <= n -> 0 <= b < 2 ^ n -> 0 <= d < 2 ^ n ->
  Z.lor (a * 2 ^ n + b) (c * 2 ^ n + d) = Z.lor a c * 2 ^ n + Z.lor b d.
Proof.
  intros Hn Hb Hd. apply Z.bits_inj'. intros i Hi.
  pose proof (lor_below b d n Hn Hb Hd) as Hbd.
  rewrite Z.lor_spec, !testbit_concat by assumption.
  destruct (i <? n); now rewrite Z.lor_spec.
Qed.

(** Setting the low [h] bits of a number. *)
Lemma lor_low_ones v h :
  0 <= h -> 0 <= v -> Z.lor v (2 ^ h - 1) = 2 ^ h * (v / 2 ^ h) + 2 ^ h - 1.
Proof.
  intros Hh Hv. assert (Hp : 0 < 2 ^ h) by (apply Z.pow_pos_nonneg; lia).
  pose proof (Z.div_mod v (2 ^ h) ltac:(lia)) as Hdm.
  pose proof (Z.mod_pos_bound v (2 ^ h) Hp) as Hr.
  rewrite Hdm at 1.
  replace (2 ^ h * (v / 2 ^ h) + v mod 2 ^ h) with (v / 2 ^ h * 2 ^ h + v mod 2 ^ h) by ring.
  replace (2 ^ h - 1) with (0 * 2 ^ h + (2 ^ h - 1)) at 1 by ring.
  rewrite lor_concat by lia. rewrite Z.lor_0_r.
  assert (E : Z.lor (v mod 2 ^ h) (2 ^ h - 1) = 2 ^ h - 1).
  { apply Z.bits_inj'. intros i Hi.
    change (2 ^ h - 1) with (Z.pred (2 ^ h)). rewrite <- Z.ones_equiv.
    rewrite Z.lor_spec. destruct (Z.ltb_spec i h).
    - rewrite Z.ones_spec_low by lia. apply orb_true_r.
    - rewrite Z.ones_spec_high, orb_false_r by lia.
      rewrite Z.mod_pow2_bits_high by lia. reflexivity. }
  rewrite E. ring.
Qed.

Lemma byte_lnot m : isByte m -> Network.byte (Z.lnot m) = 255 - m.
Proof.
  unfold isByte, Network.byte, Z.lnot. intros H.
  replace (Z.pred (- m)) with (255 - m + (-1) * 256) by lia.
  rewrite Z.mod_add by lia. apply Z.mod_small. lia.
Qed.

Lemma ipValue4 a b c d :
  ipValue [a; b; c; d] = a * 2 ^ 24 + (b * 2 ^ 16 + (c * 2 ^ 8 + d)).
Proof. cbn [ipValue length]. change (256 ^ Z.of_nat 3) with (2 ^ 24).
  change (256 ^ Z.of_nat 2) with (2 ^ 16). change (256 ^ Z.of_nat 1) with (2 ^ 8).
  change (256 ^ Z.of_nat 0) with 1. cbn [ipValue]. ring.
Qed.

Lemma subnetBcast_value a b c d m0 m1 m2 m3 :
  Forall isByte [a; b; c; d] -> Forall isByte [m0; m1; m2; m3] ->
  exists bc,
    subnetBcast [a; b; c; d] [m0; m1; m2; m3] = Some bc
    /\ wfIPv4 bc
    /\ ipValue bc
       = Z.lor (ipValue [a; b; c; d]) (2 ^ 32 - 1 - ipValue [m0; m1; m2; m3]).
Proof.
  intros Hip Hm.
  repeat match goal with H : Forall _ (_ :: _) |- _ => inversion H; clear H; subst end.
  repeat match goal with H : Forall _ [] |- _ => clear H end.
  exists [Z.lor a (Network.byte (Z.lnot m0)); Z.lor b (Network.byte (Z.lnot m1));
          Z.lor c (Network.byte (Z.lnot m2)); Z.lor d (Network.byte (Z.lnot m3))].
  split; [reflexivity|].
  rewrite !byte_lnot by assumption. unfold isByte in *.
  assert (B : forall x m, 0 <= x < 256 -> 0 <= m < 256 -> 0 <= Z.lor x (255 - m) < 2 ^ 8).
  { intros x m Hx Hmm. apply lor_below; lia. }
  pose proof (B a m0 ltac:(lia) ltac:(lia)). pose proof (B b m1 ltac:(lia) ltac:(lia)).
  pose proof (B c m2 ltac:(lia) ltac:(lia)). pose proof (B d m3 ltac:(lia) ltac:(lia)).
  split.
  - split; [reflexivity|]. repeat constructor; unfold isByte; lia.
  - rewrite !ipValue4.
    replace (2 ^ 32 - 1 - (m0 * 2 ^ 24 + (m1 * 2 ^ 16 + (m2 * 2 ^ 8 + m3))))
      with ((255 - m0) * 2 ^ 24 + ((255 - m1) * 2 ^ 16 + ((255 - m2) * 2 ^ 8 + (255 - m3))))
      by ring.
    rewrite (lor_concat a _ (255 - m0)) by lia.
    rewrite (lor_concat b _ (255 - m1)) by lia.
    rewrite (lor_concat c _ (255 - m2)) by lia. reflexivity.
Qed.

Lemma last_block ip h :
  0 <= h ->
  List.last (block ip h) [] = addrOf (length ip) (blockStart ip h + (2 ^ h - 1)).
Proof.
  intros Hh. unfold block.
  assert (Hp : 0 < 2 ^ h) by (apply Z.pow_pos_nonneg; lia).
  replace (2 ^ h) with ((2 ^ h - 1) + 1) at 1 by ring.
  rewrite seqZ_app by lia. rewrite map_app. cbn [seqZ]. 
  change (seqZ (0 + (2 ^ h - 1)) 1) with [0 + (2 ^ h - 1)].
  cbn [map]. rewrite last_last. reflexivity.
Qed.

(** X20.  The third address the broadcast path writes to is the
    directed broadcast address of the adapter's network: for an IPv4
    address and the mask of a prefix length, the loop returns four bytes
    that stand for the highest address of the prefix, the one
    [ExpandCIDR] visits last, and the network contains it. *)
Theorem subnetBcast_is_last_address_of_network (ip : list Z) (ones : Z) :
  wfIPv4 ip -> 0 <= ones <= 32 ->
  exists bc,
    subnetBcast ip (CIDRMask ones 32) = Some bc
    /\ wfIPv4 bc
    /\ ipValue bc = blockStart ip (32 - ones) + 2 ^ (32 - ones) - 1
    /\ List.last (block ip (32 - ones)) [] = bc
    /\ IPNet_Contains (parsedNet ip ones) bc = true.
Proof.
  intros W Ho. destruct (mask_facts ones Ho) as (Ml & Mb & Mv & _).
  pose proof W as [Hl Hb].
  destruct ip as [|a [|b [|c [|d [|]]]]]; try discriminate Hl.
  destruct (CIDRMask ones 32) as [|m0 [|m1 [|m2 [|m3 [|]]]]] eqn:EM; try discriminate Ml.
  destruct (subnetBcast_value a b c d m0 m1 m2 m3 Hb Mb) as (bc & Hbc & Wbc & Vbc).
  pose proof (ipValue_range _ Hb) as R. cbn [length] in R.
  change (256 ^ Z.of_nat 4) with (2 ^ 32) in R.
  assert (V : ipValue bc = blockStart [a; b; c; d] (32 - ones) + 2 ^ (32 - ones) - 1).
  { rewrite Vbc, Mv.
    replace (2 ^ 32 - 1 - (2 ^ 32 - 2 ^ (32 - ones))) with (2 ^ (32 - ones) - 1) by ring.
    rewrite lor_low_ones by lia. reflexivity. }
  destruct (blockStart_bounds [a; b; c; d] (32 - ones) W ltac:(lia)) as (B0 & B1 & _).
  assert (Hp : 0 < 2 ^ (32 - ones)) by (apply Z.pow_pos_nonneg; lia).
  assert (E : bc = addrOf 4 (blockStart [a; b; c; d] (32 - ones) + (2 ^ (32 - ones) - 1))).
  { destruct Wbc as [Lbc Bbc].
    apply ipValue_inj; [now rewrite addrOf_length | exact Bbc | apply addrOf_bytes |].
    rewrite ipValue_addrOf4 by lia. rewrite V. ring. }
  exists bc. split; [exact Hbc|]. split; [exact Wbc|]. split; [exact V|]. split.
  - rewrite last_block by lia. now rewrite E.
  - rewrite E. apply inside_block; [exact W | exact Ho | lia].
Qed.

Lemma subnetBcast_is_last_address_of_network_witness :
  subnetBcast [192; 168; 1; 64] (CIDRMask 24 32) = Some [192; 168; 1; 255]
  /\ IPNet_Contains (parsedNet [192; 168; 1; 64] 24) [192; 168; 1; 255] = true.
Proof.
  assert (W : wfIPv4 [192; 168; 1; 64]).
  { split; [reflexivity|]. repeat constructor; unfold isByte; lia. }
  destruct (subnetBcast_is_last_address_of_network [192; 168; 1; 64] 24 W
              ltac:(lia)) as (bc & Hbc & _ & _ & _ & Hc).
  assert (E : bc = [192; 168; 1; 255]).
  { assert (H : subnetBcast [192; 168; 1; 64] (CIDRMask 24 32)
                = Some [192; 168; 1; 255]) by reflexivity.
    rewrite H in Hbc. now injection Hbc as <-. }
  rewrite <- E. split; [exact Hbc | exact Hc].
Defined.

End BroadcastFacts.

(** *** reorderArgsForFlags *)

Module CliFacts.
Import GoStr Cli.

Lemma valuesFollowFlags_mono words :
  valuesFollowFlags false words = true -> valuesFollowFlags true words = true.
Proof.
  destruct words as [|w rest]; [reflexivity|]. cbn [valuesFollowFlags].
  destruct (isFlag w); [tauto | discriminate].
Qed.

(** What the loop adds to its two lists: the words of [args] and no
    others, the words without a dash in the order they came in, and every
    such word among the flags right behind a flag. *)
Lemma reorderLoop_spec n : forall args fl ps,
  (length args <= n)%nat ->
  exists F P,
    reorderLoop args fl ps = (fl ++ F, ps ++ P)
    /\ F ++ P ≡ₚ args
    /\ Forall (fun w => isFlag w = false) P
    /\ sublist P args
    /\ valuesFollowFlags false F = true.
Proof.
  induction n as [|n IH]; intros args fl ps Hlen.
  { destruct args; [|simpl in Hlen; lia]. exists [], [].
    rewrite !app_nil_r. repeat split; try constructor. }
  destruct args as [|arg rest].
  { exists [], []. rewrite !app_nil_r. repeat split; try constructor. }
  cbn [length] in Hlen. cbn [reorderLoop]. fold (isFlag arg).
  destruct (isFlag arg) eqn:Harg.
  - assert (Plain : exists F P,
      reorderLoop rest (fl ++ [arg]) ps = (fl ++ F, ps ++ P)
      /\ F ++ P ≡ₚ arg :: rest
      /\ Forall (fun w => isFlag w = false) P
      /\ sublist P (arg :: rest)
      /\ valuesFollowFlags false F = true).
    { destruct (IH rest (fl ++ [arg]) ps ltac:(lia)) as (F & P & E & Hp & Hn & Hs & Hv).
      exists (arg :: F), P. rewrite E, <- app_assoc. cbn [app].
      split; [reflexivity|]. split; [now constructor|]. split; [exact Hn|].
      split; [now apply sublist_cons|].
      cbn [valuesFollowFlags]. rewrite Harg. now apply valuesFollowFlags_mono. }
    destruct rest as [|next rest']; [exact Plain|].
    destruct (negb (Contains arg "=") && negb (HasPrefix next "-")) eqn:Hnext;
      [|exact Plain].
    cbv zeta.
    destruct (negb (String.eqb (trimLeftDash arg) "debug")
              && negb (String.eqb (trimLeftDash arg) "dhcp")
              && negb (String.eqb (trimLeftDash arg) "list")); [|exact Plain].
    apply andb_true_iff in Hnext as [_ Hnext]. apply negb_true_iff in Hnext.
    cbn [length] in Hlen.
    destruct (IH rest' ((fl ++ [arg]) ++ [next]) ps ltac:(lia))
      as (F & P & E & Hp & Hn & Hs & Hv).
    exists (arg :: next :: F), P. rewrite E, <- !app_assoc. cbn [app].
    split; [reflexivity|]. split; [now do 2 constructor|]. split; [exact Hn|].
    split; [now do 2 apply sublist_cons|].
    cbn [valuesFollowFlags]. rewrite Harg. unfold isFlag at 1. rewrite Hnext.
    exact Hv.
  - destruct (IH rest fl (ps ++ [arg]) ltac:(lia)) as (F & P & E & Hp & Hn & Hs & Hv).
    exists F, (arg :: P). rewrite E, <- app_assoc. cbn [app].
    split; [reflexivity|]. split.
    { rewrite <- Permutation_middle. now constructor. }
    split; [now constructor|]. split; [now apply sublist_skip | exact Hv].
Qed.

(** X21.  [reorderArgsForFlags] only rearranges: its result holds the
    words of the command line, each as often as it was given, none lost
    and none made up. *)
Theorem reorderArgsForFlags_rearranges (args : list string) :
  reorderArgsForFlags args ≡ₚ args
  /\ length (reorderArgsForFlags args) = length args.
Proof.
  unfold reorderArgsForFlags.
  destruct (reorderLoop_spec (length args) args [] [] (le_n _))
    as (F & P & -> & Hp & _).
  cbn [app]. split; [exact Hp | now rewrite Hp].
Qed.

(** X22.  The result of [reorderArgsForFlags] is flags first: it is a
    list in which every word without a dash stands right behind a word
    with one, followed by words without a dash only, and these are words
    of the command line in the order they were given. *)
Theorem reorderArgsForFlags_flags_first (args : list string) :
  exists flags positional,
    reorderArgsForFlags args = flags ++ positional
    /\ valuesFollowFlags false flags = true
    /\ Forall (fun w => isFlag w = false) positional
    /\ sublist positional args.
Proof.
  unfold reorderArgsForFlags.
  destruct (reorderLoop_spec (length args) args [] [] (le_n _))
    as (F & P & -> & _ & Hn & Hs & Hv).
  exists F, P. cbn [app]. auto.
Qed.

(** The cases of the tests of the repository. *)
Lemma reorderArgsForFlags_examples :
  reorderArgsForFlags ["192.168.1.1"; "inquiry"; "--debug"]
  = ["--debug"; "192.168.1.1"; "inquiry"]
  /\ reorderArgsForFlags ["192.168.1.1"; "--mac"; "AA:BB:CC:DD:EE:FF"]
     = ["--mac"; "AA:BB:CC:DD:EE:FF"; "192.168.1.1"]
  /\ reorderArgsForFlags ["--debug"; "192.168.1.1"] = ["--debug"; "192.168.1.1"].
Proof. repeat split; reflexivity. Qed.

End CliFacts.

(** *** parseHTTPResponse *)

Module HttpFacts.
Import GoStr Fmt Http GoStrFacts ARPFacts.

Lemma prefix_decompose p : forall s, String.prefix p s = true -> exists t, s = p +:+ t.
Proof.
  induction p as [|a p IH]; intros s H; [exists s; reflexivity|].
  destruct s as [|b s]; [discriminate|]. simpl in H.
  destruct (ascii_dec a b) as [->|]; [|discriminate].
  destruct (IH s H) as [t ->]. now exists t.
Qed.

Lemma prefix_app p : forall u v,
  String.prefix p u = true -> String.prefix p (u +:+ v) = true.
Proof.
  intros u v H. destruct (prefix_decompose p u H) as [t ->].
  rewrite append_assoc. apply prefix_append.
Qed.

Lemma Index_Contains sub : forall s, Index s sub = -1 <-> Contains s sub = false.
Proof.
  induction s as [|c s IH]; rewrite Index_unfold, Contains_unfold.
  - destruct (String.prefix sub EmptyString); split; congruence.
  - destruct (String.prefix sub (String c s)); [split; congruence|].
    cbv zeta. rewrite <- IH.
    destruct (Index_bounds sub s) as [E|[E _]].
    + rewrite E. tauto.
    + destruct (Z.ltb_spec (Index s sub) 0); [lia|]. split; intros; lia.
Qed.

(** The first place of a text cuts the string in two: before it the
    text does not occur. *)
Lemma Index_decompose sub : sub <> EmptyString -> forall s,
  Index s sub <> -1 ->
  exists head tail,
    s = head +:+ sub +:+ tail /\ len head = Index s sub
    /\ Contains head sub = false.
Proof.
  intros Hsub. induction s as [|c s IH]; rewrite Index_unfold.
  - destruct (String.prefix sub EmptyString) eqn:Hp; [|congruence].
    destruct sub; [congruence | discriminate].
  - destruct (String.prefix sub (String c s)) eqn:Hp.
    + intros _. destruct (prefix_decompose _ _ Hp) as [t Ht].
      exists EmptyString, t. rewrite append_empty_l. split; [exact Ht|].
      split; [reflexivity|]. destruct sub; [congruence | reflexivity].
    + cbv zeta. destruct (Z.ltb_spec (Index s sub) 0) as [|Hge]; [congruence|].
      intros _. destruct (IH ltac:(lia)) as (head & tail & Es & El & Hc).
      exists (String c head), tail. rewrite append_cons, <- Es.
      split; [reflexivity|]. split.
      * unfold len in *. simpl String.length. lia.
      * rewrite Contains_unfold, Hc.
        destruct (String.prefix sub (String c head)) eqn:Hq; [|reflexivity].
        apply (prefix_app _ _ (sub +:+ tail)) in Hq.
        rewrite append_cons, <- Es in Hq. congruence.
Qed.

Lemma splitFrom_nonempty s : forall sep cuts skip cur, splitFrom s sep cuts skip cur <> [].
Proof.
  induction s as [|c s IH]; intros sep cuts skip cur; cbn [splitFrom]; [discriminate|].
  destruct skip; [|apply IH]. cbv zeta.
  destruct ((match cuts with Some O => false | _ => true end)
            && String.prefix sep (String c s)); [discriminate | apply IH].
Qed.

Lemma lower_lower_byte c : lower_byte (lower_byte c) = lower_byte c.
Proof. destruct c as [[] [] [] [] [] [] [] []]; reflexivity. Qed.

Lemma ToLower_idempotent s : ToLower (ToLower s) = ToLower s.
Proof.
  unfold ToLower. rewrite map_bytes_compose. apply ParseFacts.map_bytes_ext.
  apply lower_lower_byte.
Qed.

Lemma headerLoop_lower lines : forall headers,
  (forall k v, headers !! k = Some v -> ToLower k = k) ->
  forall k v, headerLoop lines headers !! k = Some v -> ToLower k = k.
Proof.
  induction lines as [|line lines IH]; intros headers H; [exact H|].
  cbn [headerLoop].
  destruct (SplitN line ": " 2) as [|name [|value [|]]]; try (apply IH; exact H).
  apply IH. intros k v. destruct (decide (ToLower name = k)) as [<-|Hne].
  - intros _. apply ToLower_idempotent.
  - rewrite lookup_insert_ne by exact Hne. apply H.
Qed.

(** What [parseHead] returns: never a panic, never the error of the
    missing separator, and a response with the body it is given. *)
Lemma parseHead_cases head body :
  exists res,
    parseHead head body = Some res
    /\ res <> Err "invalid HTTP response: no header separator found"
    /\ forall r, res = Ok r ->
         Body r = body
         /\ (forall k v, Headers r !! k = Some v -> ToLower k = k)
         /\ exists line0 rest code,
              SplitStr head CRLF = line0 :: rest
              /\ SplitN line0 " " 3 !! 1%nat = Some code
              /\ Atoi code = Some (StatusCode r).
Proof.
  unfold parseHead. cbv zeta.
  pose proof (splitFrom_nonempty head CRLF None 0 EmptyString) as Hne.
  fold (SplitStr head CRLF) in Hne.
  destruct (SplitStr head CRLF) as [|line0 rest]; [congruence|].
  cbn [length]. replace (Z.of_nat (S (length rest)) =? 0) with false
    by (symmetry; apply Z.eqb_neq; lia).
  destruct (Z.ltb_spec (Z.of_nat (length (SplitN line0 " " 3))) 2) as [Hlt|Hge].
  { eexists. split; [reflexivity|]. split; [intros E; discriminate E|].
    intros r E. discriminate E. }
  destruct (lookup_lt_is_Some_2 (SplitN line0 " " 3) 1) as [code Hcode]; [lia|].
  rewrite Hcode. destruct (Atoi code) as [statusCode|] eqn:Ha.
  - eexists. split; [reflexivity|]. split; [discriminate|].
    intros r [= <-]. cbn [Body Headers StatusCode]. split; [reflexivity|]. split.
    + apply headerLoop_lower. intros k v Hk. rewrite lookup_empty in Hk. discriminate.
    + exists line0, rest, code. auto.
  - eexists. split; [reflexivity|]. split; [intros E; discriminate E|].
    intros r E. discriminate E.
Qed.

(** X23.  [parseHTTPResponse] never panics.  It returns the error of the
    missing separator exactly when the data holds no empty line, CR LF CR
    LF; and when it returns a response, the data is a head in which that
    separator does not occur, the separator, and the body of the response:
    the body is all that follows the first empty line, byte for byte.  The
    status code is what [strconv.Atoi] reads from the second word of the
    first line. *)
Theorem parseHTTPResponse_body_after_first_blank_line (data : string) :
  exists res,
    parseHTTPResponse data = Some res
    /\ (Contains data blankLine = false
        <-> res = Err "invalid HTTP response: no header separator found")
    /\ forall r, res = Ok r ->
         exists head,
           data = head +:+ blankLine +:+ Body r
           /\ Contains head blankLine = false
           /\ exists line0 rest code,
                SplitStr head CRLF = line0 :: rest
                /\ SplitN line0 " " 3 !! 1%nat = Some code
                /\ Atoi code = Some (StatusCode r).
Proof.
  unfold parseHTTPResponse. cbv zeta.
  destruct (Z.eqb_spec (Index data blankLine) (-1)) as [E|E].
  - eexists. split; [reflexivity|]. split; [|discriminate].
    split; [reflexivity|]. intros _. now apply Index_Contains.
  - destruct (Index_decompose blankLine ltac:(discriminate) data E)
      as (head & tail & Ed & El & Hc).
    assert (S1 : slice data 0 (Index data blankLine) = Some head).
    { unfold slice. rewrite <- El.
      replace ((0 <=? 0) && (0 <=? len head) && (len head <=? len data)) with true.
      2:{ symmetry. rewrite !andb_true_iff, !Z.leb_le. rewrite Ed, len_append.
          unfold len. lia. }
      f_equal. replace (Z.to_nat (len head - 0)) with (String.length head)
        by (unfold len; lia).
      rewrite Ed. apply substring_take. }
    assert (S2 : slice_from data (Index data blankLine + 4) = Some tail).
    { unfold slice_from, slice. rewrite <- El.
      assert (Ld : len data = len head + 4 + len tail).
      { rewrite Ed, !len_append. change (len blankLine) with 4. ring. }
      assert (0 <= len head /\ 0 <= len tail) by (unfold len; lia).
      replace ((0 <=? len head + 4) && (len head + 4 <=? len data)
               && (len data <=? len data)) with true.
      2:{ symmetry. rewrite !andb_true_iff, !Z.leb_le. lia. }
      f_equal.
      replace (Z.to_nat (len head + 4)) with (String.length (head +:+ blankLine))
        by (rewrite TruncateFacts.length_append; unfold len; simpl; lia).
      replace (Z.to_nat (len data - (len head + 4))) with (String.length tail)
        by (unfold len in *; lia).
      rewrite Ed, <- append_assoc. apply substring_rest. }
    rewrite S1, S2.
    destruct (parseHead_cases head tail) as (res & Hres & Hnot & Hok).
    exists res. split; [exact Hres|]. split.
    + split; [|intros; congruence]. intros Hn. apply Index_Contains in Hn. congruence.
    + intros r Hr. destruct (Hok r Hr) as (Hb & _ & Hstatus).
      exists head. rewrite Hb. auto.
Qed.

(** X24.  The headers of a response are kept under their names in lower
    case: a name under which a header is found is its own lower-case
    form, so that a name with a capital letter in it finds nothing. *)
Theorem parseHTTPResponse_header_names_lower_case (data : string) (r : HTTPResponse)
    (name value : string) :
  parseHTTPResponse data = Some (Ok r) ->
  (Headers r !! name = Some value -> ToLower name = name)
  /\ (ToLower name <> name -> Headers r !! name = None).
Proof.
  intros H.
  assert (L : forall k v, Headers r !! k = Some v -> ToLower k = k).
  { unfold parseHTTPResponse in H. cbv zeta in H.
    destruct (Index data blankLine =? -1); [discriminate|].
    destruct (slice data 0 (Index data blankLine)) as [head|]; [|discriminate].
    destruct (slice_from data (Index data blankLine + 4)) as [tail|]; [|discriminate].
    destruct (parseHead_cases head tail) as (res & Hres & _ & Hok).
    rewrite Hres in H. injection H as ->. now destruct (Hok r eq_refl) as (_ & Hl & _). }
  split; [apply L|]. intros Hn.
  destruct (Headers r !! name) as [v|] eqn:Hv; [|reflexivity].
  exfalso. apply Hn. exact (L _ _ Hv).
Qed.

Lemma parseHTTPResponse_header_names_lower_case_witness :
  exists r,
    parseHTTPResponse Fixtures.okResponse = Some (Ok r)
    /\ StatusCode r = 200 /\ Body r = "hello"
    /\ Headers r !! "content-type" = Some "text/plain"
    /\ Headers r !! "Content-Type" = None.
Proof.
  assert (E : parseHTTPResponse Fixtures.okResponse
              = Some (Ok (mkHTTPResponse 200 "hello"
                            (<["content-type" := "text/plain"]> ∅))))
    by (vm_compute; reflexivity).
  eexists. split; [exact E|]. do 3 (split; [reflexivity|]).
  exact (proj2 (parseHTTPResponse_header_names_lower_case Fixtures.okResponse _
                  "Content-Type" EmptyString E) ltac:(discriminate)).
Defined.

End HttpFacts.

(** *** Discover: where devices come from and how long they stay *)

Module DiscoverFacts.
Import GoStr Sadp GoStrFacts RegistryFacts.

Lemma snapshot_lookup (devs : gmap string Device) d :
  d ∈ snapshot devs <-> exists k, devs !! k = Some d.
Proof.
  unfold snapshot. rewrite list_elem_of_fmap. split.
  - intros ([k d'] & -> & Hin). exists k. now apply elem_of_map_to_list.
  - intros [k Hk]. exists (k, d). split; [reflexivity|]. now apply elem_of_map_to_list.
Qed.



(** An entry of the registry after some reads was there before or was
    parsed from one of the reads and stamped with its adapter and time. *)
Lemma runReads_provenance xc l : forall (devs : gmap string Device) k d,
  runReads xc l devs !! k = Some d ->
  devs !! k = Some d
  \/ exists ip dg device,
       In (ip, dg) l
       /\ (parseResponse xc (payload dg)).1 = Some device
       /\ d = stamp device ip (readAt dg).
Proof.
  induction l as [|[ip dg] l IH]; intros devs k d H; [now left|].
  cbn [runReads foldl] in H. fold (runReads xc l) in H.
  destruct (IH _ _ _ H) as [Hold|(ip' & dg' & dev & Hin & Hp & ->)].
  - unfold receive in Hold. cbn [fst snd] in Hold.
    destruct (parseResponse xc (payload dg)).1 as [device|] eqn:Hp; [|now left].
    unfold insertIfAbsent in Hold.
    destruct (devs !! MAC (stamp device ip (readAt dg))); [now left|].
    destruct (decide (MAC (stamp device ip (readAt dg)) = k)) as [<-|Hne].
    + rewrite lookup_insert_eq in Hold. injection Hold as <-.
      right. exists ip, dg, device. split; [now left | auto].
    + rewrite lookup_insert_ne in Hold by exact Hne. now left.
  - right. exists ip', dg', dev. split; [now right | auto].
Qed.

(** The reads of the goroutines are reads on the sockets of adapters that
    are up, are not the loopback, and could be bound. *)
Lemma tasks_reads interfaces ip dg :
  In (ip, dg) (concat (tasks interfaces)) ->
  exists iface addrs sock,
    In iface interfaces /\ flagUp iface = true /\ flagLoopback iface = false
    /\ ifAddrs iface = Some addrs /\ In (IPNet4 ip sock) addrs
    /\ bindOk sock = true /\ In dg (inbox sock).
Proof.
  intros H. apply in_concat in H as (q & Hq & Hin).
  unfold tasks in Hq. apply in_flat_map in Hq as (iface & Hi & Hq).
  destruct (flagUp iface) eqn:Hup; [|destruct Hq].
  destruct (flagLoopback iface) eqn:Hlo; [destruct Hq|]. cbn [negb orb] in Hq.
  destruct (ifAddrs iface) as [addrs|] eqn:Ha; [|destruct Hq].
  unfold addrTasks in Hq. apply in_flat_map in Hq as (a & Hain & Hq).
  destruct a as [ip' sock| |]; [|destruct Hq..]. destruct Hq as [<-|[]].
  unfold taskReads in Hin. destruct (bindOk sock) eqn:Hb; [|destruct Hin].
  apply in_map_iff in Hin as (dg' & [= <- <-] & Hdg).
  exists iface, addrs, sock. auto 10.
Qed.

(** X26.  Every device [Discover] returns from a new scanner was
    received: it is the device parsed from a datagram read on the socket of
    an IPv4 address of an adapter that is up and is not the loopback, whose
    bind succeeded, stamped with that address and the time of that read;
    and its MAC is in the canonical form, upper case with colons. *)
Theorem Discover_devices_come_from_reads (xc : XMLCodec) (t : Z) (s' : Scanner)
    (interfaces : list Interface) (res : list Device) :
  Discover xc (NewScanner t) (Ok interfaces) (Ok res) s' ->
  forall d, d ∈ res ->
    allBytes canonicalMACByte (MAC d) = true
    /\ exists iface addrs sock dg device,
         In iface interfaces /\ flagUp iface = true /\ flagLoopback iface = false
         /\ ifAddrs iface = Some addrs /\ In (IPNet4 (AdapterIP d) sock) addrs
         /\ bindOk sock = true /\ In dg (inbox sock)
         /\ (parseResponse xc (payload dg)).1 = Some device
         /\ d = stamp device (AdapterIP d) (readAt dg).
Proof.
  intros H d Hd. inversion H as [|? l ? Hl Hp]; subst. cbn [devices NewScanner] in Hp.
  rewrite Hp in Hd. apply snapshot_lookup in Hd as [k Hk].
  destruct (runReads_provenance _ _ _ _ _ Hk) as [Hold|(ip & dg & device & Hin & Hparse & ->)].
  { rewrite lookup_empty in Hold. discriminate. }
  assert (Hin' : In (ip, dg) (concat (tasks interfaces))).
  { apply list_elem_of_In. rewrite <- (interleaved_perm _ _ Hl). now apply list_elem_of_In. }
  destruct (tasks_reads _ _ _ Hin') as (iface & addrs & sock & ? & ? & ? & ? & ? & ? & ?).
  split.
  - rewrite MAC_stamp. unfold parseResponse in Hparse.
    destruct (negb (Contains (payload dg) "<ProbeMatch")
              && negb (Contains (payload dg) "ProbeMatch>")); [discriminate|].
    destruct (xml_Unmarshal xc (payload dg)) as [dev|]; [|discriminate].
    cbn [fst] in Hparse. injection Hparse as <-. apply ParseFacts.normalized_canonical.
  - exists iface, addrs, sock, dg, device. cbn [AdapterIP stamp]. auto 12.
Qed.

Lemma Discover_devices_come_from_reads_witness :
  Fixtures.firstSeen
    ∈ snapshot (runReads Fixtures.toyCodec Fixtures.readsAthenB ∅)
  /\ allBytes canonicalMACByte (MAC Fixtures.firstSeen) = true
  /\ AdapterIP Fixtures.firstSeen = "192.168.1.2".
Proof.
  assert (Hd : Fixtures.firstSeen
               ∈ snapshot (runReads Fixtures.toyCodec Fixtures.readsAthenB ∅)).
  { apply snapshot_lookup. exists "AA:BB:CC:DD:EE:FF". vm_compute. reflexivity. }
  assert (HD : Discover Fixtures.toyCodec (NewScanner 5000000000)
                 (Ok Fixtures.twoAdapters)
                 (Ok (snapshot (runReads Fixtures.toyCodec Fixtures.readsAthenB ∅)))
                 (mkScanner 5000000000
                    (runReads Fixtures.toyCodec Fixtures.readsAthenB ∅))).
  { apply (Discover_done Fixtures.toyCodec (NewScanner 5000000000));
      [apply interleaved_twoAdapters | reflexivity]. }
  destruct (Discover_devices_come_from_reads _ _ _ _ _ HD Fixtures.firstSeen Hd)
    as (Hc & _).
  split; [exact Hd|]. split; [exact Hc | reflexivity].
Defined.

End DiscoverFacts.

(** *** What BuildCommandXML writes of the options *)

Module VerbatimFacts.
Import GoStr Fmt SadpCmd GoStrFacts CommandFacts.

Lemma Contains_append_l pre t s : Contains t s = true -> Contains (pre +:+ t) s = true.
Proof.
  intros H. induction pre as [|c pre IH]; [exact H|].
  rewrite append_cons. now apply Contains_skip.
Qed.

Lemma Contains_append_r t post s : Contains t s = true -> Contains (t +:+ post) s = true.
Proof.
  induction t as [|c t IH]; rewrite Contains_unfold.
  - destruct (String.prefix s EmptyString) eqn:Hp; [|discriminate].
    intros _. destruct s; [|discriminate]. rewrite append_empty_l.
    rewrite Contains_unfold. now destruct post.
  - destruct (String.prefix s (String c t)) eqn:Hp.
    + intros _. rewrite Contains_unfold, (HttpFacts.prefix_app _ _ post Hp). reflexivity.
    + intros H. rewrite append_cons. apply Contains_skip, IH, H.
Qed.

Lemma Contains_self s : Contains s s = true.
Proof. rewrite <- (append_empty_r s) at 1. apply Contains_here. Qed.

Lemma concat_Contains sep x l s :
  In x l -> Contains x s = true -> Contains (String.concat sep l) s = true.
Proof.
  intros Hin Hx. induction l as [|y [|z l] IH]; [destruct Hin| |].
  - destruct Hin as [->|[]]. exact Hx.
  - change (String.concat sep (y :: z :: l)) with (y +:+ sep +:+ String.concat sep (z :: l)).
    destruct Hin as [->|Hin].
    + now apply Contains_append_r.
    + now apply Contains_append_l, Contains_append_l, IH.
Qed.

Lemma showArg_Contains s : Contains (showArg (AStr s)) s = true.
Proof. unfold showArg. apply Contains_append_l, Contains_self. Qed.

Lemma verb_Contains v s : Contains (verb v (AStr s)) s = true.
Proof.
  unfold verb. destruct (Ascii.eqb v "s"); [apply Contains_self|].
  apply Contains_append_l.
  change (String v ("(" +:+ showArg (AStr s) +:+ ")"))
    with (String v "(" +:+ showArg (AStr s) +:+ ")").
  apply Contains_append_l, Contains_append_r, showArg_Contains.
Qed.

Lemma extra_Contains args s : In (AStr s) args -> Contains (extra args) s = true.
Proof.
  intros Hin. unfold extra. destruct args as [|a args]; [destruct Hin|].
  apply Contains_append_l, Contains_append_r.
  apply (concat_Contains _ (showArg (AStr s))); [|apply showArg_Contains].
  apply in_map_iff. eauto.
Qed.

(** [Sprintf] here prints the verbs [%s], [%d] and [%%] as Go does; these
    are the verbs of the formats of the sources.  Under any of them the
    text of a string operand stands in the output as it is. *)
Lemma Sprintf_Contains format :
  (forall args s, In (AStr s) args -> Contains (Sprintf format args) s = true)
  /\ (forall c args s, In (AStr s) args ->
        Contains (Sprintf (String c format) args) s = true).
Proof.
  induction format as [|a format [IH1 IH2]].
  - split; [intros args s; apply extra_Contains|].
    intros c args s Hin. cbn [Sprintf]. destruct (Ascii.eqb c "%").
    + now apply Contains_append_l, extra_Contains.
    + now apply Contains_skip, extra_Contains.
  - split; [exact (IH2 a)|].
    intros c args s Hin. cbn [Sprintf]. destruct (Ascii.eqb c "%").
    + destruct (Ascii.eqb a "%"); [now apply Contains_skip, IH1|].
      destruct args as [|x args]; [destruct Hin|].
      destruct Hin as [->|Hin].
      * apply Contains_append_r, verb_Contains.
      * now apply Contains_append_l, IH1.
    + apply Contains_skip. now apply (IH2 a).
Qed.

Lemma fillTemplate_operands cmd uuid cmdName opts xml :
  fillTemplate cmd uuid cmdName opts = Ok xml ->
  exists args,
    xml = Sprintf (Template cmd) args
    /\ In (AStr uuid) args
    /\ forall f, requires cmdName f = true -> In (AStr (fieldValue opts f)) args.
Proof.
  unfold fillTemplate, requires, requiredFields, Errorf.
  repeat match goal with
         | |- context [if ?b then _ else _] =>
             match b with
             | oneOf _ _ => destruct b
             | isEmpty _ => destruct b
             | _ || _ => destruct b
             end
         end;
    intros H; try discriminate H; injection H as <-;
    (eexists; split; [reflexivity|]; split; [now left|]);
    intros [] Hf; try discriminate Hf; cbn [fieldValue In]; tauto.
Qed.

(** X27.  With the catalog of the [Commands] literal, whose templates
    hold no verb but [%s] and [%d], the command that [BuildCommandXML]
    builds holds
    the correlation id and the value of every field the command requires
    exactly as they were given: the texts go into the XML byte for byte,
    and nothing is escaped. *)
Theorem BuildCommandXML_writes_values_verbatim (w : World) (cmdName : string)
    (opts : SendOptions) (xml : string) :
  catalogIntact w ->
  (BuildCommandXML cmdName opts w).1 = Ok xml ->
  Contains xml (nextUUID w) = true
  /\ forall f, requires cmdName f = true -> Contains xml (fieldValue opts f) = true.
Proof.
  intros _ H. destruct (Commands w !! cmdName) as [cmd|] eqn:Hl.
  2:{ rewrite (BuildCommandXML_unknown _ _ _ Hl) in H. discriminate H. }
  rewrite (BuildCommandXML_known _ _ _ _ Hl) in H. cbn [fst] in H.
  destruct (fillTemplate_operands _ _ _ _ _ H) as (args & -> & Hu & Hf).
  split; [now apply Sprintf_Contains|].
  intros f Hreq. apply Sprintf_Contains, Hf, Hreq.
Qed.

Lemma BuildCommandXML_writes_values_verbatim_witness :
  (BuildCommandXML "activate" Fixtures.markupPassword Fixtures.demoWorld).1
  = Ok Fixtures.markupXML
  /\ Contains Fixtures.markupXML "pw</Password><Extra>1</Extra>" = true.
Proof.
  assert (H : (BuildCommandXML "activate" Fixtures.markupPassword
                 Fixtures.demoWorld).1 = Ok Fixtures.markupXML) by reflexivity.
  split; [exact H|].
  exact (proj2 (BuildCommandXML_writes_values_verbatim Fixtures.demoWorld "activate"
                  Fixtures.markupPassword Fixtures.markupXML
                  (initialWorld_intact _ _) H) FPassword eq_refl).
Defined.

End VerbatimFacts.

(** *** ExpandCIDR: no address twice, none from outside *)

Module RangeFacts.
Import GoStr Network GoStrFacts CIDRFacts.

Lemma pretty_no_dot (z : Z) : lacks "." (pretty z) = true.
Proof.
  unfold lacks. apply (CSVFacts.pretty_Z_bytes (fun x => negb (Ascii.eqb x "."))).
  - reflexivity.
  - intros d. apply CSVFacts.digit_not; [reflexivity|]. now apply CSVFacts.small_digits.
Qed.

Lemma IP_String_parts a b c d :
  Split (IP_String [a; b; c; d]) "." = [pretty a; pretty b; pretty c; pretty d].
Proof.
  change (IP_String [a; b; c; d])
    with (pretty a +:+ String "." (pretty b +:+ String "." (pretty c
            +:+ String "." (pretty d)))).
  rewrite !CSVFacts.Split_cell by apply pretty_no_dot.
  now rewrite CSVFacts.Split_last by apply pretty_no_dot.
Qed.

(** The text of a four-byte address tells the address. *)
Lemma IP_String_inj ip1 ip2 :
  length ip1 = 4%nat -> length ip2 = 4%nat ->
  IP_String ip1 = IP_String ip2 -> ip1 = ip2.
Proof.
  intros L1 L2 E.
  destruct ip1 as [|a1 [|b1 [|c1 [|d1 [|]]]]]; try discriminate L1.
  destruct ip2 as [|a2 [|b2 [|c2 [|d2 [|]]]]]; try discriminate L2.
  apply (f_equal (fun s => Split s ".")) in E. rewrite !IP_String_parts in E.
  injection E as Ha Hb Hc Hd.
  apply (inj pretty) in Ha, Hb, Hc, Hd. congruence.
Qed.

Lemma block_NoDup ip h :
  wfIPv4 ip -> 0 <= h <= 32 -> NoDup (block ip h).
Proof.
  intros W Hh. unfold block. rewrite (proj1 W).
  destruct (blockStart_bounds ip h W Hh) as (B0 & B1 & _).
  apply (NoDup_fmap_2_strong (fun k => addrOf 4 (blockStart ip h + k))); [|apply NoDup_seqZ].
  intros x y Hx Hy E. apply elem_of_seqZ in Hx, Hy.
  apply (f_equal ipValue) in E. rewrite !ipValue_addrOf4 in E by lia. lia.
Qed.

Lemma block_elem ip ones x :
  wfIPv4 ip -> 0 <= ones <= 32 -> In x (block ip (32 - ones)) ->
  wfIPv4 x /\ IPNet_Contains (parsedNet ip ones) x = true.
Proof.
  intros W Ho Hin. unfold block in Hin. rewrite (proj1 W) in Hin.
  apply in_map_iff in Hin as (k & <- & Hk).
  apply list_elem_of_In, elem_of_seqZ in Hk.
  split; [apply addrOf_wf | apply inside_block; [exact W | exact Ho | lia]].
Qed.

(** X28.  For an IPv4 prefix of length 1 to 32, given fuel for the
    whole range, [ExpandCIDR] returns a list without repetition, of at
    most as many entries as the prefix has addresses, each the dotted text
    of a four-byte address that the network contains. *)
Theorem ExpandCIDR_distinct_and_inside (np : NetParser) (cidr : string)
    (ip : list Z) (ones : Z) (fuel : nat) :
  ParseCIDR np cidr = Ok (ip, ones) -> wfIPv4 ip -> 1 <= ones <= 32 ->
  2 ^ (32 - ones) < Z.of_nat fuel ->
  exists ips,
    ExpandCIDR np fuel cidr = Some (Ok ips)
    /\ NoDup ips
    /\ Z.of_nat (length ips) <= 2 ^ (32 - ones)
    /\ forall s, In s ips ->
         exists x, s = IP_String x /\ wfIPv4 x
                   /\ IPNet_Contains (parsedNet ip ones) x = true.
Proof.
  intros Hp W Ho Hfuel. eexists. split; [exact (ExpandCIDR_result _ _ _ _ _ Hp W Ho Hfuel)|].
  set (h := 32 - ones).
  assert (Hsub : forall x, In x (List.filter (kept h) (block ip h)) -> In x (block ip h))
    by (intros x Hx; now apply filter_In in Hx).
  split; [|split].
  - apply (NoDup_fmap_2_strong IP_String).
    + intros x y Hx Hy E. apply list_elem_of_In, Hsub in Hx, Hy.
      destruct (block_elem ip ones x W ltac:(lia) Hx) as [[Lx _] _].
      destruct (block_elem ip ones y W ltac:(lia) Hy) as [[Ly _] _].
      now apply IP_String_inj.
    + apply NoDup_ListNoDup, List.NoDup_filter, NoDup_ListNoDup, block_NoDup;
        [exact W | unfold h; lia].
  - rewrite length_map. rewrite <- (block_length ip h) by (unfold h; lia).
    pose proof (List.filter_length_le (kept h) (block ip h)). lia.
  - intros s Hs. apply in_map_iff in Hs as (x & <- & Hx). apply Hsub in Hx.
    exists x. split; [reflexivity|]. apply (block_elem ip ones x W); [lia | exact Hx].
Qed.

Lemma ExpandCIDR_distinct_and_inside_witness :
  exists ips,
    ExpandCIDR Fixtures.toyParser 600 "10.0.254.77/23" = Some (Ok ips)
    /\ NoDup ips /\ Z.of_nat (length ips) <= 512.
Proof.
  assert (Hp : ParseCIDR Fixtures.toyParser "10.0.254.77/23"
               = Ok ([10; 0; 254; 77], 23)) by reflexivity.
  assert (W : wfIPv4 [10; 0; 254; 77]).
  { split; [reflexivity|]. repeat constructor; unfold isByte; lia. }
  destruct (ExpandCIDR_distinct_and_inside Fixtures.toyParser "10.0.254.77/23"
              [10; 0; 254; 77] 23 600 Hp W ltac:(lia) ltac:(simpl; lia))
    as (ips & H & Hn & Hl & _).
  exists ips. auto.
Defined.

End RangeFacts.

(** *** The vendor test on a valid MAC *)

Module OUIFacts.
Import GoStr Network Hex GoStrFacts NetworkFacts MACFacts.

(** What [IsHikvisionMAC] makes of one byte of its argument. *)
Lemma hex_normal c :
  isHexDigit c = true ->
  Ascii.eqb (if Ascii.eqb (lower_byte c) "-" then ":"%char else lower_byte c) ":" = false.
Proof. destruct c as [[] [] [] [] [] [] [] []]; intros H; try discriminate H; reflexivity. Qed.

Lemma sep_normal c :
  isSep c = true ->
  (if Ascii.eqb (lower_byte c) "-" then ":"%char else lower_byte c) = ":"%char.
Proof. destruct c as [[] [] [] [] [] [] [] []]; intros H; try discriminate H; reflexivity. Qed.

Lemma hexPairs_step n a b c s :
  hexPairs (S (S n)) (String a (String b (String c s))) = true ->
  isHexDigit a = true /\ isHexDigit b = true /\ isSep c = true
  /\ hexPairs (S n) s = true.
Proof.
  cbn [hexPairs]. rewrite !andb_true_iff. tauto.
Qed.

Lemma Split_pair x y t :
  Ascii.eqb x ":" = false -> Ascii.eqb y ":" = false ->
  Split (String x (String y (String ":" t))) ":"
  = String x (String y EmptyString) :: Split t ":".
Proof.
  intros Hx Hy. cbn [Split]. rewrite Hx, Hy. reflexivity.
Qed.

(** X29.  For a MAC that [IsValidMAC] accepts, [IsHikvisionMAC] is
    decided by its first eight bytes alone: it answers whether these, in
    lower case and with a colon for each dash, are one of the listed
    prefixes. *)
Theorem IsHikvisionMAC_of_valid_MAC (mac : string) :
  IsValidMAC mac = true ->
  IsHikvisionMAC mac
  = existsb (String.eqb (normalizeMAC (String.substring 0 8 mac))) HikvisionOUIs.
Proof.
  rewrite IsValidMAC_hexPairs. intros H.
  destruct mac as [|a [|b [|s1 mac]]]; try discriminate H.
  apply hexPairs_step in H as (Ha & Hb & Hs1 & H).
  destruct mac as [|c [|d [|s2 mac]]]; try discriminate H.
  apply hexPairs_step in H as (Hc & Hd & Hs2 & H).
  destruct mac as [|e [|f [|s3 mac]]]; try discriminate H.
  apply hexPairs_step in H as (He & Hf & Hs3 & _).
  rewrite IsHikvisionMAC_unfold. unfold groups, normalizeMAC, ToLower, ReplaceAll.
  cbn [map_bytes String.substring].
  rewrite (sep_normal _ Hs1), (sep_normal _ Hs2), (sep_normal _ Hs3).
  rewrite !Split_pair by (apply hex_normal; assumption).
  cbn [length take]. 
  match goal with
  | |- context [Z.of_nat (S (S (S ?k))) <? 3] =>
      replace (Z.of_nat (S (S (S k))) <? 3) with false
        by (symmetry; apply Z.ltb_ge; lia)
  end.
  reflexivity.
Qed.

Lemma IsHikvisionMAC_of_valid_MAC_witness :
  IsValidMAC "44-19-B6-00-00-01" = true
  /\ IsHikvisionMAC "44-19-B6-00-00-01" = true
  /\ normalizeMAC (String.substring 0 8 "44-19-B6-00-00-01") = "44:19:b6".
Proof.
  split; [reflexivity|]. split; [|reflexivity].
  rewrite (IsHikvisionMAC_of_valid_MAC "44-19-B6-00-00-01" eq_refl). reflexivity.
Defined.

End OUIFacts.
